(** * Voice-command interpretation and filter reconciliation

    A shallow embedding of [src/utils/nlp.ts] (the keyword and pattern
    based parser [parseVoiceCommand] and the merge [applyEntitiesToFilters])
    and of the dialogue handlers of [src/components/VoiceSearchAssistant.tsx],
    followed by the properties of the specification that concern them.

    Conventions of the embedding.
    - A JavaScript string is a [string] of bytes (UTF-8).  Case folding and
      white space are those of the ASCII range; every keyword and pattern of
      the program is ASCII except the euro sign, which is its UTF-8 bytes.
    - A JavaScript number that holds an integer is [Num z]; the two
      infinities and [NaN] are kept; negative zero is not told from zero.
      [parseInt] rounds to the nearest binary64, as the program does.  The
      confidence score is a binary64 float, as in the program.
    - An object used as a dictionary is a [gmap string _]; an object whose
      key order is observable ([Object.entries]) is an association list.
    - A function that may throw returns a [result].
    - [applyEntitiesToFilters] is given twice: on the contents of filter
      objects ([Module Nlp]) and on a store of objects and arrays named by
      references ([Module Store]); the first is shown to be the reading of
      the second. *)

From Stdlib Require Import Floats Uint63 ZArith NArith Ascii String List Bool Lia.
From stdpp Require Import gmap strings list.

Local Open Scope string_scope.
#[local] Set Warnings "-inexact-float".

(* ================================================================== *)
(** ** The parts of the JavaScript run time the program relies on      *)
(* ================================================================== *)

Module JS.

(** Numbers: integers, the two infinities and [NaN]. *)
Inductive number : Type :=
| NaN
| Infinity (negative : bool)
| Num (z : Z).

(** Outcome of a computation that may throw. *)
Inductive result (A : Type) : Type :=
| Ok (a : A)
| Throw (err : string).
Arguments Ok {A} a.
Arguments Throw {A} err.

Definition bind {A B} (r : result A) (f : A -> result B) : result B :=
  match r with
  | Ok a => f a
  | Throw e => Throw e
  end.

#[global] Instance result_bind : MBind result := fun A B f r => bind r f.

Definition code (c : ascii) : N := N_of_ascii c.

Definition is_digit (c : ascii) : bool :=
  (48 <=? code c)%N && (code c <=? 57)%N.

(** [\s] and the characters removed by [trim], in the ASCII range:
    TAB, LF, VT, FF, CR and SPACE. *)
Definition is_space (c : ascii) : bool :=
  ((9 <=? code c)%N && (code c <=? 13)%N) || (code c =? 32)%N.

Definition lower_char (c : ascii) : ascii :=
  if (65 <=? code c)%N && (code c <=? 90)%N
  then ascii_of_N (code c + 32)
  else c.

(** [s.toLowerCase()] *)
Fixpoint toLowerCase (s : string) : string :=
  match s with
  | EmptyString => EmptyString
  | String c r => String (lower_char c) (toLowerCase r)
  end.

Fixpoint trimStart (s : string) : string :=
  match s with
  | String c r => if is_space c then trimStart r else s
  | EmptyString => EmptyString
  end.

Fixpoint trimEnd (s : string) : string :=
  match s with
  | EmptyString => EmptyString
  | String c r =>
      match trimEnd r with
      | EmptyString => if is_space c then EmptyString else String c EmptyString
      | r' => String c r'
      end
  end.

(** [s.trim()] *)
Definition trim (s : string) : string := trimEnd (trimStart s).

Fixpoint startsWith (s p : string) : bool :=
  match p, s with
  | EmptyString, _ => true
  | String a p', String b s' => Ascii.eqb a b && startsWith s' p'
  | String _ _, EmptyString => false
  end.

(** [s.includes(kw)] *)
Fixpoint includes (s kw : string) : bool :=
  startsWith s kw ||
  match s with
  | EmptyString => false
  | String _ r => includes r kw
  end.

(** [s.replace(/,/g, '')] *)
Fixpoint remove_commas (s : string) : string :=
  match s with
  | EmptyString => EmptyString
  | String c r =>
      if Ascii.eqb c "," then remove_commas r else String c (remove_commas r)
  end.

Definition digit_value (radix : N) (c : ascii) : option N :=
  let n := code (lower_char c) in
  let v := if is_digit c then Some (n - 48)%N
           else if (97 <=? n)%N && (n <=? 122)%N then Some (n - 87)%N
           else None in
  match v with
  | Some d => if (d <? radix)%N then Some d else None
  | None => None
  end.

(** The longest prefix of digits of [s] in [radix], most significant first,
    accumulated on [acc]; [None] when [s] starts with no digit. *)
Fixpoint digits (radix : N) (s : string) (acc : option N) : option N :=
  match s with
  | EmptyString => acc
  | String c r =>
      match digit_value radix c with
      | Some d => digits radix r (Some (default 0%N acc * radix + d)%N)
      | None => acc
      end
  end.

(** The binary64 nearest to a natural number, ties to even: a number of at
    most 53 bits is held as it is, a longer one keeps its 53 leading bits,
    rounded by the rest.  [None] when the result does not fit the largest
    exponent, that is from [2^1024 - 2^970] on. *)
Definition round_binary64 (n : N) : option N :=
  let size := N.size n in
  if (size <=? 53)%N then Some n
  else
    let shift := (size - 53)%N in
    let leading := N.shiftr n shift in
    let rest := N.land n (N.ones shift) in
    let half := N.shiftl 1 (shift - 1) in
    let leading :=
      if (half <? rest)%N || ((rest =? half)%N && N.odd leading)
      then (leading + 1)%N else leading in
    let rounded := N.shiftl leading shift in
    if (N.size rounded <=? 1024)%N then Some rounded else None.

(** The number for a sign and a magnitude: the nearest binary64, an
    infinity when there is none. *)
Definition to_number (negative : bool) (n : N) : number :=
  match round_binary64 n with
  | Some rounded =>
      Num (if negative then - Z.of_N rounded else Z.of_N rounded)
  | None => Infinity negative
  end.

(** [parseInt(s)] with no radix argument: the digits are read exactly and
    the integer is rounded once.  (Beyond 20 decimal digits the standard
    lets an implementation replace the later digits by zeroes before
    rounding; the engines in use do not.) *)
Definition parseInt (s : string) : number :=
  let s := trimStart s in
  let '(neg, s) :=
    match s with
    | String "-" r => (true, r)
    | String "+" r => (false, r)
    | _ => (false, s)
    end in
  let '(radix, s) :=
    match s with
    | String "0" (String "x" r) | String "0" (String "X" r) => (16%N, r)
    | _ => (10%N, s)
    end in
  match digits radix s None with
  | None => NaN
  | Some n => to_number neg n
  end.

(** [new Set(found)] spread back into an array: the first occurrence of
    every value, in order. *)
Definition unique (found : list string) : list string :=
  fold_left (fun seen v =>
               if bool_decide (v ∈ seen) then seen else (seen ++ [v])%list)
            found [].

(** [obj[key] = value] on an object whose keys are kept in insertion order. *)
Fixpoint obj_set {V} (obj : list (string * V)) (key : string) (value : V)
  : list (string * V) :=
  match obj with
  | [] => [(key, value)]
  | (k, v) :: rest =>
      if String.eqb k key then (k, value) :: rest
      else (k, v) :: obj_set rest key value
  end.

(** [Math.min(a, b)] on floats. *)
Definition Math_min (a b : float) : float :=
  if PrimFloat.is_nan a || PrimFloat.is_nan b then PrimFloat.nan
  else if PrimFloat.ltb b a then b else a.

End JS.

(* ================================================================== *)
(** ** Regular expressions with backtracking and capture groups        *)
(* ================================================================== *)

Module Regex.
Import JS.

Inductive regex : Type :=
| Empty
| Chr (c : ascii)               (* a literal character *)
| Digit                         (* \d *)
| Space                         (* \s *)
| Seq (r1 r2 : regex)
| Alt (r1 r2 : regex)           (* r1|r2, left first *)
| Star (r : regex)              (* r*, greedy *)
| Group (i : nat) (r : regex).  (* the i-th capturing group *)

(** Derived forms. *)
Definition Opt (r : regex) : regex := Alt r Empty.        (* r? *)
Definition Plus (r : regex) : regex := Seq r (Star r).    (* r+ *)
Fixpoint Times (n : nat) (r : regex) : regex :=           (* r{n} *)
  match n with
  | O => Empty
  | S n' => Seq r (Times n' r)
  end.
Fixpoint Lit (s : string) : regex :=
  match s with
  | EmptyString => Empty
  | String c r => Seq (Chr c) (Lit r)
  end.
Fixpoint OneOf (rs : list regex) : regex :=               (* (?:a|b|...) *)
  match rs with
  | [] => Empty
  | [r] => r
  | r :: rest => Alt r (OneOf rest)
  end.
Fixpoint Cat (rs : list regex) : regex :=
  match rs with
  | [] => Empty
  | r :: rest => Seq r (Cat rest)
  end.

(** Captures: group number and captured text. *)
Definition captures : Type := list (nat * string).

Definition group (i : nat) (m : captures) : option string :=
  snd <$> find (fun p => Nat.eqb (fst p) i) m.

(** The part of [s] consumed when [rest] is what remains of it. *)
Fixpoint take (n : nat) (s : string) : string :=
  match n, s with
  | S n', String c r => String c (take n' r)
  | _, _ => EmptyString
  end.
Definition consumed (s rest : string) : string :=
  take (String.length s - String.length rest) s.

(** Characters compare without case, as under the [i] flag. *)
Definition chr_eqb (a b : ascii) : bool :=
  Ascii.eqb (lower_char a) (lower_char b).

(** The iterations of [r*]: [body] is the matcher of [r].  Each round
    tries one more iteration before it falls back to the continuation
    [k] (greedy); an iteration that consumes nothing is rejected, as in
    ECMAScript.  An iteration consumes at least one character, so the
    length of the input bounds the number of rounds ([fuel]). *)
Fixpoint iterate {A}
         (body : string -> captures ->
                 (string -> captures -> option A) -> option A)
         (k : string -> captures -> option A)
         (fuel : nat) (s : string) (m : captures) : option A :=
  match fuel with
  | O => k s m
  | S fuel' =>
      match body s m (fun s' m' =>
               if Nat.ltb (String.length s') (String.length s)
               then iterate body k fuel' s' m' else None) with
      | Some a => Some a
      | None => k s m
      end
  end.

(** [run r s m k]: match [r] at the head of [s], then continue with [k] on
    what remains; alternatives are tried in order and the first overall
    success wins. *)
Fixpoint run {A} (r : regex) (s : string) (m : captures)
         (k : string -> captures -> option A) : option A :=
  match r with
  | Empty => k s m
  | Chr c =>
      match s with
      | String b rest => if chr_eqb c b then k rest m else None
      | EmptyString => None
      end
  | Digit =>
      match s with
      | String b rest => if is_digit b then k rest m else None
      | EmptyString => None
      end
  | Space =>
      match s with
      | String b rest => if is_space b then k rest m else None
      | EmptyString => None
      end
  | Seq r1 r2 => run r1 s m (fun s' m' => run r2 s' m' k)
  | Alt r1 r2 =>
      match run r1 s m k with
      | Some a => Some a
      | None => run r2 s m k
      end
  | Star r1 => iterate (run r1) k (String.length s) s m
  | Group i r1 =>
      run r1 s m (fun s' m' => k s' ((i, consumed s s') :: m'))
  end.

(** [text.match(r)] for a pattern without the [g] flag: the captures of
    the leftmost match, or [None]. *)
Fixpoint exec (r : regex) (text : string) : option captures :=
  match run r text [] (fun _ m => Some m) with
  | Some m => Some m
  | None =>
      match text with
      | EmptyString => None
      | String _ rest => exec r rest
      end
  end.

End Regex.

(* ================================================================== *)
(** ** src/utils/nlp.ts                                                *)
(* ================================================================== *)

Module Nlp.
Import JS Regex.

(** *** KEYWORD_MAPPINGS, each table in definition order *)
Module KEYWORD_MAPPINGS.

Definition makes : list (string * string) :=
  [ ("volkswagen", "Volkswagen"); ("vw", "Volkswagen"); ("bmw", "BMW");
    ("mercedes", "Mercedes"); ("benz", "Mercedes"); ("audi", "Audi");
    ("toyota", "Toyota"); ("ford", "Ford"); ("porsche", "Porsche");
    ("tesla", "Tesla"); ("lamborghini", "Lamborghini");
    ("ferrari", "Ferrari") ].

Definition vehicleTypes : list (string * string) :=
  [ ("suv", "suv"); ("sports utility vehicle", "suv"); ("off-road", "suv");
    ("pickup", "suv"); ("saloon", "saloon"); ("sedan", "saloon");
    ("coupe", "sports-coupe"); ("sports car", "sports-coupe");
    ("estate", "estate"); ("wagon", "estate"); ("small car", "small-car");
    ("hatchback", "small-car"); ("cabriolet", "cabriolet");
    ("convertible", "cabriolet"); ("roadster", "cabriolet");
    ("van", "van"); ("minibus", "van") ].

Definition conditions : list (string * string) :=
  [ ("new", "new"); ("used", "used"); ("second hand", "used");
    ("pre-registration", "pre-registration"); ("demo", "demonstration");
    ("demonstration", "demonstration"); ("classic", "classic");
    ("vintage", "classic") ].

Definition fuelTypes : list (string * string) :=
  [ ("petrol", "petrol"); ("gas", "petrol"); ("gasoline", "petrol");
    ("diesel", "diesel"); ("electric", "electric"); ("ev", "electric");
    ("hybrid", "hybrid"); ("plug-in hybrid", "plug-in-hybrid");
    ("phev", "plug-in-hybrid"); ("hydrogen", "hydrogen");
    ("natural gas", "cng"); ("cng", "cng"); ("lpg", "lpg");
    ("ethanol", "ethanol") ].

Definition transmissions : list (string * string) :=
  [ ("automatic", "automatic"); ("auto", "automatic"); ("manual", "manual");
    ("stick shift", "manual"); ("semi-automatic", "semi-automatic");
    ("semi auto", "semi-automatic") ].

Definition driveTypes : list (string * string) :=
  [ ("all wheel drive", "awd"); ("awd", "awd"); ("4wd", "awd");
    ("front wheel drive", "fwd"); ("fwd", "fwd");
    ("rear wheel drive", "rwd"); ("rwd", "rwd") ].

Definition features : list (string * string) :=
  [ ("heated seats", "heatedSeats"); ("navigation", "navigationSystem");
    ("nav", "navigationSystem"); ("gps", "navigationSystem");
    ("sunroof", "sunroof"); ("panoramic roof", "sunroof");
    ("apple carplay", "carPlay"); ("android auto", "carPlay");
    ("alloy wheels", "alloyWheels"); ("led headlights", "ledHeadlights");
    ("led lights", "ledHeadlights"); ("lane assist", "laneChangeAssist");
    ("emergency brake", "emergencyBrakeAssist");
    ("trailer coupling", "trailerCoupling");
    ("tow bar", "trailerCoupling") ].

Definition colors : list (string * string) :=
  [ ("black", "Black"); ("white", "White"); ("silver", "Silver");
    ("grey", "Grey"); ("gray", "Grey"); ("blue", "Blue"); ("red", "Red");
    ("brown", "Brown"); ("green", "Green"); ("orange", "Orange");
    ("yellow", "Yellow"); ("beige", "Beige"); ("gold", "Gold");
    ("purple", "Purple") ].

End KEYWORD_MAPPINGS.

(** *** The patterns *)

(** [\s*] *)
Definition ws : regex := Star Space.
(** [(?:€|euros?|euro)?] *)
Definition euro : regex :=
  Opt (OneOf [Lit "€"; Seq (Lit "euro") (Opt (Chr "s")); Lit "euro"]).
(** [\d+(?:,\d{3})*] *)
Definition grouped_digits : regex :=
  Seq (Plus Digit) (Star (Seq (Chr ",") (Times 3 Digit))).
(** [\d+(?:,\d{3})*(?:\.\d{2})?] *)
Definition amount : regex :=
  Seq grouped_digits (Opt (Seq (Chr ".") (Times 2 Digit))).
(** [(?:km|kilometers?|miles?|mi)] *)
Definition unit_of_length : regex :=
  OneOf [Lit "km"; Seq (Lit "kilometer") (Opt (Chr "s"));
         Seq (Lit "mile") (Opt (Chr "s")); Lit "mi"].

Definition PRICE_PATTERNS : list regex :=
  [ Cat [OneOf [Lit "under"; Lit "less than"; Lit "below"; Lit "max";
                Lit "maximum"];
         ws; euro; ws; Group 1 amount];
    Cat [OneOf [Lit "over"; Lit "more than"; Lit "above"; Lit "min";
                Lit "minimum"];
         ws; euro; ws; Group 1 amount];
    Cat [OneOf [Lit "between"; Lit "from"];
         ws; euro; ws; Group 1 amount; ws;
         OneOf [Lit "to"; Lit "and"; Lit "-"];
         ws; euro; ws; Group 2 amount];
    Cat [euro; ws; Group 1 amount] ].

Definition YEAR_PATTERNS : list regex :=
  [ Cat [OneOf [Lit "from"; Lit "after"; Lit "since"]; ws;
         Group 1 (Times 4 Digit)];
    Cat [OneOf [Lit "before"; Lit "until"]; ws; Group 1 (Times 4 Digit)];
    Cat [OneOf [Lit "between"; Lit "from"]; ws; Group 1 (Times 4 Digit); ws;
         OneOf [Lit "to"; Lit "and"; Lit "-"]; ws; Group 2 (Times 4 Digit)];
    Group 1 (Times 4 Digit) ].

Definition MILEAGE_PATTERNS : list regex :=
  [ Cat [OneOf [Lit "under"; Lit "less than"; Lit "below"]; ws;
         Group 1 grouped_digits; ws; Opt unit_of_length];
    Cat [OneOf [Lit "over"; Lit "more than"; Lit "above"]; ws;
         Group 1 grouped_digits; ws; Opt unit_of_length];
    Cat [Group 1 grouped_digits; ws; unit_of_length] ].

(** *** The data of a parsed command *)

(** [{ min?: number; max?: number }] *)
Record Range : Type := mkRange { min : option number; max : option number }.

(** The entities object: one optional entry per category, in the order in
    which [parseVoiceCommand] assigns them. *)
Record Entities : Type := mkEntities {
  makes : option (list string);
  vehicleTypes : option (list string);
  conditions : option (list string);
  fuelTypes : option (list string);
  transmissions : option (list string);
  driveTypes : option (list string);
  features : option (list (string * bool));
  colors : option (list string);
  priceRange : option Range;
  yearRange : option Range;
  mileage : option Range
}.

Definition no_entities : Entities :=
  mkEntities None None None None None None None None None None None.

Definition present {A} (o : option A) : nat :=
  match o with
  | Some _ => 1
  | None => 0
  end.

(** [Object.keys(entities).length] *)
Definition keys_length (e : Entities) : nat :=
  present (makes e) + present (vehicleTypes e) + present (conditions e)
  + present (fuelTypes e) + present (transmissions e)
  + present (driveTypes e) + present (features e) + present (colors e)
  + present (priceRange e) + present (yearRange e) + present (mileage e).

Record VoiceCommand : Type := mkVoiceCommand {
  intent : string;
  entities : Entities;
  confidence : float
}.

(** *** The extractors *)

Definition extractKeywords (text : string) (keywordMap : list (string * string))
  : list string :=
  let found :=
    fold_left (fun found '(keyword, value) =>
                 if includes text keyword then (found ++ [value])%list
                 else found)
              keywordMap [] in
  unique found.

Definition extractFeatures (text : string) : list (string * bool) :=
  fold_left (fun features '(keyword, feature) =>
               if includes text keyword then obj_set features feature true
               else features)
            KEYWORD_MAPPINGS.features [].

(** [match[i]] of a successful match is [group i m]; a group that took no
    part, or that the pattern does not have, is [undefined] ([None]).
    [parseNumber(match[i])]: [str.replace] on [undefined] throws. *)
Definition parseNumber (str : option string) : result number :=
  match str with
  | Some str => Ok (parseInt (remove_commas str))
  | None => Throw "TypeError"
  end.

(** [parseInt(match[i])]: [parseInt(undefined)] is [NaN]. *)
Definition parseInt_of (str : option string) : number :=
  match str with
  | Some str => parseInt str
  | None => NaN
  end.

(** [if (match[i])] *)
Definition truthy_capture (i : nat) (m : captures) : bool :=
  match group i m with
  | Some (String _ _) => true
  | _ => false
  end.

(** The loop [for (const pattern of PATTERNS)] with its early [return]. *)
Fixpoint first_match {A} (patterns : list regex) (text : string)
         (body : captures -> result A) : result (option A) :=
  match patterns with
  | [] => Ok None
  | pattern :: rest =>
      match exec pattern text with
      | Some m => a ← body m; Ok (Some a)
      | None => first_match rest text body
      end
  end.

Definition extractPriceRange (text : string) : result (option Range) :=
  first_match PRICE_PATTERNS text (fun m =>
    if includes text "under" || includes text "less than"
       || includes text "below" || includes text "max"
    then v ← parseNumber (group 1 m); Ok (mkRange None (Some v))
    else if includes text "over" || includes text "more than"
            || includes text "above" || includes text "min"
    then v ← parseNumber (group 1 m); Ok (mkRange (Some v) None)
    else if truthy_capture 2 m
    then lo ← parseNumber (group 1 m);
         hi ← parseNumber (group 2 m);
         Ok (mkRange (Some lo) (Some hi))
    else v ← parseNumber (group 1 m); Ok (mkRange None (Some v))).

Definition extractYearRange (text : string) : result (option Range) :=
  first_match YEAR_PATTERNS text (fun m =>
    if includes text "from" || includes text "after" || includes text "since"
    then Ok (mkRange (Some (parseInt_of (group 1 m))) None)
    else if includes text "before" || includes text "until"
    then Ok (mkRange None (Some (parseInt_of (group 1 m))))
    else if truthy_capture 2 m
    then Ok (mkRange (Some (parseInt_of (group 1 m)))
                     (Some (parseInt_of (group 2 m))))
    else Ok (mkRange (Some (parseInt_of (group 1 m))) None)).

Definition extractMileage (text : string) : result (option Range) :=
  first_match MILEAGE_PATTERNS text (fun m =>
    value ← parseNumber (group 1 m);
    if includes text "under" || includes text "less than"
       || includes text "below"
    then Ok (mkRange None (Some value))
    else if includes text "over" || includes text "more than"
            || includes text "above"
    then Ok (mkRange (Some value) None)
    else Ok (mkRange None (Some value))).

Definition determineIntent (text : string) (entities : Entities) : string :=
  if includes text "find" || includes text "search" || includes text "show"
     || includes text "looking for"
  then "search_cars"
  else if includes text "compare" || includes text "comparison"
  then "compare_cars"
  else if includes text "detail" || includes text "more info"
          || includes text "tell me about"
  then "car_details"
  else if includes text "reset" || includes text "clear"
          || includes text "start over"
  then "reset_filters"
  else if includes text "yes" || includes text "correct"
          || includes text "right"
  then "confirm"
  else if includes text "no" || includes text "wrong"
          || includes text "change"
  then "deny"
  else if Nat.ltb 0 (keys_length entities)
  then "specify_filters"
  else "unknown".

Definition confidenceKeywords : list string :=
  ["find"; "search"; "looking for"; "want"; "need"; "show me"].

(** The loop over [confidenceKeywords]: the first keyword found adds 0.2
    and leaves the loop. *)
Fixpoint boost (keywords : list string) (text : string) (confidence : float)
  : float :=
  match keywords with
  | [] => confidence
  | keyword :: rest =>
      if includes (toLowerCase text) keyword
      then (confidence + 0.2)%float
      else boost rest text confidence
  end.

Definition float_of_nat (n : nat) : float :=
  PrimFloat.of_uint63 (Uint63.of_Z (Z.of_nat n)).

Definition calculateConfidence (entities : Entities) (text : string) : float :=
  let confidence := 0.5%float in
  let confidence :=
    (confidence + float_of_nat (keys_length entities) * 0.1)%float in
  let confidence := boost confidenceKeywords text confidence in
  Math_min confidence 1.0%float.

(** [if (xs.length > 0) entities.k = xs] *)
Definition nonempty {A} (xs : list A) : option (list A) :=
  match xs with
  | [] => None
  | _ => Some xs
  end.

Definition parseVoiceCommand (text : string) : result VoiceCommand :=
  let normalizedText := trim (toLowerCase text) in
  let makes := extractKeywords normalizedText KEYWORD_MAPPINGS.makes in
  let vehicleTypes :=
    extractKeywords normalizedText KEYWORD_MAPPINGS.vehicleTypes in
  let conditions :=
    extractKeywords normalizedText KEYWORD_MAPPINGS.conditions in
  let fuelTypes := extractKeywords normalizedText KEYWORD_MAPPINGS.fuelTypes in
  let transmissions :=
    extractKeywords normalizedText KEYWORD_MAPPINGS.transmissions in
  let driveTypes :=
    extractKeywords normalizedText KEYWORD_MAPPINGS.driveTypes in
  let features := extractFeatures normalizedText in
  let colors := extractKeywords normalizedText KEYWORD_MAPPINGS.colors in
  priceRange ← extractPriceRange normalizedText;
  yearRange ← extractYearRange normalizedText;
  mileage ← extractMileage normalizedText;
  let entities :=
    mkEntities (nonempty makes) (nonempty vehicleTypes) (nonempty conditions)
               (nonempty fuelTypes) (nonempty transmissions)
               (nonempty driveTypes) (nonempty features) (nonempty colors)
               priceRange yearRange mileage in
  let intent := determineIntent normalizedText entities in
  Ok {| intent := intent;
        entities := entities;
        confidence := calculateConfidence entities normalizedText |}.

(** *** Filter states

    A filter state is a [Partial<CarFilters>] object: a dictionary from
    field names to numbers, booleans, strings and arrays of strings.  The
    type is shared by the two readings of an array-valued field: the array
    itself ([value (list string)]) or a reference to it ([value nat], in
    the store of [Module Store] below). *)
Inductive value (R : Type) : Type :=
| VNum (n : number)
| VBool (b : bool)
| VStr (s : string)
| VArr (r : R).
Arguments VNum {R} n.
Arguments VBool {R} b.
Arguments VStr {R} s.
Arguments VArr {R} r.

Abbreviation CarFilters := (gmap string (value (list string))).

(** Truthiness of a number: neither [0] nor [NaN]. *)
Definition truthy_number (n : number) : bool :=
  match n with
  | NaN => false
  | Infinity _ => true
  | Num z => negb (z =? 0)%Z
  end.

(** Truthiness of a field that is present. *)
Definition truthy {R} (v : value R) : bool :=
  match v with
  | VNum n => truthy_number n
  | VBool b => b
  | VStr s => negb (String.eqb s EmptyString)
  | VArr _ => true
  end.

(** [!x] for a field that may be absent. *)
Definition falsy {R} (x : option (value R)) : bool :=
  match x with
  | None => true
  | Some v => negb (truthy v)
  end.

Fixpoint chars (s : string) : list string :=
  match s with
  | EmptyString => []
  | String c r => String c EmptyString :: chars r
  end.

(** [...(x || [])]: the elements spread out of a field.  A truthy value
    that is not iterable makes the spread throw. *)
Definition spread_or_empty (x : option (value (list string)))
  : result (list string) :=
  match x with
  | None => Ok []
  | Some (VArr items) => Ok items
  | Some (VStr s) => Ok (chars s)
  | Some v => if truthy v then Throw "TypeError" else Ok []
  end.

(** [if (entities.k) updatedFilters.f = [...(updatedFilters.f || []), ...entities.k]] *)
Definition append_list (field : string) (extracted : option (list string))
           (updatedFilters : CarFilters) : result CarFilters :=
  match extracted with
  | None => Ok updatedFilters
  | Some xs =>
      old ← spread_or_empty (updatedFilters !! field);
      Ok (<[field := VArr (old ++ xs)%list]> updatedFilters)
  end.

(** [Object.entries(entities.features).forEach(([key, value]) => ...)] *)
Definition assign_features (fs : option (list (string * bool)))
           (updatedFilters : CarFilters) : CarFilters :=
  match fs with
  | None => updatedFilters
  | Some entries =>
      fold_left (fun f '(key, value) => <[key := VBool value]> f)
                entries updatedFilters
  end.

(** [if (bound !== undefined) updatedFilters.f = bound] *)
Definition assign_bound (field : string) (bound : option number)
           (updatedFilters : CarFilters) : CarFilters :=
  match bound with
  | None => updatedFilters
  | Some n => <[field := VNum n]> updatedFilters
  end.

Definition assign_range (fieldMin fieldMax : string) (range : option Range)
           (updatedFilters : CarFilters) : CarFilters :=
  match range with
  | None => updatedFilters
  | Some r =>
      assign_bound fieldMax (max r)
        (assign_bound fieldMin (min r) updatedFilters)
  end.

Definition applyEntitiesToFilters (entities : Entities)
           (currentFilters : CarFilters) : result CarFilters :=
  let updatedFilters := currentFilters in
  f ← append_list "makes" (makes entities) updatedFilters;
  f ← append_list "vehicleTypes" (vehicleTypes entities) f;
  f ← append_list "conditions" (conditions entities) f;
  f ← append_list "fuelTypes" (fuelTypes entities) f;
  f ← append_list "transmissions" (transmissions entities) f;
  f ← append_list "driveTypes" (driveTypes entities) f;
  f ← append_list "exteriorColors" (colors entities) f;
  let f := assign_features (features entities) f in
  let f := assign_range "priceMin" "priceMax" (priceRange entities) f in
  let f := assign_range "yearMin" "yearMax" (yearRange entities) f in
  let f := assign_range "mileageMin" "mileageMax" (mileage entities) f in
  Ok f.

End Nlp.

(* ================================================================== *)
(** ** src/components/VoiceSearchAssistant.tsx                         *)
(* ================================================================== *)

Module Assistant.
Import JS Nlp.

(** [ConversationState] of src/types/car.ts. *)
Record ConversationState : Type := mkConversationState {
  currentStep : string;
  collectedFilters : CarFilters;
  pendingConfirmation : option string;
  lastSpoken : option string
}.

Inductive sender : Type := user | assistant.

(** The two functions handed to [setTimeout]. *)
Inductive callback : Type :=
| askNextQuestion (updatedFilters : CarFilters)
| runSearch.

(** What a handler does, in order: calls of the state setters of the
    component, of its props and of the host. *)
Inductive action : Type :=
| setConversationState (next : ConversationState)
| setCollectedFilters (updatedFilters : CarFilters)
    (* setConversationState(prev => ({...prev, collectedFilters})) *)
| setConversation_append (type : sender) (text : string)
| setIsSpeaking (b : bool)
| setTranscript (text : string)
| synth_speak (text : string)
| onFiltersUpdate (filters : CarFilters)
| onSearch
| onClose
| toast (title description : string)
| setTimeout (handler : callback) (ms : N).

(** The values a handler reads from the render it was created in. *)
Record Closure : Type := mkClosure {
  synth : bool;            (* synthRef.current is set *)
  isSpeaking : bool;
  conversationState : ConversationState
}.

(** The actions carried out, and the exception that ended them if any. *)
Definition outcome : Type := list action * option string.

Definition addMessage (type : sender) (text : string) : list action :=
  [setConversation_append type text].

Definition speak (env : Closure) (text : string) : list action :=
  if synth env && negb (isSpeaking env)
  then [setIsSpeaking true; synth_speak text]
  else [].

Definition length_is_zero {R} (length : R -> nat) (v : value R) : bool :=
  match v with
  | VArr r => Nat.eqb (length r) 0
  | VStr s => Nat.eqb (String.length s) 0
  | _ => false
  end.

(** [!filters.f || filters.f.length === 0] *)
Definition none_collected (x : option (value (list string))) : bool :=
  falsy x ||
  match x with
  | Some v => length_is_zero (@List.length string) v
  | None => false
  end.

Definition generateNextQuestion (filters : CarFilters) : string :=
  if none_collected (filters !! "makes")
  then "What car brand would you prefer? For example, BMW, Mercedes, Audi, or Volkswagen?"
  else if falsy (filters !! "priceMax") && falsy (filters !! "priceMin")
  then "What's your budget range? You can say something like 'under 30,000 euros' or 'between 20,000 and 50,000 euros'."
  else if none_collected (filters !! "vehicleTypes")
  then "What type of vehicle interests you? For example, SUV, sedan, coupe, or estate?"
  else if none_collected (filters !! "transmissions")
  then "Do you prefer automatic or manual transmission?"
  else "Is there anything else specific you're looking for? Or should I search for cars with your current criteria?".

Section Handlers.

(** [n.toLocaleString()] depends on the locale of the host. *)
Variable toLocaleString : number -> string.

Definition featureMap : list (string * string) :=
  [ ("heatedSeats", "heated seats");
    ("navigationSystem", "navigation system");
    ("sunroof", "sunroof");
    ("carPlay", "Apple CarPlay");
    ("alloyWheels", "alloy wheels");
    ("ledHeadlights", "LED headlights") ].

(** [featureMap[key] || key] *)
Definition featureName (key : string) : string :=
  match find (fun p => String.eqb (fst p) key) featureMap with
  | Some (_, name) => name
  | None => key
  end.

Definition join (sep : string) (xs : list string) : string :=
  String.concat sep xs.

Definition confirm_list (x : option (list string)) (what : string)
  : list string :=
  match x with
  | Some xs => [join " or " xs ++ what]
  | None => []
  end.

Definition confirm_bound (x : option number) (prefix : string)
  : list string :=
  match x with
  | Some n => if truthy_number n then [prefix ++ toLocaleString n]
              else []
  | None => []
  end.

Definition generateConfirmationText (entities : Entities)
           (originalText : string) : string :=
  let confirmations :=
    (confirm_list (makes entities) " vehicles"
     ++ confirm_list (vehicleTypes entities) " body type"
     ++ confirm_list (conditions entities) " condition"
     ++ confirm_list (fuelTypes entities) " fuel type"
     ++ confirm_list (transmissions entities) " transmission"
     ++ match priceRange entities with
        | Some r => confirm_bound (max r) "under €"
                    ++ confirm_bound (min r) "over €"
        | None => []
        end
     ++ match features entities with
        | Some fs =>
            [("with " ++ join ", " (map (fun p => featureName (fst p)) fs))%string]
        | None => []
        end)%list in
  match confirmations with
  | [] => "I understand you're looking for a car. Could you be more specific about what you want?"
  | _ => "Got it! Looking for " ++ join ", " confirmations ++ "."
  end.

Definition handleFilterSpecification (env : Closure) (entities : Entities)
           (originalText : string) : outcome :=
  match applyEntitiesToFilters entities
          (collectedFilters (conversationState env)) with
  | Throw err => ([], Some err)
  | Ok updatedFilters =>
      let confirmationText :=
        generateConfirmationText entities originalText in
      ([setCollectedFilters updatedFilters;
        onFiltersUpdate updatedFilters]
       ++ addMessage assistant confirmationText
       ++ speak env confirmationText
       ++ [setTimeout (askNextQuestion updatedFilters) 2000],
       None)%list
  end.

Definition handleConfirmation (env : Closure) : outcome :=
  let response :=
    "Perfect! Let me search for cars matching your criteria." in
  (addMessage assistant response ++ speak env response
   ++ [setTimeout runSearch 1500], None)%list.

Definition handleDenial (env : Closure) : outcome :=
  let response :=
    "No problem! Please tell me what you'd like to change or search for instead." in
  (addMessage assistant response ++ speak env response, None)%list.

Definition handleReset (env : Closure) : outcome :=
  let response :=
    "All filters cleared! Let's start fresh. What kind of car are you looking for?" in
  ([setConversationState
      (mkConversationState "collecting_preferences" ∅ None None);
    onFiltersUpdate ∅]
   ++ addMessage assistant response ++ speak env response, None)%list.

Definition handleUnknownCommand (env : Closure) (text : string) : outcome :=
  let response :=
    "I didn't quite understand that. Could you try rephrasing? For example, you could say 'I want a BMW SUV under 50,000 euros' or 'Show me electric cars with heated seats.'" in
  (addMessage assistant response ++ speak env response, None)%list.

Definition processVoiceCommand (env : Closure) (command : VoiceCommand)
           (originalText : string) : outcome :=
  let intent := intent command in
  let entities := entities command in
  if String.eqb intent "search_cars" || String.eqb intent "specify_filters"
  then handleFilterSpecification env entities originalText
  else if String.eqb intent "confirm" then handleConfirmation env
  else if String.eqb intent "deny" then handleDenial env
  else if String.eqb intent "reset_filters" then handleReset env
  else handleUnknownCommand env originalText.

Definition handleVoiceInput (env : Closure) (text : string) : outcome :=
  match parseVoiceCommand text with
  | Throw err => (addMessage user text, Some err)
  | Ok command =>
      match processVoiceCommand env command text with
      | (actions, None) =>
          (addMessage user text ++ actions ++ [setTranscript EmptyString],
           None)%list
      | (actions, Some err) =>
          (addMessage user text ++ actions, Some err)%list
      end
  end.

Definition startConversation (env : Closure) : outcome :=
  let welcomeMessage :=
    "Welcome to RedLine Motors voice assistant! I can help you find the perfect car. Tell me what you're looking for - for example, 'I need a used SUV under thirty thousand euros with automatic transmission.'" in
  (addMessage assistant welcomeMessage ++ speak env welcomeMessage
   ++ [setConversationState
         (mkConversationState "collecting_preferences" ∅ None None)],
   None)%list.

(** What the function given to [setTimeout] does when the timer fires. *)
Definition fire (env : Closure) (handler : callback) : list action :=
  match handler with
  | askNextQuestion updatedFilters =>
      let nextQuestion := generateNextQuestion updatedFilters in
      (addMessage assistant nextQuestion ++ speak env nextQuestion)%list
  | runSearch =>
      [onSearch; onClose;
       toast "Search Complete"
             "Found cars matching your voice search criteria!"]
  end.

End Handlers.

(** The conversation state after the state updates among [actions],
    applied in order. *)
Definition reduce (cs : ConversationState) (a : action) : ConversationState :=
  match a with
  | setConversationState next => next
  | setCollectedFilters updatedFilters =>
      mkConversationState (currentStep cs) updatedFilters
                          (pendingConfirmation cs) (lastSpoken cs)
  | _ => cs
  end.

Definition after (actions : list action) (cs : ConversationState)
  : ConversationState :=
  fold_left reduce actions cs.

(** The state the component is created with. *)
Definition initialState : ConversationState :=
  mkConversationState "greeting" ∅ None None.

End Assistant.

(* ================================================================== *)
(** ** applyEntitiesToFilters on a store of objects and arrays          *)
(* ================================================================== *)

(** The same function once more, now with the objects and arrays it
    touches held in a store and named by references, so that a write to an
    object that is shared would be seen.  [Nlp.applyEntitiesToFilters] is the
    reading of this one on the contents of the filter objects (lemma
    [Store_refines] below). *)
Module Store.
Import JS Nlp.

Abbreviation ref := nat.

Inductive cell : Type :=
| Object (fields : gmap string (value ref))
| Array (items : list string).

(** A store is the sequence of the cells allocated so far; a reference is
    an index into it. *)
Abbreviation store := (list cell).

(** Computations that read and write the store and may throw. *)
Definition M (A : Type) : Type := store -> result (A * store).

Definition ret {A} (a : A) : M A := fun h => Ok (a, h).
Definition throw {A} (err : string) : M A := fun _ => Throw err.
Definition then_ {A B} (c : M A) (f : A -> M B) : M B :=
  fun h => match c h with
           | Ok (a, h') => f a h'
           | Throw err => Throw err
           end.

#[local] Instance M_bind : MBind M := fun A B f c => then_ c f.

Definition alloc (c : cell) : M ref :=
  fun h => Ok (length h, (h ++ [c])%list).

(** [{ ...o }] *)
Definition copy_object (o : ref) : M ref :=
  fun h => match h !! o with
           | Some (Object fields) => alloc (Object fields) h
           | _ => Throw "TypeError"
           end.

(** [o.field] *)
Definition get_field (o : ref) (field : string) : M (option (value ref)) :=
  fun h => match h !! o with
           | Some (Object fields) => Ok (fields !! field, h)
           | _ => Throw "TypeError"
           end.

(** [o.field = v], a write in place *)
Definition set_field (o : ref) (field : string) (v : value ref) : M unit :=
  fun h => match h !! o with
           | Some (Object fields) =>
               Ok (tt, <[o := Object (<[field := v]> fields)]> h)
           | _ => Throw "TypeError"
           end.

Definition read_array (a : ref) : M (list string) :=
  fun h => match h !! a with
           | Some (Array items) => Ok (items, h)
           | _ => Throw "TypeError"
           end.

(** [...(x || [])] *)
Definition spread_or_empty (x : option (value ref)) : M (list string) :=
  match x with
  | None => ret []
  | Some (VArr a) => read_array a
  | Some (VStr s) => ret (chars s)
  | Some v => if truthy v then throw "TypeError" else ret []
  end.

Definition append_list (updatedFilters : ref) (field : string)
           (extracted : option (list string)) : M unit :=
  match extracted with
  | None => ret tt
  | Some xs =>
      x ← get_field updatedFilters field;
      old ← spread_or_empty x;
      a ← alloc (Array (old ++ xs)%list);
      set_field updatedFilters field (VArr a)
  end.

Fixpoint assign_entries (updatedFilters : ref) (entries : list (string * bool))
  : M unit :=
  match entries with
  | [] => ret tt
  | (key, value) :: rest =>
      set_field updatedFilters key (VBool value);;
      assign_entries updatedFilters rest
  end.

Definition assign_features (updatedFilters : ref)
           (fs : option (list (string * bool))) : M unit :=
  match fs with
  | None => ret tt
  | Some entries => assign_entries updatedFilters entries
  end.

Definition assign_bound (updatedFilters : ref) (field : string)
           (bound : option number) : M unit :=
  match bound with
  | None => ret tt
  | Some n => set_field updatedFilters field (VNum n)
  end.

Definition assign_range (updatedFilters : ref) (fieldMin fieldMax : string)
           (range : option Range) : M unit :=
  match range with
  | None => ret tt
  | Some r =>
      assign_bound updatedFilters fieldMin (min r);;
      assign_bound updatedFilters fieldMax (max r)
  end.

Definition applyEntitiesToFilters (entities : Entities) (currentFilters : ref)
  : M ref :=
  updatedFilters ← copy_object currentFilters;
  append_list updatedFilters "makes" (makes entities);;
  append_list updatedFilters "vehicleTypes" (vehicleTypes entities);;
  append_list updatedFilters "conditions" (conditions entities);;
  append_list updatedFilters "fuelTypes" (fuelTypes entities);;
  append_list updatedFilters "transmissions" (transmissions entities);;
  append_list updatedFilters "driveTypes" (driveTypes entities);;
  append_list updatedFilters "exteriorColors" (colors entities);;
  assign_features updatedFilters (features entities);;
  assign_range updatedFilters "priceMin" "priceMax" (priceRange entities);;
  assign_range updatedFilters "yearMin" "yearMax" (yearRange entities);;
  assign_range updatedFilters "mileageMin" "mileageMax" (mileage entities);;
  ret updatedFilters.

(** The contents of a field, and of the fields of a filter object, in a
    store. *)
Definition view_value (h : store) (v : value ref)
  : option (value (list string)) :=
  match v with
  | VNum n => Some (VNum n)
  | VBool b => Some (VBool b)
  | VStr s => Some (VStr s)
  | VArr a =>
      match h !! a with
      | Some (Array items) => Some (VArr items)
      | _ => None
      end
  end.

Definition view_fields (h : store) (fields : gmap string (value ref))
  : CarFilters :=
  omap (view_value h) fields.

(** Every array-valued field refers to an array of the store. *)
Definition closed (h : store) (fields : gmap string (value ref)) : Prop :=
  forall field a, fields !! field = Some (VArr a) ->
                  exists items, h !! a = Some (Array items).

(** The fields that [applyEntitiesToFilters] assigns for given entities. *)
Definition written_list (field : string) {A} (extracted : option A)
  : list string :=
  match extracted with
  | Some _ => [field]
  | None => []
  end.

Definition written_range (fieldMin fieldMax : string) (range : option Range)
  : list string :=
  match range with
  | Some r => written_list fieldMin (min r) ++ written_list fieldMax (max r)
  | None => []
  end.

Definition written (entities : Entities) : list string :=
  (written_list "makes" (makes entities)
   ++ written_list "vehicleTypes" (vehicleTypes entities)
   ++ written_list "conditions" (conditions entities)
   ++ written_list "fuelTypes" (fuelTypes entities)
   ++ written_list "transmissions" (transmissions entities)
   ++ written_list "driveTypes" (driveTypes entities)
   ++ written_list "exteriorColors" (colors entities)
   ++ match features entities with
      | Some entries => map fst entries
      | None => []
      end
   ++ written_range "priceMin" "priceMax" (priceRange entities)
   ++ written_range "yearMin" "yearMax" (yearRange entities)
   ++ written_range "mileageMin" "mileageMax" (mileage entities))%list.

End Store.


(* ================================================================== *)
(** ** src/components/VoiceSearchAssistant.tsx: speech recognition     *)
(* ================================================================== *)

Module Recognition.
Import JS Nlp Assistant.

Local Open Scope string_scope.

(** One entry of [event.results]: the transcript of its first alternative
    and whether the result is final. *)
Record SpeechRecognitionResult : Type := mkResult {
  transcript : string;
  isFinal : bool
}.

(** The loop of [onresult] over the results from [event.resultIndex] on. *)
Fixpoint transcripts (results : list SpeechRecognitionResult)
         (finalTranscript interimTranscript : string) : string * string :=
  match results with
  | [] => (finalTranscript, interimTranscript)
  | result :: rest =>
      if isFinal result
      then transcripts rest (finalTranscript ++ transcript result)
                       interimTranscript
      else transcripts rest finalTranscript
                       (interimTranscript ++ transcript result)
  end.

(** Truthiness of a string. *)
Definition truthy_string (s : string) : bool :=
  negb (String.eqb s EmptyString).

Section Handlers.

Variable toLocaleString : number -> string.

(** [recognitionRef.current.onresult], calling the [handleVoiceInput] of
    the closure [env]. *)
Definition onresult (env : Closure) (resultIndex : nat)
           (results : list SpeechRecognitionResult) : outcome :=
  let '(finalTranscript, interimTranscript) :=
    transcripts (skipn resultIndex results) EmptyString EmptyString in
  let shown :=
    if truthy_string finalTranscript
    then finalTranscript else interimTranscript in
  if truthy_string finalTranscript
  then
    let '(actions, err) :=
      handleVoiceInput toLocaleString env finalTranscript in
    (setTranscript shown :: actions, err)
  else ([setTranscript shown], None).

End Handlers.

(** The effect that creates the recognition and sets [onresult] has no
    dependencies: it runs once, after the first render, and the handler
    keeps the [handleVoiceInput] of that render, with the state the
    component was created with.  [synthRef] is a ref, read when speaking. *)
Definition first_render (synth : bool) : Closure :=
  mkClosure synth false initialState.

End Recognition.

(* ================================================================== *)
(** ** src/pages/Inventory.tsx                                          *)
(* ================================================================== *)

Module Inventory.
Import JS Nlp.

Local Open Scope string_scope.

(** The fields of a car that the page reads when it filters. *)
Record Car : Type := mkCar {
  name : string;
  make : string;
  vehicleType : string;
  year : number;
  price : number;
  fuelType : string;
  transmission : string;
  condition : string
}.

(** The state of the page before any change. *)
Definition initialFilters : CarFilters :=
  {[ "priceMin" := VNum (Num 0); "priceMax" := VNum (Num 500000);
     "makes" := VArr []; "vehicleTypes" := VArr []; "conditions" := VArr [];
     "fuelTypes" := VArr []; "transmissions" := VArr [] ]}.

(** [a < b] on numbers: false when one of them is [NaN]. *)
Definition lt (a b : number) : bool :=
  match a, b with
  | NaN, _ | _, NaN => false
  | _, Infinity true => false
  | Infinity true, _ => true
  | Infinity false, _ => false
  | _, Infinity false => true
  | Num x, Num y => (x <? y)%Z
  end.

(** The number that [filters.f && car.price < filters.f] compares the price
    with, if the field is truthy: a number is itself, [true] converts to 1.
    The conversion of a non-empty string or of an array is not modelled:
    [None]. *)
Definition bound (x : option (value (list string)))
  : option (option number) :=
  match x with
  | None => Some None
  | Some (VNum n) => Some (if truthy_number n then Some n else None)
  | Some (VBool b) => Some (if b then Some (Num 1) else None)
  | Some (VStr s) =>
      if String.eqb s EmptyString then Some None else None
  | Some (VArr _) => None
  end.

(** [filters.f && filters.f.length > 0 && !filters.f.includes(v)]: an array
    is searched for the element, a string for the substring; a number or a
    boolean has no length. *)
Definition excludes (x : option (value (list string))) (v : string) : bool :=
  match x with
  | Some (VArr xs) =>
      Nat.ltb 0 (List.length xs) && negb (existsb (String.eqb v) xs)
  | Some (VStr s) => Nat.ltb 0 (String.length s) && negb (includes s v)
  | _ => false
  end.

Section Page.

(** The decimal text of a number, as a template literal prints it. *)
Variable toString : number -> string.

Definition searchText (car : Car) : string :=
  toLowerCase (name car ++ " " ++ make car ++ " " ++ vehicleType car
               ++ " " ++ toString (year car)).

(** The callback of [allCars.filter]. *)
Definition keeps (searchTerm : string) (filters : CarFilters) (car : Car)
  : option bool :=
  if negb (String.eqb searchTerm EmptyString)
     && negb (includes (searchText car) (toLowerCase searchTerm))
  then Some false
  else
    priceMin ← bound (filters !! "priceMin");
    if match priceMin with
       | Some n => lt (price car) n
       | None => false
       end
    then Some false
    else
      priceMax ← bound (filters !! "priceMax");
      if match priceMax with
         | Some n => lt n (price car)
         | None => false
         end
      then Some false
      else if excludes (filters !! "makes") (make car) then Some false
      else if excludes (filters !! "vehicleTypes") (vehicleType car)
      then Some false
      else if excludes (filters !! "fuelTypes") (fuelType car)
      then Some false
      else if excludes (filters !! "transmissions") (transmission car)
      then Some false
      else
        let condition :=
          if String.eqb (condition car) "new" then "New" else "Used" in
        if excludes (filters !! "conditions") condition then Some false
        else Some true.

Fixpoint filteredCars (allCars : list Car) (searchTerm : string)
         (filters : CarFilters) : option (list Car) :=
  match allCars with
  | [] => Some []
  | car :: rest =>
      match keeps searchTerm filters car with
      | None => None
      | Some keep =>
          match filteredCars rest searchTerm filters with
          | None => None
          | Some cars => Some (if keep : bool then car :: cars else cars)
          end
      end
  end.

End Page.

(** *** Pages *)

Definition carsPerPage : Z := 9.

(** [Math.ceil(length / carsPerPage)]: the quotient of an array length by 9
    is not rounded up to a whole number by the division, so that the result
    is the quotient rounded up. *)
Definition totalPages {A} (cars : list A) : Z :=
  let length := Z.of_nat (List.length cars) in
  if (length mod carsPerPage =? 0)%Z
  then (length / carsPerPage)%Z
  else (length / carsPerPage + 1)%Z.

(** An index of [slice] relative to the length. *)
Definition relative (len i : Z) : Z :=
  if (i <? 0)%Z then Z.max (len + i) 0 else Z.min i len.

(** [cars.slice(start, end)] *)
Definition slice {A} (cars : list A) (start finish : Z) : list A :=
  let len := Z.of_nat (List.length cars) in
  let k := relative len start in
  let final := relative len finish in
  firstn (Z.to_nat (final - k)) (skipn (Z.to_nat k) cars).

Definition currentCars {A} (cars : list A) (currentPage : Z) : list A :=
  slice cars ((currentPage - 1) * carsPerPage) (currentPage * carsPerPage).

(** The buttons under the list: shown when there is more than one page;
    one button per page, and the two arrows, each disabled at its end. *)
Inductive button : Type :=
| previous
| page (i : nat)     (* the button of page [i + 1] *)
| next.

Definition click (totalPages currentPage : Z) (b : button) : Z :=
  if (1 <? totalPages)%Z
  then match b with
       | previous =>
           if (currentPage =? 1)%Z then currentPage
           else Z.max 1 (currentPage - 1)
       | page i =>
           if (Z.of_nat i <? totalPages)%Z then Z.of_nat i + 1
           else currentPage
       | next =>
           if (currentPage =? totalPages)%Z then currentPage
           else Z.min totalPages (currentPage + 1)
       end
  else currentPage.

End Inventory.


(* ================================================================== *)
(** ** Notions used to state the properties                            *)
(* ================================================================== *)

Import JS Regex Nlp Assistant.

(** [binds i r]: every way of matching [r] goes through the capturing
    group [i]. *)
Fixpoint binds (i : nat) (r : regex) : bool :=
  match r with
  | Group j r1 => Nat.eqb j i || binds i r1
  | Seq r1 r2 => binds i r1 || binds i r2
  | Alt r1 r2 => binds i r1 && binds i r2
  | _ => false
  end.

(** [text] contains one of [keywords]. *)
Definition mentions (text : string) (keywords : list string) : bool :=
  existsb (includes text) keywords.

(** *** The end-to-end scenario *)

Definition scenario : string :=
  "I need a used BMW SUV under 40000 euros with heated seats".

(** The filter state the specification gives for the scenario. *)
Definition scenario_filters_of_spec : CarFilters :=
  {[ "makes" := VArr ["BMW"]; "vehicleTypes" := VArr ["suv"];
     "conditions" := VArr ["used"]; "priceMax" := VNum (Num 40000);
     "heatedSeats" := VBool true ]}.

(** The filter state the program computes for it. *)
Definition scenario_filters : CarFilters :=
  <["yearMin" := VNum (Num 4000)]>
    (<["mileageMax" := VNum (Num 40000)]> scenario_filters_of_spec).

(** *** Intents *)

(** The intent of an utterance, when parsing returns. *)
Definition intent_of (text : string) : option string :=
  match parseVoiceCommand text with
  | Ok command => Some (intent command)
  | Throw _ => None
  end.

(** The classification of [determineIntent] as a list of rules, first
    applicable first: the keywords of a rule and its intent. *)
Definition intent_rules : list (list string * string) :=
  [ (["find"; "search"; "show"; "looking for"], "search_cars");
    (["compare"; "comparison"], "compare_cars");
    (["detail"; "more info"; "tell me about"], "car_details");
    (["reset"; "clear"; "start over"], "reset_filters");
    (["yes"; "correct"; "right"], "confirm");
    (["no"; "wrong"; "change"], "deny") ].

Fixpoint first_rule (rules : list (list string * string)) (text : string)
  : option string :=
  match rules with
  | [] => None
  | (keywords, intent) :: rest =>
      if mentions text keywords then Some intent else first_rule rest text
  end.

(** *** Numeric ranges *)

(** The entities of an utterance, when parsing returns. *)
Definition entities_of (text : string) : option Entities :=
  match parseVoiceCommand text with
  | Ok command => Some (entities command)
  | Throw _ => None
  end.

(** The direction keywords that the three extractors look for. *)
Definition price_directions : list string :=
  ["under"; "less than"; "below"; "max"; "over"; "more than"; "above"; "min"].
Definition year_directions : list string :=
  ["from"; "after"; "since"; "before"; "until"].
Definition mileage_directions : list string :=
  ["under"; "less than"; "below"; "over"; "more than"; "above"].

(** *** Merging *)

(** Entities that mention one make. *)
Definition only_makes (xs : list string) : Entities :=
  mkEntities (Some xs) None None None None None None None None None None.

(** None of the list-valued categories is present. *)
Definition no_lists (e : Entities) : Prop :=
  makes e = None /\ vehicleTypes e = None /\ conditions e = None
  /\ fuelTypes e = None /\ transmissions e = None /\ driveTypes e = None
  /\ colors e = None.

(** The assignments of scalar fields that [applyEntitiesToFilters] makes,
    in order. *)
Definition bound_writes (field : string) (bound : option number)
  : list (string * value (list string)) :=
  match bound with
  | Some n => [(field, VNum n)]
  | None => []
  end.

Definition range_writes (fieldMin fieldMax : string) (range : option Range)
  : list (string * value (list string)) :=
  match range with
  | Some r => bound_writes fieldMin (min r) ++ bound_writes fieldMax (max r)
  | None => []
  end.

Definition scalar_writes (e : Entities) : list (string * value (list string)) :=
  (match features e with
   | Some entries => map (fun '(key, value) => (key, VBool value)) entries
   | None => []
   end
   ++ range_writes "priceMin" "priceMax" (priceRange e)
   ++ range_writes "yearMin" "yearMax" (yearRange e)
   ++ range_writes "mileageMin" "mileageMax" (mileage e))%list.

Definition write_all (ws : list (string * value (list string)))
           (f : CarFilters) : CarFilters :=
  fold_left (fun f '(key, v) => <[key := v]> f) ws f.

(** Entities with two feature flags, a maximal price and a range of years. *)
Definition scalar_example : Entities :=
  mkEntities None None None None None None
             (Some [("heatedSeats", true); ("sunroof", true)]) None
             (Some (mkRange None (Some (Num 40000))))
             (Some (mkRange (Some (Num 2015)) (Some (Num 2020))))
             None.

(** *** Utterances in which nothing is recognized *)

Definition all_keywords : list string :=
  map fst (KEYWORD_MAPPINGS.makes ++ KEYWORD_MAPPINGS.vehicleTypes
           ++ KEYWORD_MAPPINGS.conditions ++ KEYWORD_MAPPINGS.fuelTypes
           ++ KEYWORD_MAPPINGS.transmissions ++ KEYWORD_MAPPINGS.driveTypes
           ++ KEYWORD_MAPPINGS.features ++ KEYWORD_MAPPINGS.colors)%list.

Definition all_patterns : list regex :=
  (PRICE_PATTERNS ++ YEAR_PATTERNS ++ MILEAGE_PATTERNS)%list.

Definition intent_keywords : list string :=
  concat (map fst intent_rules).

Definition no_match (text : string) (pattern : regex) : bool :=
  match exec pattern text with
  | Some _ => false
  | None => true
  end.

(** No keyword of the tables, no pattern and no intent keyword matches the
    normalized text. *)
Definition recognizes_nothing (text : string) : bool :=
  negb (mentions text all_keywords)
  && forallb (no_match text) all_patterns
  && negb (mentions text intent_keywords).

(** *** Confidence *)

(** The score for [n] entity categories, with or without the bonus. *)
Definition score (n : nat) (boosted : bool) : float :=
  let confidence := (0.5 + float_of_nat n * 0.1)%float in
  Math_min (if boosted then (confidence + 0.2)%float else confidence) 1.0%float.

(** The text contains a confidence keyword. *)
Definition boosted (text : string) : bool :=
  mentions (toLowerCase text) confidenceKeywords.

(** The confidence of an utterance, when parsing returns. *)
Definition confidence_of (text : string) : option float :=
  match parseVoiceCommand text with
  | Ok command => Some (confidence command)
  | Throw _ => None
  end.

(** Entities with three categories. *)
Definition three_categories : Entities :=
  mkEntities (Some ["BMW"]) (Some ["suv"]) (Some ["used"])
             None None None None None None None None.

(** *** The dialogue *)

(** What can happen to the component: the dialog opens, an utterance is
    heard, a timer fires.  Each is handled by a function created in some
    render, whose values ([Closure]) it reads. *)
Inductive event : Type :=
| opened
| heard (text : string)
| timer (handler : callback).

Definition actions_of (toLocaleString : number -> string) (env : Closure)
           (ev : event) : list action :=
  match ev with
  | opened => fst (startConversation env)
  | heard text => fst (handleVoiceInput toLocaleString env text)
  | timer handler => fire env handler
  end.

(** The conversation state after a sequence of events. *)
Definition run_events (toLocaleString : number -> string)
           (trace : list (Closure * event)) (cs : ConversationState)
  : ConversationState :=
  fold_left (fun cs '(env, ev) => after (actions_of toLocaleString env ev) cs)
            trace cs.

(** An action that leaves [currentStep] alone or sets it to
    "collecting_preferences". *)
Definition keeps_step (a : action) : Prop :=
  match a with
  | setConversationState next => currentStep next = "collecting_preferences"
  | _ => True
  end.

(** What [handleConfirmation] says. *)
Definition acknowledgement : string :=
  "Perfect! Let me search for cars matching your criteria.".

(** The conversation state that [startConversation] sets. *)
Definition collecting : ConversationState :=
  mkConversationState "collecting_preferences" ∅ None None.

(** *** The merge on the store *)

(** The fields of [CarFilters] that hold arrays and that the merge reads. *)
Definition list_fields : list string :=
  ["makes"; "vehicleTypes"; "conditions"; "fuelTypes"; "transmissions";
   "driveTypes"; "exteriorColors"].

(** Each of them, when present, holds an array. *)
Definition lists_are_arrays (fields : gmap string (value Store.ref)) : Prop :=
  forall field v,
    field ∈ list_fields -> fields !! field = Some v -> exists a, v = VArr a.

(** [c], run on a store in which [u] is a filter object, does on the
    contents of [u] what [p] computes, returns [x], assigns no field of [u]
    outside [W] and changes no other cell of the store. *)
Definition simulates {A} (u : Store.ref) (W : list string) (c : Store.M A)
           (x : A) (p : CarFilters -> result CarFilters) : Prop :=
  forall h fs,
    h !! u = Some (Store.Object fs) -> Store.closed h fs ->
    match c h with
    | Ok (a, h') =>
        a = x
        /\ exists fs',
            h' !! u = Some (Store.Object fs')
            /\ Store.closed h' fs'
            /\ length h <= length h'
            /\ (forall l, l <> u -> l < length h -> h' !! l = h !! l)
            /\ (forall field, field ∉ W -> fs' !! field = fs !! field)
            /\ p (Store.view_fields h fs) = Ok (Store.view_fields h' fs')
    | Throw err => p (Store.view_fields h fs) = Throw err
    end.

(** A store with one filter object, [{makes: ["Audi"], priceMin: 1000}],
    and entities that mention a make and a maximal price. *)
Definition example_fields : gmap string (value Store.ref) :=
  {[ "makes" := VArr 0; "priceMin" := VNum (Num 1000) ]}.

Definition example_store : Store.store :=
  [Store.Array ["Audi"]; Store.Object example_fields].

Definition example_entities : Entities :=
  mkEntities (Some ["BMW"]) None None None None None None None
             (Some (mkRange None (Some (Num 40000)))) None None.

(** [h'] keeps the arrays of [h]. *)
Definition keeps_arrays (h h' : Store.store) : Prop :=
  forall a items,
    h !! a = Some (Store.Array items) -> h' !! a = Some (Store.Array items).

(** *** What a pattern matches *)

(** [matches r w]: the pattern [r] matches the whole of [w] (without the
    order of choices, which [run] adds). *)
Inductive matches : regex -> string -> Prop :=
| matches_Empty : matches Empty EmptyString
| matches_Chr c b :
    chr_eqb c b = true -> matches (Chr c) (String b EmptyString)
| matches_Digit b :
    is_digit b = true -> matches Digit (String b EmptyString)
| matches_Space b :
    is_space b = true -> matches Space (String b EmptyString)
| matches_Seq r1 r2 w1 w2 :
    matches r1 w1 -> matches r2 w2 -> matches (Seq r1 r2) (w1 ++ w2)
| matches_Alt_l r1 r2 w : matches r1 w -> matches (Alt r1 r2) w
| matches_Alt_r r1 r2 w : matches r2 w -> matches (Alt r1 r2) w
| matches_Star_nil r : matches (Star r) EmptyString
| matches_Star_cons r w1 w2 :
    matches r w1 -> matches (Star r) w2 -> matches (Star r) (w1 ++ w2)
| matches_Group i r w : matches r w -> matches (Group i r) w.

(** The capturing groups of a pattern, with their numbers. *)
Fixpoint groups (r : regex) : list (nat * regex) :=
  match r with
  | Seq r1 r2 | Alt r1 r2 => (groups r1 ++ groups r2)%list
  | Star r1 => groups r1
  | Group i r1 => (i, r1) :: groups r1
  | _ => []
  end.

(** A capture of [r]: text matched by the group of that number. *)
Definition captured_by (r : regex) (capture : nat * string) : Prop :=
  exists r1, (fst capture, r1) ∈ groups r /\ matches r1 (snd capture).

(** Every character that [r] can match satisfies [P]. *)
Fixpoint all_chars (P : ascii -> bool) (r : regex) : Prop :=
  match r with
  | Empty => True
  | Chr c => forall b, chr_eqb c b = true -> P b = true
  | Digit => forall b, is_digit b = true -> P b = true
  | Space => forall b, is_space b = true -> P b = true
  | Seq r1 r2 | Alt r1 r2 => all_chars P r1 /\ all_chars P r2
  | Star r1 | Group _ r1 => all_chars P r1
  end.

(** Every match of [r] starts with a digit. *)
Fixpoint leading_digit (r : regex) : bool :=
  match r with
  | Digit => true
  | Seq r1 _ => leading_digit r1
  | Alt r1 r2 => leading_digit r1 && leading_digit r2
  | Group _ r1 => leading_digit r1
  | _ => false
  end.

Fixpoint every (P : ascii -> bool) (s : string) : bool :=
  match s with
  | EmptyString => true
  | String c r => P c && every P r
  end.

(** The characters of a number as the price and mileage patterns capture
    it. *)
Definition numeral_char (c : ascii) : bool :=
  is_digit c || Ascii.eqb c "," || Ascii.eqb c ".".

(** A number that is an integer and not negative. *)
Definition natural (v : number) : Prop := exists n : N, v = Num (Z.of_N n).

(** A number that is neither [NaN] nor negative: a natural number or
    [Infinity]. *)
Definition nonnegative (v : number) : Prop :=
  natural v \/ v = Infinity false.

(** A year of at most four digits. *)
Definition four_digits (v : number) : Prop :=
  exists n : N, v = Num (Z.of_N n) /\ (n <= 9999)%N.

(** Both bounds of a range, where present, satisfy [P]. *)
Definition bounds (P : number -> Prop) (r : Range) : Prop :=
  (forall v, min r = Some v -> P v) /\ (forall v, max r = Some v -> P v).

(** *** The merge in closed form *)

(** The list-valued categories of the entities with the fields they are
    appended to, in the order of [applyEntitiesToFilters]. *)
Definition list_categories (e : Entities) : list (string * option (list string)) :=
  [ ("makes", makes e); ("vehicleTypes", vehicleTypes e);
    ("conditions", conditions e); ("fuelTypes", fuelTypes e);
    ("transmissions", transmissions e); ("driveTypes", driveTypes e);
    ("exteriorColors", colors e) ].

(** The spread of a field throws: the category is present and the field
    holds [true] or a number other than [0] and [NaN]. *)
Definition blocked (f : CarFilters) (category : string * option (list string))
  : bool :=
  match snd category, f !! fst category with
  | Some _, Some (VNum n) => truthy_number n
  | Some _, Some (VBool b) => b
  | _, _ => false
  end.

Definition throws (e : Entities) (f : CarFilters) : bool :=
  existsb (blocked f) (list_categories e).

(** The elements a field contributes to an append that does not throw. *)
Definition spread_of (x : option (value (list string))) : list string :=
  match x with
  | Some (VArr items) => items
  | Some (VStr s) => chars s
  | _ => []
  end.

(** The assignments of list fields that the merge of [e] into [f] makes. *)
Definition list_writes_of (f : CarFilters)
           (categories : list (string * option (list string)))
  : list (string * value (list string)) :=
  omap (fun category =>
          match snd category with
          | Some xs =>
              Some (fst category,
                    VArr (spread_of (f !! fst category) ++ xs)%list)
          | None => None
          end) categories.

Definition list_writes (e : Entities) (f : CarFilters)
  : list (string * value (list string)) :=
  list_writes_of f (list_categories e).

(** The appends of [applyEntitiesToFilters], one after the other. *)
Fixpoint append_all (categories : list (string * option (list string)))
         (f : CarFilters) : result CarFilters :=
  match categories with
  | [] => Ok f
  | (field, extracted) :: rest =>
      f' ← append_list field extracted f; append_all rest f'
  end.

(** *** Filter states as the dialogue builds them *)

Definition bound_fields : list string :=
  ["priceMin"; "priceMax"; "yearMin"; "yearMax"; "mileageMin"; "mileageMax"].

Definition feature_names : list string :=
  map snd KEYWORD_MAPPINGS.features.

(** A field of a filter state holds what [CarFilters] declares for it: an
    array for a list field, a natural number or [Infinity] for a bound,
    [true] for a
    feature; there is no other field. *)
Definition typed_field (field : string) (v : value (list string)) : Prop :=
  (field ∈ list_fields /\ exists xs, v = VArr xs)
  \/ (field ∈ bound_fields /\ exists n, v = VNum n /\ nonnegative n)
  \/ (field ∈ feature_names /\ v = VBool true).

Definition well_typed (f : CarFilters) : Prop :=
  forall field v, f !! field = Some v -> typed_field field v.

(** Entities as the parser builds them: features of the table, all [true],
    and numbers that are neither [NaN] nor negative as bounds. *)
Definition parsed (e : Entities) : Prop :=
  (forall fs feature flag,
      features e = Some fs -> (feature, flag) ∈ fs ->
      feature ∈ feature_names /\ flag = true)
  /\ (forall r, priceRange e = Some r -> bounds nonnegative r)
  /\ (forall r, yearRange e = Some r -> bounds nonnegative r)
  /\ (forall r, mileage e = Some r -> bounds nonnegative r).

(** The fields of a range hold the bounds that the entities give. *)
Definition holds_range (fieldMin fieldMax : string) (range : option Range)
           (f : CarFilters) : Prop :=
  forall r, range = Some r ->
    (forall v, min r = Some v -> f !! fieldMin = Some (VNum v))
    /\ (forall v, max r = Some v -> f !! fieldMax = Some (VNum v)).

(** An action that stores or publishes only well-typed filter states. *)
Definition keeps_typed (a : action) : Prop :=
  match a with
  | setConversationState next => well_typed (collectedFilters next)
  | setCollectedFilters updatedFilters => well_typed updatedFilters
  | onFiltersUpdate filters => well_typed filters
  | setTimeout (askNextQuestion updatedFilters) _ => well_typed updatedFilters
  | _ => True
  end.

(** The conversation states that the component can be in: the initial one,
    and the one after an event handled by a function whose closure holds a
    state the component was in before. *)
Inductive reachable (toLocaleString : number -> string)
  : ConversationState -> Prop :=
| reachable_initial : reachable toLocaleString initialState
| reachable_event seen cs env ev :
    reachable toLocaleString seen ->
    reachable toLocaleString cs ->
    conversationState env = seen ->
    reachable toLocaleString (after (actions_of toLocaleString env ev) cs).

(** The texts handed to the speech synthesis, and the messages of the
    assistant added to the conversation, in order. *)
Definition spoken (actions : list action) : list string :=
  omap (fun a => match a with
                 | synth_speak text => Some text
                 | _ => None
                 end) actions.

Definition assistant_messages (actions : list action) : list string :=
  omap (fun a => match a with
                 | setConversation_append assistant text => Some text
                 | _ => None
                 end) actions.

(** The handler can speak: there is a synthesis and nothing is being
    spoken. *)
Definition can_speak (env : Closure) : bool :=
  synth env && negb (isSpeaking env).

(** The text that [parseVoiceCommand] works on. *)
Definition normalized (text : string) : string := trim (toLowerCase text).

(** The keywords of the intents search_cars, and of compare_cars and
    car_details. *)
Definition search_keywords : list string :=
  ["find"; "search"; "show"; "looking for"].

Definition compare_and_detail_keywords : list string :=
  ["compare"; "comparison"; "detail"; "more info"; "tell me about"].

(** The filter states handed to [onFiltersUpdate], in order. *)
Definition published (actions : list action) : list CarFilters :=
  omap (fun a => match a with
                 | onFiltersUpdate filters => Some filters
                 | _ => None
                 end) actions.

(** The first question of [generateNextQuestion]. *)
Definition brand_question : string :=
  "What car brand would you prefer? For example, BMW, Mercedes, Audi, or Volkswagen?".

(** The transcripts of the final results from [resultIndex] on, one after
    the other, and those of the other results. *)
Definition joined (results : list Recognition.SpeechRecognitionResult)
  : string :=
  fold_right String.append EmptyString (map Recognition.transcript results).

Definition final_transcript (resultIndex : nat)
           (results : list Recognition.SpeechRecognitionResult) : string :=
  joined (List.filter Recognition.isFinal (skipn resultIndex results)).

Definition interim_transcript (resultIndex : nat)
           (results : list Recognition.SpeechRecognitionResult) : string :=
  joined (List.filter (fun r => negb (Recognition.isFinal r))
                      (skipn resultIndex results)).

(** The actions of [onresult] for one final result with the text [text],
    in a browser with a speech synthesis. *)
Definition recognized (text : string) : list action :=
  fst (Recognition.onresult (fun _ => EmptyString)
                            (Recognition.first_render true) 0
                            [Recognition.mkResult text true]).

(** *** The inventory page *)

(** The fields of the filter state that the page reads. *)
Definition read_fields : list string :=
  ["priceMin"; "priceMax"; "makes"; "vehicleTypes"; "fuelTypes";
   "transmissions"; "conditions"].

(** Entities without any of the categories that the page filters by. *)
Definition names_nothing_filtered (e : Entities) : Prop :=
  makes e = None /\ vehicleTypes e = None /\ conditions e = None
  /\ fuelTypes e = None /\ transmissions e = None /\ priceRange e = None.

(** The two names under which the page looks a condition up. *)
Definition page_conditions : list string := ["New"; "Used"].

(** The conditions of a filter state, if any, are none of those. *)
Definition no_page_condition (f : CarFilters) : Prop :=
  forall xs c, f !! "conditions" = Some (VArr xs) ->
               c ∈ page_conditions -> c ∉ xs.

(** The numbers of the pages. *)
Definition page_numbers {A} (cars : list A) : list Z :=
  map (fun i => Z.of_nat i + 1)%Z
      (seq 0 (Z.to_nat (Inventory.totalPages cars))).

(** Entities with a first year and a feature only. *)
Definition year_and_seats : Entities :=
  mkEntities None None None None None None
             (Some [("heatedSeats", true)]) None None
             (Some (mkRange (Some (Num 2015)) None)) None.

(** The page shown after a sequence of clicks, from the first page. *)
Definition browse (total : Z) (clicks : list Inventory.button) : Z :=
  fold_left (Inventory.click total) clicks 1%Z.

(** The reply of [generateConfirmationText] that confirms nothing. *)
Definition generic_reply : string :=
  "I understand you're looking for a car. Could you be more specific about what you want?".

(** A range without a bound that is confirmed: each bound is absent, [0] or
    [NaN]. *)
Definition no_truthy_bound (range : option Range) : Prop :=
  forall r, range = Some r ->
    (forall n, max r = Some n -> truthy_number n = false)
    /\ (forall n, min r = Some n -> truthy_number n = false).

(** Entities of which nothing is confirmed: years, mileages, drive types
    and colours are not looked at. *)
Definition nothing_to_confirm (e : Entities) : Prop :=
  makes e = None /\ vehicleTypes e = None /\ conditions e = None
  /\ fuelTypes e = None /\ transmissions e = None /\ features e = None
  /\ no_truthy_bound (priceRange e).

(* ================================================================== *)
(** ** Facts about the matcher                                         *)
(* ================================================================== *)

Section Matcher.

Lemma group_cons_same i s m : group i ((i, s) :: m) = Some s.
Proof. unfold group. simpl. by rewrite Nat.eqb_refl. Qed.

Lemma group_cons_keeps i j s m :
  is_Some (group i m) -> is_Some (group i ((j, s) :: m)).
Proof.
  unfold group. simpl. destruct (Nat.eqb j i); [by eexists|done].
Qed.

(** A successful run ends in its continuation, with captures that extend
    the given ones and contain every group that [r] binds. *)
Lemma run_binds i r :
  forall A s m (k : string -> captures -> option A) a,
    run r s m k = Some a ->
    exists s' m',
      k s' m' = Some a
      /\ (forall j, is_Some (group j m) -> is_Some (group j m'))
      /\ (binds i r = true -> is_Some (group i m')).
Proof.
  induction r as [| c | | | r1 IH1 r2 IH2 | r1 IH1 r2 IH2 | r1 IH1 | j r1 IH1];
    intros A s m k a Hrun; simpl in Hrun.
  - exists s, m. by repeat split.
  - destruct s as [|b rest]; [done|].
    destruct (chr_eqb c b); [|done]. exists rest, m. by repeat split.
  - destruct s as [|b rest]; [done|].
    destruct (is_digit b); [|done]. exists rest, m. by repeat split.
  - destruct s as [|b rest]; [done|].
    destruct (is_space b); [|done]. exists rest, m. by repeat split.
  - apply IH1 in Hrun as (s1 & m1 & Hrun & Hext1 & Hb1).
    apply IH2 in Hrun as (s2 & m2 & Hk & Hext2 & Hb2).
    exists s2, m2. split; [done|]. split; [by auto|].
    simpl. intros [H|H]%orb_true_iff; auto.
  - destruct (run r1 s m k) as [a1|] eqn:Hr1.
    + injection Hrun as ->.
      apply IH1 in Hr1 as (s1 & m1 & Hk & Hext & Hb).
      exists s1, m1. split; [done|]. split; [done|].
      simpl. intros [H _]%andb_true_iff. auto.
    + apply IH2 in Hrun as (s2 & m2 & Hk & Hext & Hb).
      exists s2, m2. split; [done|]. split; [done|].
      simpl. intros [_ H]%andb_true_iff. auto.
  - remember (String.length s) as fuel eqn:Hfuel. clear Hfuel.
    revert s m Hrun.
    induction fuel as [|fuel IHfuel]; intros s m Hrun; simpl in Hrun.
    + exists s, m. by repeat split.
    + match type of Hrun with
      | match ?e with _ => _ end = _ => destruct e as [a1|] eqn:Hr1
      end.
      * injection Hrun as ->.
        apply IH1 in Hr1 as (s1 & m1 & Hk & Hext & _).
        destruct (Nat.ltb _ _); [|done].
        apply IHfuel in Hk as (s2 & m2 & Hk & Hext2 & _).
        exists s2, m2. split; [done|]. split; [by auto|]. done.
      * exists s, m. by repeat split.
  - apply IH1 in Hrun as (s1 & m1 & Hk & Hext & Hb).
    exists s1, ((j, consumed s s1) :: m1). split; [done|]. split.
    + intros j' Hj'. by apply group_cons_keeps, Hext.
    + simpl. intros [H|H]%orb_true_iff.
      * apply Nat.eqb_eq in H as ->. rewrite group_cons_same. by eexists.
      * by apply group_cons_keeps, Hb.
Qed.

(** A match of a pattern that binds group [i] defines [match[i]]. *)
Lemma exec_binds i r text m :
  binds i r = true -> exec r text = Some m -> is_Some (group i m).
Proof.
  intros Hb. induction text as [|c rest IH]; simpl.
  - destruct (run r _ _ _) as [m'|] eqn:Hrun; [|done].
    intros [= ->]. apply (run_binds i) in Hrun as (s' & m1 & [= ->] & _ & H).
    auto.
  - destruct (run r _ _ _) as [m'|] eqn:Hrun; [|done].
    intros [= ->]. apply (run_binds i) in Hrun as (s' & m1 & [= ->] & _ & H).
    auto.
Qed.

Lemma run_ext r :
  forall A s m (k1 k2 : string -> captures -> option A),
    (forall s' m', k1 s' m' = k2 s' m') ->
    run r s m k1 = run r s m k2.
Proof.
  induction r as [| c | | | r1 IH1 r2 IH2 | r1 IH1 r2 IH2 | r1 IH1 | j r1 IH1];
    intros A s m k1 k2 Hk; simpl.
  - apply Hk.
  - destruct s as [|b rest]; [done|]. by rewrite Hk.
  - destruct s as [|b rest]; [done|]. by rewrite Hk.
  - destruct s as [|b rest]; [done|]. by rewrite Hk.
  - apply IH1. intros s' m'. by apply IH2.
  - by rewrite (IH1 _ s m k1 k2 Hk), (IH2 _ s m k1 k2 Hk).
  - generalize (String.length s) as fuel. intros fuel. revert s m.
    induction fuel as [|fuel IHfuel]; intros s m; simpl; [apply Hk|].
    rewrite Hk. erewrite IH1; [reflexivity|].
    intros s' m'. simpl. by rewrite IHfuel.
  - apply IH1. intros s' m'. apply Hk.
Qed.

(** Two matches on results of [run] that differ in the continuation. *)
Ltac same_run :=
  match goal with
  | |- match ?a with _ => _ end = match ?b with _ => _ end =>
      let H := fresh in
      assert (H : a = b); [apply run_ext; intros ? ?; simpl | by rewrite H]
  end.

(** More fuel than the length of the input changes nothing. *)
Lemma iterate_fuel r A (k : string -> captures -> option A) :
  forall fuel1 fuel2 s m,
    String.length s <= fuel1 -> String.length s <= fuel2 ->
    iterate (run r) k fuel1 s m = iterate (run r) k fuel2 s m.
Proof.
  assert (Hzero : forall fuel s m,
             String.length s = 0 -> iterate (run r) k fuel s m = k s m).
  { intros [|fuel] s m Hs; simpl; [done|].
    destruct (run r s m _) as [a|] eqn:Hrun; [|done].
    apply (run_binds 0) in Hrun as (s' & m' & Hk & _).
    rewrite Hs in Hk. by destruct (String.length s'). }
  induction fuel1 as [|fuel1 IH]; intros fuel2 s m H1 H2.
  - rewrite !Hzero; [done|lia..].
  - destruct fuel2 as [|fuel2].
    + rewrite !Hzero; [done|lia..].
    + simpl. same_run.
      destruct (Nat.ltb_spec (String.length s') (String.length s)); [|done].
      apply IH; lia.
Qed.

(** The equation of [r*]: one more iteration that makes progress, then
    [r*] again; failing that, the continuation. *)
Lemma run_Star r A s m (k : string -> captures -> option A) :
  run (Star r) s m k =
  match run r s m (fun s' m' =>
           if Nat.ltb (String.length s') (String.length s)
           then run (Star r) s' m' k else None) with
  | Some a => Some a
  | None => k s m
  end.
Proof.
  simpl. destruct (String.length s) as [|n] eqn:Hs; simpl.
  - destruct (run r s m _) as [a|] eqn:Hrun; [|done].
    apply (run_binds 0) in Hrun as (s' & m' & Hk & _).
    by destruct (String.length s').
  - same_run. rewrite Hs.
    destruct (Nat.ltb_spec (String.length s') (S n)); [|done].
    apply iterate_fuel; lia.
Qed.

End Matcher.

(* ================================================================== *)
(** ** The end-to-end scenario and the examples of the specification   *)
(* ================================================================== *)

(** C1. For the scenario utterance and the empty filter state, parsing and
    merging give the five fields of the specification and, besides them,
    [yearMin = 4000] (the first four digits of the price) and
    [mileageMax = 40000] (the price, read once more by the mileage pattern
    whose unit is optional); so the state is not the one of the
    specification.  The next question asks about the transmission. *)
Theorem C1_scenario_also_sets_year_and_mileage :
  exists command,
    parseVoiceCommand scenario = Ok command
    /\ applyEntitiesToFilters (entities command) ∅ = Ok scenario_filters
    /\ scenario_filters <> scenario_filters_of_spec
    /\ Assistant.generateNextQuestion scenario_filters
       = "Do you prefer automatic or manual transmission?".
Proof.
  eexists. split; [vm_compute; reflexivity|].
  split; [vm_compute; reflexivity|].
  split; [|vm_compute; reflexivity].
  intros H. apply (f_equal (fun f => f !! "yearMin")) in H.
  vm_compute in H. discriminate.
Qed.

(* ================================================================== *)
(** ** Intent classification                                           *)
(* ================================================================== *)

(** C2, as stated, fails: the utterance "yes, show me BMWs" contains the
    search keyword "show", so its intent is not "confirm". *)
Lemma C2_yes_show_me_is_not_confirm :
  intent_of "yes, show me BMWs" <> Some "confirm".
Proof. vm_compute. discriminate. Qed.

(** C2, amended.  The intent is that of the first rule, in the order
    search_cars, compare_cars, car_details, reset_filters, confirm, deny,
    one of whose keywords occurs in the text; without any, it is
    specify_filters when an entity was extracted and unknown otherwise.
    "yes, show me BMWs" and "find a BMW and yes I'm sure" are search_cars;
    "yes, a BMW" is confirm although a make was extracted. *)
Theorem C2_intent_priority :
  (forall text entities,
      determineIntent text entities =
      match first_rule intent_rules text with
      | Some intent => intent
      | None => if Nat.ltb 0 (keys_length entities)
                then "specify_filters" else "unknown"
      end)
  /\ intent_of "yes, show me BMWs" = Some "search_cars"
  /\ intent_of "find a BMW and yes I'm sure" = Some "search_cars"
  /\ intent_of "yes, a BMW" = Some "confirm".
Proof.
  split; [|by vm_compute].
  intros text entities. unfold determineIntent, intent_rules, first_rule, mentions.
  simpl existsb. rewrite !orb_false_r, !orb_assoc.
  repeat (match goal with |- context [if ?c then _ else _] => destruct c end;
          try reflexivity).
Qed.

(* ================================================================== *)
(** ** Numeric ranges                                                  *)
(* ================================================================== *)

(** From "no keyword of the list occurs" to one fact per keyword, and its
    use in a hypothesis. *)
Ltac absent_keywords :=
  repeat match goal with
         | H : _ || _ = false |- _ => apply orb_false_iff in H as [? ?]
         end.
Ltac rewrite_absent Hm :=
  repeat match goal with
         | H : includes _ _ = false |- _ => rewrite H in Hm
         end.

Lemma first_match_body {A} patterns text (body : captures -> result A) a :
  first_match patterns text body = Ok (Some a) ->
  exists m, body m = Ok a.
Proof.
  induction patterns as [|p rest IH]; simpl; [done|].
  destruct (exec p text) as [m|]; [|done].
  destruct (body m) as [a'|err] eqn:Hbody; [|done].
  intros [= ->]. by exists m.
Qed.

(** C4. The three examples of the claim, and the rule behind them: when the
    utterance has no direction keyword, a single number is a maximum for
    price and for mileage and a minimum for year. *)
Theorem C4_bare_number_defaults :
  (priceRange <$> entities_of "under 30000"
     = Some (Some (mkRange None (Some (Num 30000))))
   /\ priceRange <$> entities_of "30000"
      = Some (Some (mkRange None (Some (Num 30000))))
   /\ yearRange <$> entities_of "2020"
      = Some (Some (mkRange (Some (Num 2020)) None))
   /\ mileage <$> entities_of "30000 km"
      = Some (Some (mkRange None (Some (Num 30000)))))
  /\ forall text,
      (mentions text price_directions = false ->
       forall r, extractPriceRange text = Ok (Some r) ->
                 (exists v, r = mkRange None (Some v))
                 \/ (exists lo hi, r = mkRange (Some lo) (Some hi)))
      /\ (mentions text mileage_directions = false ->
          forall r, extractMileage text = Ok (Some r) ->
                    exists v, r = mkRange None (Some v))
      /\ (mentions text year_directions = false ->
          forall r, extractYearRange text = Ok (Some r) ->
                    (exists v, r = mkRange (Some v) None)
                    \/ (exists lo hi, r = mkRange (Some lo) (Some hi))).
Proof.
  split; [by vm_compute|].
  intros text. unfold mentions; simpl existsb.
  repeat split; intros Hno r Hr; apply first_match_body in Hr as [m Hm];
    absent_keywords; rewrite_absent Hm; simpl in Hm.
  - destruct (truthy_capture 2 m).
    + destruct (parseNumber (group 1 m)) as [lo|]; [|done].
      destruct (parseNumber (group 2 m)) as [hi|]; [|done].
      injection Hm as <-. right. by exists lo, hi.
    + destruct (parseNumber (group 1 m)) as [v|]; [|done].
      injection Hm as <-. left. by exists v.
  - destruct (parseNumber (group 1 m)) as [v|]; [|done].
    simpl in Hm. rewrite_absent Hm. simpl in Hm.
    injection Hm as <-. by exists v.
  - destruct (truthy_capture 2 m); injection Hm as <-.
    + right. by eexists _, _.
    + left. by eexists.
Qed.

(** An instance: "30000 km" has no direction keyword and gives a maximal
    mileage. *)
Lemma C4_bare_number_defaults_witness :
  exists v, extractMileage "30000 km" = Ok (Some (mkRange None (Some v))).
Proof.
  destruct (proj2 C4_bare_number_defaults "30000 km") as (_ & Hmileage & _).
  destruct (Hmileage eq_refl (mkRange None (Some (Num 30000))) eq_refl)
    as [v Hv].
  exists v. by rewrite <- Hv.
Defined.

(** C5. For "under 40000" the three extractors all answer: price at most
    40000, mileage at most 40000 and year at least 4000. *)
Theorem C5_under_40000_sets_three_ranges :
  exists e,
    entities_of "under 40000" = Some e
    /\ priceRange e = Some (mkRange None (Some (Num 40000)))
    /\ mileage e = Some (mkRange None (Some (Num 40000)))
    /\ yearRange e = Some (mkRange (Some (Num 4000)) None).
Proof. eexists. by vm_compute. Qed.

(* ================================================================== *)
(** ** Merging entities into a filter state                            *)
(* ================================================================== *)

(** C6. Merging the entities [{makes: ["BMW"]}] twice into the empty filter
    state gives a [makes] array of length 2 whose two entries are "BMW";
    more generally the extracted list is appended each time. *)
Theorem C6_lists_accumulate_duplicates :
  (exists once twice,
      applyEntitiesToFilters (only_makes ["BMW"]) ∅ = Ok once
      /\ applyEntitiesToFilters (only_makes ["BMW"]) once = Ok twice
      /\ twice !! "makes" = Some (VArr ["BMW"; "BMW"])
      /\ length ["BMW"; "BMW"] = 2)
  /\ forall xs old f,
      f !! "makes" = Some (VArr old) ->
      exists f', applyEntitiesToFilters (only_makes xs) f = Ok f'
                 /\ f' !! "makes" = Some (VArr (old ++ xs)%list).
Proof.
  split.
  - eexists _, _. split; [vm_compute; reflexivity|].
    split; [vm_compute; reflexivity|]. by vm_compute.
  - intros xs old f Hold. eexists. split.
    + unfold applyEntitiesToFilters, only_makes; simpl.
      rewrite Hold. simpl. reflexivity.
    + by rewrite lookup_insert_eq.
Qed.

(** An instance: "BMW" appended to the makes [["Audi"]]. *)
Lemma C6_lists_accumulate_duplicates_witness :
  exists f', applyEntitiesToFilters (only_makes ["BMW"])
                                    {[ "makes" := VArr ["Audi"] ]} = Ok f'
             /\ f' !! "makes" = Some (VArr ["Audi"; "BMW"]).
Proof.
  exact (proj2 C6_lists_accumulate_duplicates ["BMW"] ["Audi"]
               {[ "makes" := VArr ["Audi"] ]} eq_refl).
Defined.

Section Writes.

Implicit Types (ws : list (string * value (list string))) (f : CarFilters).

Lemma write_all_app ws1 ws2 f :
  write_all (ws1 ++ ws2) f = write_all ws2 (write_all ws1 f).
Proof. unfold write_all. by rewrite fold_left_app. Qed.

(** What a field holds after the writes: the last value written to it,
    if any. *)
Lemma write_all_lookup key ws : forall f,
  write_all ws f !! key =
  fold_left (fun x '(key', v) => if decide (key' = key) then Some v else x)
            ws (f !! key).
Proof.
  induction ws as [|[key' v] ws IH]; intros f; simpl; [done|].
  rewrite IH. f_equal. rewrite lookup_insert. by destruct (decide _).
Qed.

Lemma last_write_cases key ws :
  let step := fun (x : option (value (list string))) '(key', v) =>
                if decide (key' = key) then Some v else x in
  (forall x, fold_left step ws x = x)
  \/ (exists v, forall x, fold_left step ws x = Some v).
Proof.
  intros step. induction ws as [|[key' v] ws IH]; simpl; [by left|].
  destruct IH as [Hid|[v' Hconst]].
  - destruct (decide (key' = key)) as [Heq|Hne].
    + right. exists v. intros x. by rewrite Hid.
    + left. intros x. by rewrite Hid.
  - right. exists v'. intros x. apply Hconst.
Qed.

Lemma write_all_idempotent ws f :
  write_all ws (write_all ws f) = write_all ws f.
Proof.
  apply map_eq. intros key. rewrite !write_all_lookup.
  destruct (last_write_cases key ws) as [Hid|[v Hconst]].
  - by rewrite !Hid.
  - by rewrite !Hconst.
Qed.

Lemma assign_bound_writes field bound f :
  assign_bound field bound f = write_all (bound_writes field bound) f.
Proof. by destruct bound. Qed.

Lemma assign_range_writes fieldMin fieldMax range f :
  assign_range fieldMin fieldMax range f
  = write_all (range_writes fieldMin fieldMax range) f.
Proof.
  destruct range as [r|]; [|done]. simpl.
  by rewrite write_all_app, !assign_bound_writes.
Qed.

Lemma assign_features_writes fs f :
  assign_features fs f
  = write_all (match fs with
               | Some entries =>
                   map (fun '(key, value) => (key, VBool value)) entries
               | None => []
               end) f.
Proof.
  destruct fs as [entries|]; [|done]. simpl. revert f.
  induction entries as [|[key value] entries IH]; intros f; simpl; [done|].
  apply IH.
Qed.

(** Without list-valued categories the merge is a sequence of writes. *)
Lemma applyEntitiesToFilters_scalar e f :
  no_lists e ->
  applyEntitiesToFilters e f = Ok (write_all (scalar_writes e) f).
Proof.
  intros (H1 & H2 & H3 & H4 & H5 & H6 & H7).
  unfold applyEntitiesToFilters, scalar_writes.
  rewrite H1, H2, H3, H4, H5, H6, H7. simpl.
  by rewrite !write_all_app, !assign_range_writes, assign_features_writes.
Qed.

End Writes.

(** C7. For entities without list-valued categories (numeric ranges and
    feature flags only) and every filter state, the merge returns, and
    merging the same entities into its result returns that result again. *)
Theorem C7_scalar_merge_idempotent (e : Entities) (f : CarFilters) :
  no_lists e ->
  exists f', applyEntitiesToFilters e f = Ok f'
             /\ applyEntitiesToFilters e f' = Ok f'.
Proof.
  intros He. exists (write_all (scalar_writes e) f).
  rewrite !applyEntitiesToFilters_scalar by done.
  by rewrite write_all_idempotent.
Qed.

(** An instance: flags and ranges merged into a state with a make and a
    price. *)
Lemma C7_scalar_merge_idempotent_witness :
  exists f', applyEntitiesToFilters scalar_example
               {[ "makes" := VArr ["BMW"]; "priceMax" := VNum (Num 1) ]} = Ok f'
             /\ applyEntitiesToFilters scalar_example f' = Ok f'.
Proof.
  apply (C7_scalar_merge_idempotent scalar_example). by repeat split.
Defined.

(* ================================================================== *)
(** ** Parsing always returns                                          *)
(* ================================================================== *)

Section Totality.

Lemma first_match_returns {A} patterns text (body : captures -> result A) :
  Forall (fun p => binds 1 p = true) patterns ->
  (forall m, is_Some (group 1 m) -> exists a, body m = Ok a) ->
  exists o, first_match patterns text body = Ok o.
Proof.
  intros Hbinds Hbody.
  induction Hbinds as [|p rest Hp _ IH]; simpl; [by eexists|].
  destruct (exec p text) as [m|] eqn:Hexec; [|done].
  destruct (Hbody m) as [a Ha]; [by eapply exec_binds|].
  rewrite Ha. by eexists.
Qed.

Lemma first_match_none {A} patterns text (body : captures -> result A) :
  forallb (no_match text) patterns = true ->
  first_match patterns text body = Ok None.
Proof.
  induction patterns as [|p rest IH]; simpl; [done|].
  unfold no_match at 1. intros [Hp Hrest]%andb_true_iff.
  destruct (exec p text); [done|]. by apply IH.
Qed.

Lemma truthy_capture_group i m :
  truthy_capture i m = true -> is_Some (group i m).
Proof. unfold truthy_capture. destruct (group i m); [by eexists|done]. Qed.

Lemma extractPriceRange_returns text :
  exists o, extractPriceRange text = Ok o.
Proof.
  apply first_match_returns; [by repeat constructor|].
  intros m [s1 H1]. rewrite H1. simpl.
  repeat (match goal with |- context [if ?c then _ else _] =>
                            destruct c eqn:? end; try by eexists).
  match goal with H : truthy_capture 2 m = true |- _ =>
                    apply truthy_capture_group in H as [s2 ->] end.
  by eexists.
Qed.

Lemma extractYearRange_returns text :
  exists o, extractYearRange text = Ok o.
Proof.
  apply first_match_returns; [by repeat constructor|].
  intros m _.
  repeat (match goal with |- context [if ?c then _ else _] =>
                            destruct c end; try by eexists).
Qed.

Lemma extractMileage_returns text :
  exists o, extractMileage text = Ok o.
Proof.
  apply first_match_returns; [by repeat constructor|].
  intros m [s1 H1]. rewrite H1. simpl.
  repeat (match goal with |- context [if ?c then _ else _] =>
                            destruct c end; try by eexists).
Qed.

(** [parseVoiceCommand] returns a command for every text. *)
Lemma parseVoiceCommand_returns text :
  exists command, parseVoiceCommand text = Ok command.
Proof.
  unfold parseVoiceCommand.
  destruct (extractPriceRange_returns (trim (toLowerCase text))) as [p ->].
  destruct (extractYearRange_returns (trim (toLowerCase text))) as [y ->].
  destruct (extractMileage_returns (trim (toLowerCase text))) as [d ->].
  by eexists.
Qed.

Lemma mentions_app text ks1 ks2 :
  mentions text (ks1 ++ ks2) = mentions text ks1 || mentions text ks2.
Proof. apply existsb_app. Qed.

Lemma extractKeywords_absent text table :
  mentions text (map fst table) = false -> extractKeywords text table = [].
Proof.
  intros Habsent. unfold extractKeywords.
  assert (H : fold_left
           (fun found '(keyword, value) =>
              if includes text keyword then (found ++ [value])%list else found)
           table [] = []); [|by rewrite H].
  induction table as [|[keyword value] table IH]; simpl; [done|].
  simpl in Habsent. apply orb_false_iff in Habsent as [-> Habsent]. auto.
Qed.

Lemma extractFeatures_absent text :
  mentions text (map fst KEYWORD_MAPPINGS.features) = false ->
  extractFeatures text = [].
Proof.
  intros Habsent. unfold extractFeatures.
  induction KEYWORD_MAPPINGS.features as [|[keyword feature] table IH];
    simpl; [done|].
  simpl in Habsent. apply orb_false_iff in Habsent as [-> Habsent]. auto.
Qed.

End Totality.

(** C9. [parseVoiceCommand] returns a command for every text, never an
    exception; when no keyword of the tables, no pattern and no intent
    keyword matches the normalized text, the entities are empty and the
    intent is "unknown". *)
Theorem C9_parse_never_throws (text : string) :
  exists command,
    parseVoiceCommand text = Ok command
    /\ (recognizes_nothing (trim (toLowerCase text)) = true ->
        entities command = no_entities /\ intent command = "unknown").
Proof.
  destruct (parseVoiceCommand_returns text) as [command Hcommand].
  exists command. split; [done|].
  intros Hnothing. revert Hcommand. unfold parseVoiceCommand.
  set (t := trim (toLowerCase text)) in *.
  unfold recognizes_nothing in Hnothing.
  apply andb_true_iff in Hnothing as [[Hkw Hpat]%andb_true_iff Hint].
  apply negb_true_iff in Hkw, Hint.
  unfold all_keywords in Hkw. rewrite !map_app, !mentions_app in Hkw.
  unfold all_patterns in Hpat. rewrite !forallb_app in Hpat.
  apply andb_true_iff in Hpat as [Hprice [Hyear Hmileage]%andb_true_iff].
  absent_keywords.
  rewrite !extractKeywords_absent, extractFeatures_absent by done.
  unfold extractPriceRange, extractYearRange, extractMileage.
  rewrite !first_match_none by done. simpl.
  intros [= <-]. simpl. split; [done|].
  unfold intent_keywords, mentions in Hint. simpl in Hint.
  absent_keywords. unfold determineIntent.
  repeat match goal with H : includes t _ = false |- _ => rewrite H; clear H end.
  done.
Qed.

(** An instance: nothing is recognized in "Hello there". *)
Lemma C9_parse_never_throws_witness :
  exists command,
    parseVoiceCommand "Hello there" = Ok command
    /\ entities command = no_entities /\ intent command = "unknown".
Proof.
  destruct (C9_parse_never_throws "Hello there") as (command & Hparse & H).
  exists command. split; [exact Hparse|]. apply H. reflexivity.
Defined.

(* ================================================================== *)
(** ** The confidence score                                            *)
(* ================================================================== *)

Section Confidence.

Lemma present_le_1 {A} (o : option A) : present o <= 1.
Proof. destruct o; simpl; lia. Qed.

Lemma keys_length_le e : keys_length e <= 11.
Proof.
  unfold keys_length.
  pose proof (present_le_1 (makes e)). pose proof (present_le_1 (vehicleTypes e)).
  pose proof (present_le_1 (conditions e)). pose proof (present_le_1 (fuelTypes e)).
  pose proof (present_le_1 (transmissions e)). pose proof (present_le_1 (driveTypes e)).
  pose proof (present_le_1 (features e)). pose proof (present_le_1 (colors e)).
  pose proof (present_le_1 (priceRange e)). pose proof (present_le_1 (yearRange e)).
  pose proof (present_le_1 (mileage e)). lia.
Qed.

(** The loop adds the bonus once if some keyword occurs, whatever the
    number of keywords that occur. *)
Lemma boost_once keywords text confidence :
  boost keywords text confidence =
  if mentions (toLowerCase text) keywords
  then (confidence + 0.2)%float else confidence.
Proof.
  induction keywords as [|keyword rest IH]; simpl; [done|].
  by destruct (includes (toLowerCase text) keyword).
Qed.

Lemma calculateConfidence_score e text :
  calculateConfidence e text = score (keys_length e) (boosted text).
Proof. unfold calculateConfidence, score, boosted. by rewrite boost_once. Qed.

Lemma score_bounds n b :
  n <= 11 ->
  PrimFloat.leb 0 (score n b) = true /\ PrimFloat.leb (score n b) 1 = true.
Proof.
  intros Hn.
  do 12 (destruct n as [|n]; [by destruct b; vm_compute|]). lia.
Qed.

(** The confidence of a command is that of its entities and of the
    normalized text. *)
Lemma parseVoiceCommand_confidence text command :
  parseVoiceCommand text = Ok command ->
  confidence command
  = calculateConfidence (entities command) (trim (toLowerCase text)).
Proof.
  unfold parseVoiceCommand.
  destruct (extractPriceRange _); [|done].
  destruct (extractYearRange _); [|done].
  destruct (extractMileage _); [|done].
  simpl. by intros [= <-].
Qed.

End Confidence.

(** C8. The confidence of every parsed utterance lies in [0, 1], and it is
    the score of [calculateConfidence] for the entities and the normalized
    text of the utterance.  Of two utterances with three entity categories
    each, the one that contains a confidence keyword scores strictly higher
    than the one that contains none: 1 against 0.8, as for "i need a used
    bmw suv" and "a used bmw suv".  Whatever the number of confidence
    keywords in the utterance, the bonus of 0.2 is added once. *)
Theorem C8_confidence_bounds_and_bonus :
  (forall text, exists command,
      parseVoiceCommand text = Ok command
      /\ PrimFloat.leb 0 (confidence command) = true
      /\ PrimFloat.leb (confidence command) 1 = true)
  /\ (forall with_phrase without_phrase scored plain,
         parseVoiceCommand with_phrase = Ok scored ->
         parseVoiceCommand without_phrase = Ok plain ->
         keys_length (entities scored) = 3 ->
         keys_length (entities plain) = 3 ->
         boosted (trim (toLowerCase with_phrase)) = true ->
         boosted (trim (toLowerCase without_phrase)) = false ->
         PrimFloat.ltb (confidence plain) (confidence scored) = true
         /\ confidence scored = 1%float
         /\ confidence plain = 0.8%float)
  /\ (forall text command,
         parseVoiceCommand text = Ok command ->
         confidence command
         = calculateConfidence (entities command) (trim (toLowerCase text))
         /\ confidence command
            = Math_min
                (if boosted (trim (toLowerCase text))
                 then 0.5 + float_of_nat (keys_length (entities command)) * 0.1
                      + 0.2
                 else 0.5 + float_of_nat (keys_length (entities command)) * 0.1)
                1)
  /\ (forall e with_phrase without_phrase,
         keys_length e = 3 ->
         boosted with_phrase = true -> boosted without_phrase = false ->
         PrimFloat.ltb (calculateConfidence e without_phrase)
                       (calculateConfidence e with_phrase) = true)
  /\ (forall e text,
         boosted text = true ->
         calculateConfidence e text
         = Math_min (0.5 + float_of_nat (keys_length e) * 0.1 + 0.2) 1)
  /\ calculateConfidence no_entities "find and search, i want and need"
     = 0.7%float
  /\ confidence_of "find and search, i want and need" = Some 0.7%float
  /\ confidence_of "i need a used bmw suv" = Some 1%float
  /\ confidence_of "a used bmw suv" = Some 0.8%float.
Proof.
  split; [|split; [|split; [|split; [|split; [|by vm_compute]]]]].
  - intros text. destruct (parseVoiceCommand_returns text) as [command H].
    exists command. split; [done|].
    rewrite (parseVoiceCommand_confidence _ _ H), calculateConfidence_score.
    apply score_bounds, keys_length_le.
  - intros t1 t2 c1 c2 H1 H2 He1 He2 Hb1 Hb2.
    rewrite (parseVoiceCommand_confidence _ _ H1).
    rewrite (parseVoiceCommand_confidence _ _ H2).
    rewrite !calculateConfidence_score, He1, He2, Hb1, Hb2.
    by vm_compute.
  - intros text command H. split; [by apply parseVoiceCommand_confidence|].
    rewrite (parseVoiceCommand_confidence _ _ H), calculateConfidence_score.
    unfold score. by destruct (boosted _).
  - intros e t1 t2 He H1 H2. rewrite !calculateConfidence_score, He, H1, H2.
    by vm_compute.
  - intros e text H. rewrite calculateConfidence_score, H. done.
Qed.

(** An instance: three categories, with and without "need". *)
Lemma C8_confidence_bounds_and_bonus_witness :
  exists scored plain,
    parseVoiceCommand "i need a used bmw suv" = Ok scored
    /\ parseVoiceCommand "a used bmw suv" = Ok plain
    /\ PrimFloat.ltb (confidence plain) (confidence scored) = true.
Proof.
  destruct (parseVoiceCommand "i need a used bmw suv") as [scored|] eqn:H1;
    [|vm_compute in H1; discriminate].
  destruct (parseVoiceCommand "a used bmw suv") as [plain|] eqn:H2;
    [|vm_compute in H2; discriminate].
  exists scored, plain. split; [reflexivity|]. split; [reflexivity|].
  apply (proj1 (proj2 C8_confidence_bounds_and_bonus)
               "i need a used bmw suv" "a used bmw suv" scored plain H1 H2).
  - vm_compute in H1. by injection H1 as <-.
  - vm_compute in H2. by injection H2 as <-.
  - reflexivity.
  - reflexivity.
Defined.

(* ================================================================== *)
(** ** The dialogue handlers                                           *)
(* ================================================================== *)

(** Every action of a list built from conses, appends and [speak] keeps
    the step. *)
Ltac keep_step :=
  repeat first [ apply Forall_nil_2
               | apply Forall_cons_2; [done|]
               | apply Forall_app_2; [done|]
               | done ].

Section Dialogue.

Variable toLocaleString : number -> string.

Lemma speak_keeps_step env text : Forall keeps_step (speak env text).
Proof. unfold speak. destruct (_ && _); by repeat constructor. Qed.

Lemma handlers_keep_step env ev :
  Forall keeps_step (actions_of toLocaleString env ev).
Proof.
  pose proof (speak_keeps_step env) as Hspeak.
  assert (Hprocess : forall command text,
             Forall keeps_step
               (fst (processVoiceCommand toLocaleString env command text))).
  { intros command text. unfold processVoiceCommand.
    repeat match goal with |- context [if ?c then _ else _] =>
                             destruct c end;
      unfold handleFilterSpecification, handleConfirmation, handleDenial,
        handleReset, handleUnknownCommand, addMessage;
      try destruct (applyEntitiesToFilters _ _); simpl; keep_step. }
  destruct ev as [|text|[updatedFilters|]]; simpl.
  - unfold startConversation, addMessage. simpl. keep_step.
  - unfold handleVoiceInput, addMessage.
    destruct (parseVoiceCommand text) as [command|err]; simpl;
      [|keep_step].
    specialize (Hprocess command text).
    destruct (processVoiceCommand _ _ _ _) as [actions [err|]];
      simpl in *; keep_step.
  - unfold addMessage. simpl. keep_step.
  - keep_step.
Qed.

Lemma after_keeps_step actions : forall cs,
  Forall keeps_step actions ->
  currentStep (after actions cs) = currentStep cs
  \/ currentStep (after actions cs) = "collecting_preferences".
Proof.
  unfold after.
  induction actions as [|a actions IH]; intros cs Hall; simpl; [by left|].
  inversion Hall as [|? ? Ha Hrest]; subst.
  destruct (IH (reduce cs a) Hrest) as [H|H]; [|by right].
  rewrite H. destruct a; simpl in *; auto.
Qed.

(** No sequence of events leads from the initial state to a step other
    than "greeting" and "collecting_preferences". *)
Lemma steps_reached trace : forall cs,
  currentStep cs = "greeting" \/ currentStep cs = "collecting_preferences" ->
  currentStep (run_events toLocaleString trace cs) = "greeting"
  \/ currentStep (run_events toLocaleString trace cs)
     = "collecting_preferences".
Proof.
  unfold run_events.
  induction trace as [|[env ev] trace IH]; intros cs Hcs; simpl; [done|].
  apply IH.
  destruct (after_keeps_step _ cs (handlers_keep_step env ev)) as [H|H];
    rewrite H; auto.
Qed.

End Dialogue.

(** C3, as stated, fails: in the state that follows the greeting, the
    utterance "yes" (intent "confirm") leaves [currentStep] at
    "collecting_preferences". *)
Lemma C3_confirm_leaves_step_unchanged :
  let env := mkClosure true false collecting in
  intent_of "yes" = Some "confirm"
  /\ currentStep (after (fst (handleVoiceInput (fun _ => EmptyString) env "yes"))
                        collecting)
     <> "done".
Proof. split; [by vm_compute|]. vm_compute. discriminate. Qed.

(** C3, amended.  On an utterance whose intent is "confirm" the controller
    adds and speaks an acknowledgement and sets a timer of 1500 ms whose
    function calls [onSearch], then [onClose]; it leaves the conversation
    state as it is.  No sequence of events brings [currentStep] to "done":
    the only values it takes are "greeting" and "collecting_preferences". *)
Theorem C3_confirm_triggers_search_only
        (toLocaleString : number -> string) (env : Closure)
        (text : string) (command : VoiceCommand) :
  parseVoiceCommand text = Ok command ->
  intent command = "confirm" ->
  handleVoiceInput toLocaleString env text
  = ((addMessage user text ++ addMessage assistant acknowledgement
      ++ speak env acknowledgement
      ++ [setTimeout runSearch 1500; setTranscript EmptyString])%list, None)
  /\ (forall cs,
         after (fst (handleVoiceInput toLocaleString env text)) cs = cs)
  /\ fire env runSearch
     = [onSearch; onClose;
        toast "Search Complete"
              "Found cars matching your voice search criteria!"]
  /\ (forall trace,
         currentStep (run_events toLocaleString trace initialState) <> "done")
  /\ (forall trace,
         currentStep (run_events toLocaleString trace initialState)
         = "greeting"
         \/ currentStep (run_events toLocaleString trace initialState)
            = "collecting_preferences").
Proof.
  intros Hparse Hintent.
  assert (Hvoice : handleVoiceInput toLocaleString env text
          = ((addMessage user text ++ addMessage assistant acknowledgement
              ++ speak env acknowledgement
              ++ [setTimeout runSearch 1500; setTranscript EmptyString])%list,
             None)).
  { unfold handleVoiceInput, processVoiceCommand. rewrite Hparse, Hintent.
    simpl. unfold handleConfirmation, acknowledgement. simpl.
    by rewrite <- !app_assoc. }
  split; [done|]. split; [|split; [done|split]].
  - intros cs. rewrite Hvoice. unfold after, speak. simpl.
    by destruct (_ && _).
  - intros trace H.
    destruct (steps_reached toLocaleString trace initialState) as [H'|H'];
      [by left| |]; rewrite H' in H; discriminate.
  - intros trace. apply steps_reached. by left.
Qed.

(** An instance: "yes" heard in the state that follows the greeting. *)
Lemma C3_confirm_triggers_search_only_witness :
  after (fst (handleVoiceInput (fun _ => EmptyString)
                               (mkClosure true false collecting) "yes"))
        collecting
  = collecting.
Proof.
  destruct (parseVoiceCommand "yes") as [command|] eqn:Hparse;
    [|vm_compute in Hparse; discriminate].
  refine (proj1 (proj2 (C3_confirm_triggers_search_only
                          (fun _ => EmptyString)
                          (mkClosure true false collecting)
                          "yes" command Hparse _)) collecting).
  vm_compute in Hparse. injection Hparse as <-. reflexivity.
Defined.

(* ================================================================== *)
(** ** The merge on the store                                          *)
(* ================================================================== *)

Ltac in_list_fields := apply list_elem_of_In; simpl; tauto.

Section StoreFacts.

Local Open Scope list_scope.

Implicit Types (h : Store.store) (fs : gmap string (value Store.ref)).

Lemma view_fields_stable h h' fs :
  keeps_arrays h h' -> Store.closed h fs ->
  Store.view_fields h' fs = Store.view_fields h fs.
Proof.
  intros Hkeep Hclosed. apply map_eq. intros field.
  unfold Store.view_fields. rewrite !lookup_omap.
  destruct (fs !! field) as [[n|b|s|a]|] eqn:Hfield; simpl; try done.
  destruct (Hclosed field a Hfield) as [items Ha].
  by rewrite Ha, (Hkeep _ _ Ha).
Qed.

Lemma closed_stable h h' fs :
  keeps_arrays h h' -> Store.closed h fs -> Store.closed h' fs.
Proof.
  intros Hkeep Hclosed field a Hfield.
  destruct (Hclosed field a Hfield) as [items Ha].
  exists items. by apply Hkeep.
Qed.

Lemma keeps_arrays_write h u fs c :
  h !! u = Some (Store.Object fs) -> keeps_arrays h (<[u := c]> h).
Proof.
  intros Hu a items Ha.
  rewrite list_lookup_insert_ne; [done|]. intros ->. congruence.
Qed.

Lemma keeps_arrays_alloc h c : keeps_arrays h (h ++ [c]).
Proof. intros a items Ha. by apply lookup_app_l_Some. Qed.

Lemma closed_insert h fs field v :
  Store.closed h fs ->
  (forall a, v = VArr a -> exists items, h !! a = Some (Store.Array items)) ->
  Store.closed h (<[field := v]> fs).
Proof.
  intros Hclosed Hv field' a.
  destruct (decide (field = field')) as [->|Hne].
  - rewrite lookup_insert_eq. intros [= ->]. by apply Hv.
  - rewrite lookup_insert_ne by done. apply Hclosed.
Qed.

Lemma view_fields_insert h fs field v pv :
  Store.view_value h v = Some pv ->
  Store.view_fields h (<[field := v]> fs)
  = <[field := pv]> (Store.view_fields h fs).
Proof.
  intros Hv. apply map_eq. intros field'. unfold Store.view_fields.
  rewrite lookup_omap.
  destruct (decide (field = field')) as [->|Hne].
  - by rewrite !lookup_insert_eq.
  - by rewrite !lookup_insert_ne, lookup_omap.
Qed.

Lemma view_fields_lookup h fs field :
  Store.view_fields h fs !! field = fs !! field ≫= Store.view_value h.
Proof. apply lookup_omap. Qed.

Lemma simulates_ret {A} u (x : A) : simulates u [] (Store.ret x) x Ok.
Proof.
  intros h fs Hu Hclosed. simpl. split; [done|].
  exists fs. by repeat split.
Qed.

Lemma simulates_seq {A B} u W1 W2 (c1 : Store.M A) (c2 : Store.M B) x1 x2 p1 p2 :
  simulates u W1 c1 x1 p1 -> simulates u W2 c2 x2 p2 ->
  simulates u (W1 ++ W2) (Store.then_ c1 (fun _ => c2)) x2
            (fun f => f' ← p1 f; p2 f').
Proof.
  intros H1 H2 h fs Hu Hclosed. unfold Store.then_.
  specialize (H1 h fs Hu Hclosed).
  destruct (c1 h) as [[a h1]|err]; [|by rewrite H1].
  destruct H1 as (_ & fs1 & Hu1 & Hclosed1 & Hlen1 & Hframe1 & Hfields1 & ->).
  simpl. specialize (H2 h1 fs1 Hu1 Hclosed1).
  destruct (c2 h1) as [[b h2]|err]; [|done].
  destruct H2 as (-> & fs2 & Hu2 & Hclosed2 & Hlen2 & Hframe2 & Hfields2 & ->).
  split; [done|]. exists fs2. repeat split; [done|done|lia| |].
  - intros l Hl Hlt. rewrite Hframe2 by (done || lia). by apply Hframe1.
  - intros field [Hf1 Hf2]%not_elem_of_app.
    by rewrite Hfields2, Hfields1.
Qed.

(** A write of a number or a boolean. *)
Lemma simulates_set_field u field v pv :
  (forall h, Store.view_value h v = Some pv) ->
  (forall a, v <> VArr a) ->
  simulates u [field] (Store.set_field u field v) tt
            (fun f => Ok (<[field := pv]> f)).
Proof.
  intros Hv Hscalar h fs Hu Hclosed. unfold Store.set_field. rewrite Hu.
  split; [done|]. exists (<[field := v]> fs).
  assert (Hlt : u < length h) by by eapply lookup_lt_Some.
  pose proof (keeps_arrays_write h u fs
                (Store.Object (<[field := v]> fs)) Hu) as Hkeep.
  repeat split.
  - by apply list_lookup_insert_eq.
  - apply closed_insert; [by eapply closed_stable|].
    intros a ->. by destruct (Hscalar a).
  - by rewrite length_insert.
  - intros l Hl _. by apply list_lookup_insert_ne.
  - intros field' Hfield'%not_elem_of_cons. rewrite lookup_insert_ne; [done|].
    intros ->. by destruct Hfield'.
  - f_equal. rewrite (view_fields_insert _ _ _ _ pv) by done.
    by rewrite (view_fields_stable h _ fs Hkeep Hclosed).
Qed.

(** The last two steps of an append: a new array, and its reference
    written to the field. *)
Lemma append_writes h u fs field items :
  h !! u = Some (Store.Object fs) -> Store.closed h fs ->
  let a := length h in
  let fs' := <[field := VArr a]> fs in
  let h' := <[u := Store.Object fs']> (h ++ [Store.Array items]) in
  h' !! u = Some (Store.Object fs')
  /\ Store.closed h' fs'
  /\ length h <= length h'
  /\ (forall l, l <> u -> l < length h -> h' !! l = h !! l)
  /\ (forall field', field' ∉ [field] -> fs' !! field' = fs !! field')
  /\ Store.view_fields h' fs' = <[field := VArr items]> (Store.view_fields h fs).
Proof.
  intros Hu Hclosed a fs' h'.
  assert (Hlt : u < length h) by by eapply lookup_lt_Some.
  assert (Hu1 : (h ++ [Store.Array items]) !! u = Some (Store.Object fs))
    by by apply lookup_app_l_Some.
  assert (Ha : h' !! a = Some (Store.Array items)).
  { unfold h'. rewrite list_lookup_insert_ne by (unfold a; lia).
    unfold a. by rewrite lookup_app_r, Nat.sub_diag by lia. }
  assert (Hkeep : keeps_arrays h h').
  { intros a0 items0 Ha0. unfold h'.
    rewrite list_lookup_insert_ne by (intros ->; congruence).
    by apply lookup_app_l_Some. }
  repeat split.
  - unfold h'. apply list_lookup_insert_eq. rewrite length_app. lia.
  - apply closed_insert; [by eapply closed_stable|].
    intros ? [= <-]. by exists items.
  - unfold h'. rewrite length_insert, length_app. lia.
  - intros l Hl Hlen. unfold h'.
    rewrite list_lookup_insert_ne by done. by apply lookup_app_l.
  - intros field' Hfield'%not_elem_of_cons. unfold fs'.
    rewrite lookup_insert_ne; [done|]. intros ->. by destruct Hfield'.
  - unfold fs'. rewrite (view_fields_insert _ _ _ _ (VArr items)).
    + by rewrite (view_fields_stable h h' fs Hkeep Hclosed).
    + simpl. by rewrite Ha.
Qed.

Lemma simulates_append_list u field extracted :
  simulates u (Store.written_list field extracted)
            (Store.append_list u field extracted) tt
            (append_list field extracted).
Proof.
  destruct extracted as [xs|]; [|apply simulates_ret].
  intros h fs Hu Hclosed. simpl.
  unfold mbind, Store.M_bind, Store.then_, Store.get_field. rewrite Hu.
  rewrite view_fields_lookup.
  assert (Hdone : forall old,
    match Store.then_ (Store.alloc (Store.Array (old ++ xs)))
            (fun a => Store.set_field u field (VArr a)) h with
    | Ok (a, h') =>
        a = tt
        /\ exists fs',
            h' !! u = Some (Store.Object fs')
            /\ Store.closed h' fs'
            /\ length h <= length h'
            /\ (forall l, l <> u -> l < length h -> h' !! l = h !! l)
            /\ (forall field', field' ∉ [field] -> fs' !! field' = fs !! field')
            /\ Ok (<[field := VArr (old ++ xs)]> (Store.view_fields h fs))
               = Ok (Store.view_fields h' fs')
    | Throw err =>
        Ok (<[field := VArr (old ++ xs)]> (Store.view_fields h fs))
        = Throw err
    end).
  { intros old. unfold Store.then_, Store.alloc, Store.set_field.
    rewrite (lookup_app_l_Some _ _ _ _ Hu).
    destruct (append_writes h u fs field (old ++ xs) Hu Hclosed)
      as (H1 & H2 & H3 & H4 & H5 & H6).
    split; [done|]. exists (<[field := VArr (length h)]> fs).
    repeat split; try done. by rewrite H6. }
  destruct (fs !! field) as [[n|b|s|a]|] eqn:Hfield; simpl.
  - destruct (truthy_number n); simpl; [done|apply (Hdone [])].
  - destruct b; simpl; [done|apply (Hdone [])].
  - apply (Hdone (chars s)).
  - destruct (Hclosed field a Hfield) as [items Ha].
    unfold Store.read_array. rewrite Ha. simpl. apply (Hdone items).
  - apply (Hdone []).
Qed.

Lemma simulates_assign_entries u entries :
  simulates u (map fst entries) (Store.assign_entries u entries) tt
            (fun f => Ok (assign_features (Some entries) f)).
Proof.
  induction entries as [|[key value] entries IH]; [apply simulates_ret|].
  intros h fs Hu Hclosed.
  pose proof (simulates_seq u [key] (map fst entries) _ _ tt tt _ _
                (simulates_set_field u key (VBool value) (VBool value)
                   (fun _ => eq_refl) ltac:(done)) IH h fs Hu Hclosed) as H.
  exact H.
Qed.

Lemma simulates_assign_features u (flags : option (list (string * bool))) :
  simulates u (match flags with
               | Some entries => map fst entries
               | None => []
               end)
            (Store.assign_features u flags) tt
            (fun f => Ok (assign_features flags f)).
Proof.
  destruct flags as [entries|]; [apply simulates_assign_entries|].
  apply simulates_ret.
Qed.

Lemma simulates_assign_bound u field bound :
  simulates u (Store.written_list field bound)
            (Store.assign_bound u field bound) tt
            (fun f => Ok (assign_bound field bound f)).
Proof.
  destruct bound as [n|]; [|apply simulates_ret].
  by apply simulates_set_field.
Qed.

Lemma simulates_assign_range u fieldMin fieldMax range :
  simulates u (Store.written_range fieldMin fieldMax range)
            (Store.assign_range u fieldMin fieldMax range) tt
            (fun f => Ok (assign_range fieldMin fieldMax range f)).
Proof.
  destruct range as [r|]; [|apply simulates_ret].
  intros h fs Hu Hclosed.
  exact (simulates_seq u _ _ _ _ tt tt _ _
           (simulates_assign_bound u fieldMin (min r))
           (simulates_assign_bound u fieldMax (max r)) h fs Hu Hclosed).
Qed.

(** The merge on the store, for a filter object [o] whose arrays are in
    the store: it allocates its result at the end of the store, changes no
    cell that was there, assigns only the fields of [Store.written], and
    computes on the contents what [Nlp.applyEntitiesToFilters] computes. *)
Lemma Store_refines e h o fs :
  h !! o = Some (Store.Object fs) -> Store.closed h fs ->
  match Store.applyEntitiesToFilters e o h with
  | Ok (u, h') =>
      u = length h
      /\ exists fs',
          h' !! u = Some (Store.Object fs')
          /\ Store.closed h' fs'
          /\ (forall l, l < length h -> h' !! l = h !! l)
          /\ (forall field, field ∉ Store.written e ->
                            fs' !! field = fs !! field)
          /\ applyEntitiesToFilters e (Store.view_fields h fs)
             = Ok (Store.view_fields h' fs')
  | Throw err =>
      applyEntitiesToFilters e (Store.view_fields h fs) = Throw err
  end.
Proof.
  intros Ho Hclosed.
  set (u := length h). set (h1 := h ++ [Store.Object fs]).
  assert (Hu1 : h1 !! u = Some (Store.Object fs)).
  { unfold h1, u. by rewrite lookup_app_r, Nat.sub_diag by lia. }
  pose proof (keeps_arrays_alloc h (Store.Object fs)) as Hkeep.
  assert (Hclosed1 : Store.closed h1 fs) by by eapply closed_stable.
  pose proof
    (simulates_seq u _ _ _ _ tt _ _ _
       (simulates_append_list u "makes" (makes e))
    (simulates_seq u _ _ _ _ tt _ _ _
       (simulates_append_list u "vehicleTypes" (vehicleTypes e))
    (simulates_seq u _ _ _ _ tt _ _ _
       (simulates_append_list u "conditions" (conditions e))
    (simulates_seq u _ _ _ _ tt _ _ _
       (simulates_append_list u "fuelTypes" (fuelTypes e))
    (simulates_seq u _ _ _ _ tt _ _ _
       (simulates_append_list u "transmissions" (transmissions e))
    (simulates_seq u _ _ _ _ tt _ _ _
       (simulates_append_list u "driveTypes" (driveTypes e))
    (simulates_seq u _ _ _ _ tt _ _ _
       (simulates_append_list u "exteriorColors" (colors e))
    (simulates_seq u _ _ _ _ tt _ _ _
       (simulates_assign_features u (features e))
    (simulates_seq u _ _ _ _ tt _ _ _
       (simulates_assign_range u "priceMin" "priceMax" (priceRange e))
    (simulates_seq u _ _ _ _ tt _ _ _
       (simulates_assign_range u "yearMin" "yearMax" (yearRange e))
    (simulates_seq u _ _ _ _ tt _ _ _
       (simulates_assign_range u "mileageMin" "mileageMax" (mileage e))
       (simulates_ret u u)))))))))))
       h1 fs Hu1 Hclosed1) as Hsim.
  rewrite (view_fields_stable h h1 fs Hkeep Hclosed) in Hsim.
  unfold Store.applyEntitiesToFilters, mbind, Store.M_bind.
  unfold Store.then_ at 1, Store.copy_object, Store.alloc. rewrite Ho.
  fold u h1.
  match type of Hsim with
  | match ?c with _ => _ end =>
      match goal with
      | |- match ?c' with _ => _ end => change c' with c
      end; destruct c as [[u' h']|err]
  end.
  - destruct Hsim as (-> & fs' & Hu' & Hclosed' & Hlen & Hframe & Hfields & Hp).
    split; [done|]. exists fs'. repeat split; [done|done| | |exact Hp].
    + intros l Hl. rewrite Hframe; [|unfold u; lia|].
      * by apply lookup_app_l.
      * unfold h1. rewrite length_app. lia.
    + intros field Hfield. apply Hfields.
      by rewrite !app_nil_r.
  - exact Hsim.
Qed.

(** On filter objects whose list fields hold arrays the merge returns. *)
Lemma append_list_returns field extracted (f : CarFilters) :
  (f !! field = None \/ exists items, f !! field = Some (VArr items)) ->
  exists f', append_list field extracted f = Ok f'
             /\ forall field', field' <> field -> f' !! field' = f !! field'.
Proof.
  intros Hfield. destruct extracted as [xs|]; simpl; [|by exists f].
  destruct Hfield as [->|[items ->]]; simpl; eexists; split; try done;
    intros field' Hne; by rewrite lookup_insert_ne.
Qed.

Lemma applyEntitiesToFilters_returns e h fs :
  Store.closed h fs -> lists_are_arrays fs ->
  exists f', applyEntitiesToFilters e (Store.view_fields h fs) = Ok f'.
Proof.
  intros Hclosed Harrays.
  assert (Hview : forall field,
             field ∈ list_fields ->
             Store.view_fields h fs !! field = None
             \/ exists items,
                 Store.view_fields h fs !! field = Some (VArr items)).
  { intros field Hin. rewrite view_fields_lookup.
    destruct (fs !! field) as [v|] eqn:Hfield; [|by left].
    destruct (Harrays field v Hin Hfield) as [a ->].
    destruct (Hclosed field a Hfield) as [items Ha].
    right. exists items. simpl. by rewrite Ha. }
  unfold applyEntitiesToFilters.
  destruct (append_list_returns "makes" (makes e) _
              (Hview "makes" ltac:(in_list_fields))) as (f1 & -> & H1).
  simpl.
  destruct (append_list_returns "vehicleTypes" (vehicleTypes e) f1)
    as (f2 & -> & H2);
    [rewrite H1 by done; apply Hview; in_list_fields|].
  simpl.
  destruct (append_list_returns "conditions" (conditions e) f2)
    as (f3 & -> & H3);
    [rewrite H2, H1 by done; apply Hview; in_list_fields|].
  simpl.
  destruct (append_list_returns "fuelTypes" (fuelTypes e) f3)
    as (f4 & -> & H4);
    [rewrite H3, H2, H1 by done; apply Hview; in_list_fields|].
  simpl.
  destruct (append_list_returns "transmissions" (transmissions e) f4)
    as (f5 & -> & H5);
    [rewrite H4, H3, H2, H1 by done; apply Hview; in_list_fields|].
  simpl.
  destruct (append_list_returns "driveTypes" (driveTypes e) f5)
    as (f6 & -> & H6);
    [rewrite H5, H4, H3, H2, H1 by done; apply Hview; in_list_fields|].
  simpl.
  destruct (append_list_returns "exteriorColors" (colors e) f6)
    as (f7 & -> & H7);
    [rewrite H6, H5, H4, H3, H2, H1 by done; apply Hview; in_list_fields|].
  simpl. by eexists.
Qed.

End StoreFacts.

(** C10. Run on a store in which [currentFilters] is a filter object whose
    list fields hold arrays, [applyEntitiesToFilters] returns a reference
    to an object that was not in the store before; every cell that was in
    the store, the argument and its arrays among them, is left as it was;
    every field that the entities do not assign (the other bound of a range
    among them) holds in the result what it held in the argument. *)
Theorem C10_merge_does_not_touch_its_argument
        (e : Entities) (h : Store.store) (currentFilters : Store.ref)
        (fields : gmap string (value Store.ref)) :
  h !! currentFilters = Some (Store.Object fields) ->
  Store.closed h fields ->
  lists_are_arrays fields ->
  exists updatedFilters h' fields',
    Store.applyEntitiesToFilters e currentFilters h = Ok (updatedFilters, h')
    /\ h !! updatedFilters = None
    /\ h' !! updatedFilters = Some (Store.Object fields')
    /\ (forall l c, h !! l = Some c -> h' !! l = Some c)
    /\ (forall field, field ∉ Store.written e ->
                      fields' !! field = fields !! field)
    /\ applyEntitiesToFilters e (Store.view_fields h fields)
       = Ok (Store.view_fields h' fields').
Proof.
  intros Ho Hclosed Harrays.
  pose proof (Store_refines e h currentFilters fields Ho Hclosed) as Href.
  destruct (applyEntitiesToFilters_returns e h fields Hclosed Harrays)
    as [f' Hf'].
  destruct (Store.applyEntitiesToFilters e currentFilters h)
    as [[u h']|err]; [|congruence].
  destruct Href as (-> & fields' & Hu & _ & Hframe & Hfields & Hp).
  exists (length h), h', fields'. repeat split; try done.
  - by apply lookup_ge_None.
  - intros l c Hl. rewrite Hframe; [done|]. by eapply lookup_lt_Some.
Qed.

Lemma example_fields_lookup field v :
  example_fields !! field = Some v ->
  (field = "makes" /\ v = VArr 0)
  \/ (field = "priceMin" /\ v = VNum (Num 1000)).
Proof.
  unfold example_fields. intros H.
  apply lookup_insert_Some in H as [[<- <-]|[_ H]]; [by left|].
  apply lookup_singleton_Some in H as [<- <-]. by right.
Qed.

(** An instance: a make and a maximal price merged into the example
    store; the old array and the old object are as before, and [priceMin]
    is carried over. *)
Lemma C10_merge_does_not_touch_its_argument_witness :
  exists updatedFilters h' fields',
    Store.applyEntitiesToFilters example_entities 1 example_store
    = Ok (updatedFilters, h')
    /\ h' !! updatedFilters = Some (Store.Object fields')
    /\ h' !! 0 = Some (Store.Array ["Audi"])
    /\ h' !! 1 = Some (Store.Object example_fields)
    /\ fields' !! "priceMin" = Some (VNum (Num 1000)).
Proof.
  destruct (C10_merge_does_not_touch_its_argument
              example_entities example_store 1 example_fields)
    as (u & h' & fields' & Hrun & _ & Hu & Hframe & Hfields & _).
  - reflexivity.
  - intros field a [[_ [= ->]]|[_ [=]]]%example_fields_lookup.
    by exists ["Audi"].
  - intros field v Hin [[_ ->]|[-> _]]%example_fields_lookup.
    + by exists 0.
    + exfalso. apply list_elem_of_In in Hin. simpl in Hin.
      repeat destruct Hin as [Hin|Hin]; try discriminate Hin. exact Hin.
  - exists u, h', fields'. split; [exact Hrun|]. split; [exact Hu|].
    split; [by apply Hframe|]. split; [by apply Hframe|].
    rewrite Hfields; [reflexivity|].
    intros Hin%list_elem_of_In. simpl in Hin.
    repeat destruct Hin as [Hin|Hin]; try discriminate Hin. exact Hin.
Defined.

(* ================================================================== *)
(** ** The keyword extractors                                          *)
(* ================================================================== *)

Section Keywords.

Local Open Scope list_scope.

Lemma unique_fold (found : list string) : forall seen,
  NoDup seen ->
  let result :=
    fold_left (fun seen v => if bool_decide (v ∈ seen) then seen else seen ++ [v])
              found seen in
  NoDup result /\ forall v, v ∈ result <-> v ∈ seen \/ v ∈ found.
Proof.
  induction found as [|x found IH]; intros seen Hseen; simpl.
  - split; [done|]. intros v. rewrite elem_of_nil. tauto.
  - destruct (bool_decide_reflect (x ∈ seen)) as [Hin|Hnotin].
    + destruct (IH seen Hseen) as [Hnodup Hiff]. split; [done|].
      intros v. rewrite Hiff, elem_of_cons.
      split; [tauto|]. intros [?|[->|?]]; tauto.
    + assert (Hseen' : NoDup (seen ++ [x])).
      { apply NoDup_app. split; [done|]. split; [|apply NoDup_singleton].
        intros y Hy ->%list_elem_of_singleton. done. }
      destruct (IH _ Hseen') as [Hnodup Hiff]. split; [done|].
      intros v. rewrite Hiff, elem_of_app, list_elem_of_singleton, elem_of_cons.
      tauto.
Qed.

Lemma found_fold text (table : list (string * string)) : forall acc v,
  v ∈ fold_left (fun found '(keyword, value) =>
                   if includes text keyword then found ++ [value] else found)
                table acc
  <-> v ∈ acc
      \/ exists keyword, (keyword, v) ∈ table /\ includes text keyword = true.
Proof.
  induction table as [|[keyword value] table IH]; intros acc v; simpl.
  - split; [tauto|]. intros [?|(k & []%elem_of_nil & _)]. done.
  - rewrite IH. destruct (includes text keyword) eqn:Hinc.
    + rewrite elem_of_app, list_elem_of_singleton. split.
      * intros [[?| ->]|(k & Hk & Hi)]; [tauto| |].
        -- right. exists keyword. split; [left|done].
        -- right. exists k. split; [by right|done].
      * intros [?|(k & Hk & Hi)]; [tauto|].
        apply elem_of_cons in Hk as [[= -> ->]|Hk]; [tauto|].
        right. by exists k.
    + split.
      * intros [?|(k & Hk & Hi)]; [tauto|].
        right. exists k. split; [by right|done].
      * intros [?|(k & Hk & Hi)]; [tauto|].
        apply elem_of_cons in Hk as [[= -> ->]|Hk]; [congruence|].
        right. by exists k.
Qed.

Lemma obj_set_keys {V} (obj : list (string * V)) key (value : V) key' :
  key' ∈ map fst (obj_set obj key value)
  <-> key' = key \/ key' ∈ map fst obj.
Proof.
  induction obj as [|[k v] obj IH]; simpl.
  - rewrite list_elem_of_singleton, elem_of_nil. tauto.
  - destruct (String.eqb_spec k key) as [->|Hne]; simpl.
    + rewrite !elem_of_cons. tauto.
    + rewrite !elem_of_cons, IH. tauto.
Qed.

Lemma obj_set_NoDup {V} (obj : list (string * V)) key (value : V) :
  NoDup (map fst obj) -> NoDup (map fst (obj_set obj key value)).
Proof.
  induction obj as [|[k v] obj IH]; simpl; intros Hnodup.
  - apply NoDup_singleton.
  - destruct (String.eqb_spec k key) as [->|Hne]; simpl; [done|].
    apply NoDup_cons in Hnodup as [Hk Hnodup].
    apply NoDup_cons. split; [|by apply IH].
    rewrite obj_set_keys. intros [->|?]; done.
Qed.

Lemma obj_set_values {V} (obj : list (string * V)) key (value : V) key' v :
  (key', v) ∈ obj_set obj key value ->
  (key' = key /\ v = value) \/ (key', v) ∈ obj.
Proof.
  induction obj as [|[k w] obj IH]; simpl.
  - intros [= -> ->]%list_elem_of_singleton. by left.
  - destruct (String.eqb_spec k key) as [->|Hne].
    + intros [[= -> ->]|H]%elem_of_cons; [by left|]. right. by right.
    + intros [[= -> ->]|H]%elem_of_cons; [right; by left|].
      destruct (IH H) as [?|?]; [by left|]. right. by right.
Qed.

End Keywords.

(** X1. The values [extractKeywords] returns are pairwise distinct, and a
    value is returned exactly when the text contains one of the keywords
    that the table maps to it. *)
Theorem extractKeywords_spec (text : string) (table : list (string * string)) :
  NoDup (extractKeywords text table)
  /\ forall v,
      v ∈ extractKeywords text table
      <-> exists keyword,
            (keyword, v) ∈ table /\ includes text keyword = true.
Proof.
  unfold extractKeywords, unique.
  match goal with
  | |- context [fold_left ?f table []] => set (found := fold_left f table [])
  end.
  destruct (unique_fold found [] NoDup_nil_2) as [Hnodup Hiff].
  split; [exact Hnodup|]. intros v. rewrite Hiff.
  unfold found. rewrite found_fold, !elem_of_nil. tauto.
Qed.

Lemma extractFeatures_entries (text : string) :
  NoDup (map fst (extractFeatures text))
  /\ (forall feature flag, (feature, flag) ∈ extractFeatures text -> flag = true)
  /\ forall feature,
      feature ∈ map fst (extractFeatures text)
      <-> exists keyword,
            (keyword, feature) ∈ KEYWORD_MAPPINGS.features
            /\ includes text keyword = true.
Proof.
  unfold extractFeatures.
  assert (H : forall table acc,
    NoDup (map fst acc) ->
    (forall feature flag, (feature, flag) ∈ acc -> flag = true) ->
    let result :=
      fold_left (fun features '(keyword, feature) =>
                   if includes text keyword then obj_set features feature true
                   else features) table acc in
    NoDup (map fst result)
    /\ (forall feature flag, (feature, flag) ∈ result -> flag = true)
    /\ forall feature,
        feature ∈ map fst result
        <-> feature ∈ map fst acc
            \/ exists keyword,
                (keyword, feature) ∈ table /\ includes text keyword = true).
  { induction table as [|[keyword feature] table IH]; intros acc Hnodup Htrue;
      simpl.
    - split; [done|]. split; [done|]. intros f. split; [tauto|].
      intros [?|(k & []%elem_of_nil & _)]. done.
    - destruct (includes text keyword) eqn:Hinc.
      + destruct (IH (obj_set acc feature true)) as (H1 & H2 & H3).
        { by apply obj_set_NoDup. }
        { intros f b [[_ ->]|?]%obj_set_values; [done|]. by eapply Htrue. }
        split; [done|]. split; [done|].
        intros f. rewrite H3, obj_set_keys. split.
        * intros [[->|?]|(k & Hk & Hi)]; [|tauto|].
          -- right. exists keyword. split; [left|done].
          -- right. exists k. split; [by right|done].
        * intros [?|(k & Hk & Hi)]; [tauto|].
          apply elem_of_cons in Hk as [[= -> ->]|Hk]; [tauto|].
          right. by exists k.
      + destruct (IH acc Hnodup Htrue) as (H1 & H2 & H3).
        split; [done|]. split; [done|].
        intros f. rewrite H3. split.
        * intros [?|(k & Hk & Hi)]; [tauto|].
          right. exists k. split; [by right|done].
        * intros [?|(k & Hk & Hi)]; [tauto|].
          apply elem_of_cons in Hk as [[= -> ->]|Hk]; [congruence|].
          right. by exists k. }
  destruct (H KEYWORD_MAPPINGS.features [] NoDup_nil_2) as (H1 & H2 & H3).
  { intros f b []%elem_of_nil. }
  split; [done|]. split; [done|].
  intros f. rewrite H3. simpl. rewrite elem_of_nil. tauto.
Qed.

(** X2. The object [extractFeatures] returns has pairwise distinct keys,
    every flag in it is [true], and a feature is a key of it exactly when
    the text contains one of the keywords of that feature. *)
Theorem extractFeatures_spec (text : string) :
  NoDup (map fst (extractFeatures text))
  /\ (forall feature flag, (feature, flag) ∈ extractFeatures text -> flag = true)
  /\ forall feature,
      feature ∈ map fst (extractFeatures text)
      <-> exists keyword,
            (keyword, feature) ∈ KEYWORD_MAPPINGS.features
            /\ includes text keyword = true.
Proof. exact (extractFeatures_entries text). Qed.

(* ================================================================== *)
(** ** Normalization of the utterance                                  *)
(* ================================================================== *)

Section Normalization.

Lemma lower_char_idempotent c : lower_char (lower_char c) = lower_char c.
Proof. by destruct c as [[] [] [] [] [] [] [] []]. Qed.

Lemma is_space_lower_char c : is_space (lower_char c) = is_space c.
Proof. by destruct c as [[] [] [] [] [] [] [] []]. Qed.

Lemma toLowerCase_idempotent s : toLowerCase (toLowerCase s) = toLowerCase s.
Proof.
  induction s as [|c s IH]; simpl; [done|].
  by rewrite lower_char_idempotent, IH.
Qed.

Lemma toLowerCase_trimStart s :
  toLowerCase (trimStart s) = trimStart (toLowerCase s).
Proof.
  induction s as [|c s IH]; simpl; [done|].
  rewrite is_space_lower_char. by destruct (is_space c).
Qed.

Lemma toLowerCase_trimEnd s :
  toLowerCase (trimEnd s) = trimEnd (toLowerCase s).
Proof.
  induction s as [|c s IH]; simpl; [done|].
  rewrite <- IH, is_space_lower_char.
  destruct (trimEnd s) as [|c' s']; simpl; [|done].
  by destruct (is_space c).
Qed.

Lemma toLowerCase_trim s : toLowerCase (trim s) = trim (toLowerCase s).
Proof. unfold trim. by rewrite toLowerCase_trimEnd, toLowerCase_trimStart. Qed.

Lemma trimEnd_idempotent s : trimEnd (trimEnd s) = trimEnd s.
Proof.
  induction s as [|c s IH]; simpl; [done|].
  destruct (trimEnd s) as [|c' s'] eqn:Hs.
  - destruct (is_space c) eqn:Hc; simpl; [done|]. by rewrite Hc.
  - simpl in *. by rewrite IH.
Qed.

(** What [trimStart] returns does not start with white space. *)
Lemma trimStart_head s :
  match trimStart s with
  | String c _ => is_space c = false
  | EmptyString => True
  end.
Proof.
  induction s as [|c s IH]; simpl; [done|].
  destruct (is_space c) eqn:Hc; [done|]. simpl. done.
Qed.

(** [trimEnd] keeps the first character of a text that does not start with
    white space. *)
Lemma trimEnd_head c s :
  is_space c = false -> exists s', trimEnd (String c s) = String c s'.
Proof.
  intros Hc. simpl. destruct (trimEnd s); [|by eexists].
  rewrite Hc. by eexists.
Qed.

Lemma trim_idempotent s : trim (trim s) = trim s.
Proof.
  unfold trim. pose proof (trimStart_head s) as Hhead.
  destruct (trimStart s) as [|c s0]; [done|].
  destruct (trimEnd_head c s0 Hhead) as [s' Hs']. rewrite Hs'.
  simpl trimStart. rewrite Hhead. rewrite <- Hs'. apply trimEnd_idempotent.
Qed.

End Normalization.

(** X3. The parser does not depend on the case of letters or on white
    space around the utterance: the utterance in lower case, the trimmed
    utterance and the normalized utterance all parse to the same command. *)
Theorem parseVoiceCommand_normalized (text : string) :
  parseVoiceCommand (toLowerCase text) = parseVoiceCommand text
  /\ parseVoiceCommand (trim text) = parseVoiceCommand text
  /\ parseVoiceCommand (trim (toLowerCase text)) = parseVoiceCommand text.
Proof.
  unfold parseVoiceCommand. repeat split.
  - by rewrite toLowerCase_idempotent.
  - by rewrite toLowerCase_trim, trim_idempotent.
  - by rewrite toLowerCase_trim, toLowerCase_idempotent, trim_idempotent.
Qed.

(* ================================================================== *)
(** ** What the matcher captures                                       *)
(* ================================================================== *)

Section Captures.

Lemma append_cons c (w s : string) :
  (String c w ++ s)%string = String c (w ++ s).
Proof. reflexivity. Qed.

Lemma append_nil (s : string) : (EmptyString ++ s)%string = s.
Proof. reflexivity. Qed.

Lemma length_append (w s : string) :
  String.length (w ++ s) = String.length w + String.length s.
Proof.
  induction w as [|c w IH]; [done|]. rewrite append_cons. simpl. by rewrite IH.
Qed.

Lemma append_assoc (w1 w2 s : string) : ((w1 ++ w2) ++ s = w1 ++ (w2 ++ s))%string.
Proof.
  induction w1 as [|c w1 IH]; [done|]. by rewrite !append_cons, IH.
Qed.

Lemma consumed_append (w s : string) : consumed (w ++ s) s = w.
Proof.
  unfold consumed. rewrite length_append.
  replace (String.length w + String.length s - String.length s)
    with (String.length w) by lia.
  induction w as [|c w IH]; [by destruct s|].
  rewrite append_cons. simpl. by rewrite IH.
Qed.

Lemma captured_by_mono r r' capture :
  (forall g, g ∈ groups r -> g ∈ groups r') ->
  captured_by r capture -> captured_by r' capture.
Proof. intros Hsub (r1 & Hin & Hm). exists r1. split; [by apply Hsub|done]. Qed.

(** A successful run consumed a prefix that the pattern matches, and added
    captures of its groups. *)
Lemma run_sound r :
  forall A s m (k : string -> captures -> option A) a,
    run r s m k = Some a ->
    exists w s' new,
      s = (w ++ s')%string
      /\ matches r w
      /\ k s' (new ++ m)%list = Some a
      /\ Forall (captured_by r) new.
Proof.
  induction r as [| c | | | r1 IH1 r2 IH2 | r1 IH1 r2 IH2 | r1 IH1 | j r1 IH1];
    intros A s m k a Hrun; simpl in Hrun.
  - exists EmptyString, s, []. repeat split; [constructor|done|constructor].
  - destruct s as [|b rest]; [done|]. destruct (chr_eqb c b) eqn:Hc; [|done].
    exists (String b EmptyString), rest, [].
    repeat split; [by constructor|done|constructor].
  - destruct s as [|b rest]; [done|]. destruct (is_digit b) eqn:Hc; [|done].
    exists (String b EmptyString), rest, [].
    repeat split; [by constructor|done|constructor].
  - destruct s as [|b rest]; [done|]. destruct (is_space b) eqn:Hc; [|done].
    exists (String b EmptyString), rest, [].
    repeat split; [by constructor|done|constructor].
  - apply IH1 in Hrun as (w1 & s1 & new1 & -> & Hm1 & Hrun & Hc1).
    apply IH2 in Hrun as (w2 & s2 & new2 & -> & Hm2 & Hk & Hc2).
    exists (w1 ++ w2)%string, s2, (new2 ++ new1)%list.
    split; [by rewrite append_assoc|]. split; [by constructor|].
    split; [by rewrite <- app_assoc|].
    apply Forall_app. split.
    + eapply Forall_impl; [exact Hc2|]. intros capture.
      apply captured_by_mono. intros g Hg. simpl. apply elem_of_app. by right.
    + eapply Forall_impl; [exact Hc1|]. intros capture.
      apply captured_by_mono. intros g Hg. simpl. apply elem_of_app. by left.
  - destruct (run r1 s m k) as [a1|] eqn:Hr1.
    + injection Hrun as ->.
      apply IH1 in Hr1 as (w & s' & new & -> & Hm & Hk & Hc).
      exists w, s', new. split; [done|]. split; [by apply matches_Alt_l|].
      split; [done|]. eapply Forall_impl; [exact Hc|]. intros capture.
      apply captured_by_mono. intros g Hg. simpl. apply elem_of_app. by left.
    + apply IH2 in Hrun as (w & s' & new & -> & Hm & Hk & Hc).
      exists w, s', new. split; [done|]. split; [by apply matches_Alt_r|].
      split; [done|]. eapply Forall_impl; [exact Hc|]. intros capture.
      apply captured_by_mono. intros g Hg. simpl. apply elem_of_app. by right.
  - remember (String.length s) as fuel eqn:Hfuel. clear Hfuel.
    revert s m Hrun.
    induction fuel as [|fuel IHfuel]; intros s m Hrun; simpl in Hrun.
    + exists EmptyString, s, []. repeat split; [constructor|done|constructor].
    + match type of Hrun with
      | match ?e with _ => _ end = _ => destruct e as [a1|] eqn:Hr1
      end.
      * injection Hrun as ->.
        apply IH1 in Hr1 as (w1 & s1 & new1 & -> & Hm1 & Hk & Hc1).
        destruct (Nat.ltb _ _); [|done].
        apply IHfuel in Hk as (w2 & s2 & new2 & -> & Hm2 & Hk & Hc2).
        exists (w1 ++ w2)%string, s2, (new2 ++ new1)%list.
        split; [by rewrite append_assoc|]. split; [by constructor|].
        split; [by rewrite <- app_assoc|].
        apply Forall_app. split; [done|]. done.
      * exists EmptyString, s, [].
        repeat split; [constructor|done|constructor].
  - apply IH1 in Hrun as (w & s' & new & -> & Hm & Hk & Hc).
    rewrite consumed_append in Hk.
    exists w, s', ((j, w) :: new). split; [done|].
    split; [by constructor|]. split; [done|].
    constructor.
    + exists r1. split; [simpl; left|done].
    + eapply Forall_impl; [exact Hc|]. intros capture.
      apply captured_by_mono. intros g Hg. simpl. by right.
Qed.

(** Every capture of a match is text matched by the group of its number. *)
Lemma exec_sound r text m :
  exec r text = Some m -> Forall (captured_by r) m.
Proof.
  induction text as [|c rest IH]; simpl.
  - destruct (run r _ _ _) as [m'|] eqn:Hrun; [|done].
    intros [= ->].
    apply run_sound in Hrun as (w & s' & new & _ & _ & [= <-] & Hc).
    by rewrite app_nil_r.
  - destruct (run r _ _ _) as [m'|] eqn:Hrun; [|done].
    intros [= ->].
    apply run_sound in Hrun as (w & s' & new & _ & _ & [= <-] & Hc).
    by rewrite app_nil_r.
Qed.

Lemma group_elem i m v : group i m = Some v -> (i, v) ∈ m.
Proof.
  unfold group. induction m as [|[j w] m IH]; simpl; [done|].
  destruct (Nat.eqb_spec j i) as [->|Hne]; simpl.
  - intros [= ->]. left.
  - intros H. right. by apply IH.
Qed.

(** What [match[i]] holds, for a pattern all of whose groups are [r1]. *)
Lemma capture_matches r r1 text m i v :
  Forall (fun g => snd g = r1) (groups r) ->
  exec r text = Some m -> group i m = Some v -> matches r1 v.
Proof.
  intros Hgroups Hexec Hgroup.
  apply exec_sound in Hexec. apply group_elem in Hgroup.
  rewrite Forall_forall in Hexec. apply Hexec in Hgroup as (r' & Hin & Hm).
  rewrite Forall_forall in Hgroups. apply Hgroups in Hin. simpl in *.
  by subst.
Qed.

Lemma every_append P (w1 w2 : string) :
  every P (w1 ++ w2) = every P w1 && every P w2.
Proof.
  induction w1 as [|c w1 IH]; [done|].
  rewrite append_cons. simpl. by rewrite IH, andb_assoc.
Qed.

Lemma matches_all_chars P r w :
  matches r w -> all_chars P r -> every P w = true.
Proof.
  induction 1 as [|c b Hb|b Hb|b Hb|r1 r2 w1 w2 _ IH1 _ IH2|r1 r2 w _ IH
                  |r1 r2 w _ IH| |r w1 w2 _ IH1 _ IH2|i r w _ IH];
    simpl; intros Hall; try done.
  - by rewrite (Hall b Hb).
  - by rewrite (Hall b Hb).
  - by rewrite (Hall b Hb).
  - destruct Hall. by rewrite every_append, IH1, IH2.
  - destruct Hall. auto.
  - destruct Hall. auto.
  - rewrite every_append, IH1, IH2; done.
  - auto.
Qed.

Lemma matches_leading_digit r w :
  matches r w -> leading_digit r = true ->
  exists c w', w = String c w' /\ is_digit c = true.
Proof.
  induction 1 as [|c b Hb|b Hb|b Hb|r1 r2 w1 w2 _ IH1 _ IH2|r1 r2 w _ IH
                  |r1 r2 w _ IH| |r w1 w2 _ IH1 _ IH2|i r w _ IH];
    simpl; intros Hlead; try done.
  - by exists b, EmptyString.
  - destruct (IH1 Hlead) as (c & w' & -> & Hc).
    by exists c, (w' ++ w2)%string.
  - apply andb_true_iff in Hlead as [H1 H2]. auto.
  - apply andb_true_iff in Hlead as [H1 H2]. auto.
  - auto.
Qed.

End Captures.

(* ================================================================== *)
(** ** The numbers of the extracted ranges                             *)
(* ================================================================== *)

(** Decides a statement about one character by cases on the character. *)
Ltac by_cases_on_char b :=
  destruct b as [[] [] [] [] [] [] [] []]; try discriminate; try reflexivity.

Section Numbers.

Lemma digits_Some radix s : forall a, exists n, digits radix s (Some a) = Some n.
Proof.
  induction s as [|c s IH]; intros a; simpl; [by eexists|].
  destruct (digit_value radix c); [apply IH|by eexists].
Qed.

Lemma digit_value_digit c :
  is_digit c = true -> exists d, digit_value 10 c = Some d /\ (d <= 9)%N.
Proof.
  intros H. by_cases_on_char c; eexists;
    (split; [vm_compute; reflexivity|by vm_compute]).
Qed.

(** A number below [2^53] is held as it is. *)
Lemma round_binary64_small (n : N) :
  (n < 2 ^ 53)%N -> round_binary64 n = Some n.
Proof.
  intros Hn. unfold round_binary64.
  destruct (N.leb_spec (N.size n) 53) as [_|Hsize]; [done|]. exfalso.
  pose proof (N.size_le n) as Hle. rewrite N.succ_double_spec in Hle.
  assert (Hpow : (2 ^ 54 <= 2 ^ N.size n)%N)
    by (apply N.pow_le_mono_r; lia).
  change (2 ^ 53)%N with 9007199254740992%N in Hn.
  change (2 ^ 54)%N with 18014398509481984%N in Hpow. lia.
Qed.

Lemma to_number_nonnegative (n : N) : nonnegative (to_number false n).
Proof.
  unfold to_number. destruct (round_binary64 n) as [rounded|].
  - left. by exists rounded.
  - by right.
Qed.

(** [parseInt] of a text that starts with a digit and does not go on with
    [x] reads a decimal number. *)
Lemma parseInt_decimal c rest :
  is_digit c = true ->
  match rest with
  | String c2 _ => lower_char c2 <> "x"%char
  | EmptyString => True
  end ->
  parseInt (String c rest) =
  match digits 10 (String c rest) None with
  | None => NaN
  | Some n => to_number false n
  end.
Proof.
  intros Hc Hrest. by_cases_on_char c.
  destruct rest as [|c2 rest]; [reflexivity|].
  by_cases_on_char c2; exfalso; by apply Hrest.
Qed.

Lemma digit_numeral_char b : is_digit b = true -> numeral_char b = true.
Proof. intros H. unfold numeral_char. by rewrite H. Qed.

Lemma numeral_char_not_x b : numeral_char b = true -> lower_char b <> "x"%char.
Proof. intros H. by_cases_on_char b. Qed.

Lemma remove_commas_numeral w :
  every numeral_char w = true ->
  match remove_commas w with
  | String c2 _ => lower_char c2 <> "x"%char
  | EmptyString => True
  end.
Proof.
  induction w as [|c w IH]; simpl; [done|].
  intros [Hc Hw]%andb_true_iff.
  destruct (Ascii.eqb c ","); [by apply IH|]. by apply numeral_char_not_x.
Qed.

(** A text that starts with a digit and consists of digits, commas and
    points is read by [parseNumber] as a natural number, or as [Infinity]
    when it is too long. *)
Lemma parseNumber_numeral w :
  (exists c w', w = String c w' /\ is_digit c = true) ->
  every numeral_char w = true ->
  nonnegative (parseInt (remove_commas w)).
Proof.
  intros (c & w' & -> & Hc) Hall. simpl in Hall.
  apply andb_true_iff in Hall as [_ Hall]. simpl.
  assert (Ascii.eqb c "," = false) as -> by by_cases_on_char c.
  rewrite parseInt_decimal; [|done|by apply remove_commas_numeral].
  simpl. destruct (digit_value_digit c Hc) as (d & -> & _).
  destruct (digits_Some 10 (remove_commas w') (0 * 10 + d)%N) as [n ->].
  apply to_number_nonnegative.
Qed.

Lemma all_chars_amount : all_chars numeral_char amount.
Proof.
  simpl. repeat split; intros b Hb;
    try (by apply digit_numeral_char); by_cases_on_char b.
Qed.

Lemma all_chars_grouped_digits : all_chars numeral_char grouped_digits.
Proof.
  simpl. repeat split; intros b Hb;
    try (by apply digit_numeral_char); by_cases_on_char b.
Qed.

Lemma matches_amount w :
  matches amount w -> nonnegative (parseInt (remove_commas w)).
Proof.
  intros Hm. apply parseNumber_numeral.
  - by apply (matches_leading_digit amount).
  - apply (matches_all_chars _ amount); [done|apply all_chars_amount].
Qed.

Lemma matches_grouped_digits w :
  matches grouped_digits w -> nonnegative (parseInt (remove_commas w)).
Proof.
  intros Hm. apply parseNumber_numeral.
  - by apply (matches_leading_digit grouped_digits).
  - apply (matches_all_chars _ grouped_digits); [done|].
    apply all_chars_grouped_digits.
Qed.

Lemma matches_one_digit w :
  matches Digit w -> exists c, w = String c EmptyString /\ is_digit c = true.
Proof. inversion 1; subst. by eexists. Qed.

Lemma matches_year w :
  matches (Times 4 Digit) w -> four_digits (parseInt w).
Proof.
  simpl. intros H.
  inversion H as [| | | |? ? w1 x1 H1 H1'| | | | |]; subst; clear H.
  inversion H1' as [| | | |? ? w2 x2 H2 H2'| | | | |]; subst; clear H1'.
  inversion H2' as [| | | |? ? w3 x3 H3 H3'| | | | |]; subst; clear H2'.
  inversion H3' as [| | | |? ? w4 x4 H4 H4'| | | | |]; subst; clear H3'.
  inversion H4'; subst; clear H4'.
  apply matches_one_digit in H1 as (a & -> & Ha).
  apply matches_one_digit in H2 as (b & -> & Hb).
  apply matches_one_digit in H3 as (c & -> & Hc).
  apply matches_one_digit in H4 as (d & -> & Hd).
  rewrite !append_cons, !append_nil.
  rewrite parseInt_decimal;
    [|done|by apply numeral_char_not_x, digit_numeral_char].
  simpl.
  destruct (digit_value_digit a Ha) as (na & -> & ?).
  destruct (digit_value_digit b Hb) as (nb & -> & ?).
  destruct (digit_value_digit c Hc) as (nc & -> & ?).
  destruct (digit_value_digit d Hd) as (nd & -> & ?).
  simpl. unfold to_number.
  rewrite round_binary64_small
    by (change (2 ^ 53)%N with 9007199254740992%N; lia).
  eexists. split; [reflexivity|]. lia.
Qed.

Lemma first_match_pattern {A} patterns text (body : captures -> result A) a :
  first_match patterns text body = Ok (Some a) ->
  exists pattern m,
    pattern ∈ patterns /\ exec pattern text = Some m /\ body m = Ok a.
Proof.
  induction patterns as [|p rest IH]; simpl; [done|].
  destruct (exec p text) as [m|] eqn:Hexec.
  - destruct (body m) as [a'|err] eqn:Hbody; [|done].
    intros [= ->]. exists p, m. split; [left|done].
  - intros H. destruct (IH H) as (p' & m & Hin & Hexec' & Hbody).
    exists p', m. split; [by right|done].
Qed.

Lemma parseNumber_capture r0 pattern text m i v :
  Forall (fun g => snd g = r0) (groups pattern) ->
  (forall w, matches r0 w -> nonnegative (parseInt (remove_commas w))) ->
  exec pattern text = Some m ->
  parseNumber (group i m) = Ok v -> nonnegative v.
Proof.
  intros Hgroups Hr0 Hexec Hparse.
  destruct (group i m) as [w|] eqn:Hgroup; [|done].
  injection Hparse as <-. apply Hr0.
  by eapply capture_matches.
Qed.

Lemma parseInt_capture pattern text m i :
  Forall (fun g => snd g = Times 4 Digit) (groups pattern) ->
  exec pattern text = Some m ->
  is_Some (group i m) -> four_digits (parseInt_of (group i m)).
Proof.
  intros Hgroups Hexec [w Hgroup]. rewrite Hgroup. simpl.
  apply matches_year. by eapply capture_matches.
Qed.

Lemma groups_of_price_patterns :
  Forall (fun p => Forall (fun g => snd g = amount) (groups p)) PRICE_PATTERNS.
Proof. by repeat constructor. Qed.

Lemma groups_of_mileage_patterns :
  Forall (fun p => Forall (fun g => snd g = grouped_digits) (groups p))
         MILEAGE_PATTERNS.
Proof. by repeat constructor. Qed.

Lemma groups_of_year_patterns :
  Forall (fun p => Forall (fun g => snd g = Times 4 Digit) (groups p)
                   /\ binds 1 p = true)
         YEAR_PATTERNS.
Proof. by repeat constructor. Qed.

Lemma extractPriceRange_nonnegative text r :
  extractPriceRange text = Ok (Some r) -> bounds nonnegative r.
Proof.
  intros H. apply first_match_pattern in H as (p & m & Hp & Hexec & Hm).
  pose proof (proj1 (Forall_forall _ _) groups_of_price_patterns p Hp) as Hg.
  pose proof (fun i v => parseNumber_capture amount p text m i v Hg
                           matches_amount Hexec) as Hnum.
  revert Hm.
  repeat match goal with
         | |- context [if ?c then _ else _] => destruct c
         end;
    destruct (parseNumber (group 1 m)) as [v1|] eqn:Hv1; try done; simpl;
    try (destruct (parseNumber (group 2 m)) as [v2|] eqn:Hv2; try done; simpl);
    intros [= <-]; split; simpl; intros v [= <-]; eauto.
Qed.

Lemma extractMileage_nonnegative text r :
  extractMileage text = Ok (Some r) -> bounds nonnegative r.
Proof.
  intros H. apply first_match_pattern in H as (p & m & Hp & Hexec & Hm).
  pose proof (proj1 (Forall_forall _ _) groups_of_mileage_patterns p Hp) as Hg.
  pose proof (fun i v => parseNumber_capture grouped_digits p text m i v Hg
                           matches_grouped_digits Hexec) as Hnum.
  revert Hm.
  destruct (parseNumber (group 1 m)) as [v1|] eqn:Hv1; try done; simpl.
  repeat match goal with
         | |- context [if ?c then _ else _] => destruct c
         end;
    intros [= <-]; split; simpl; intros v [= <-]; eauto.
Qed.

Lemma extractYearRange_four_digits text r :
  extractYearRange text = Ok (Some r) -> bounds four_digits r.
Proof.
  intros H. apply first_match_pattern in H as (p & m & Hp & Hexec & Hm).
  destruct (proj1 (Forall_forall _ _) groups_of_year_patterns p Hp)
    as [Hg Hbinds].
  pose proof (parseInt_capture p text m 1 Hg Hexec
                (exec_binds 1 p text m Hbinds Hexec)) as Hy1.
  pose proof (fun H => parseInt_capture p text m 2 Hg Hexec
                         (truthy_capture_group 2 m H)) as Hy2.
  revert Hm.
  repeat match goal with
         | |- context [if ?c then _ else _] => destruct c eqn:?
         end;
    intros [= <-]; split; simpl; intros v [= <-]; eauto.
Qed.

End Numbers.


(** X5. A range that an extractor returns has at least one bound, and a
    mileage range has exactly one: the mileage extractor never returns an
    interval. *)
Theorem extracted_range_has_a_bound (text : string) :
  (forall r, extractPriceRange text = Ok (Some r) ->
             is_Some (min r) \/ is_Some (max r))
  /\ (forall r, extractYearRange text = Ok (Some r) ->
                is_Some (min r) \/ is_Some (max r))
  /\ (forall r, extractMileage text = Ok (Some r) ->
                (is_Some (min r) /\ max r = None)
                \/ (min r = None /\ is_Some (max r))).
Proof.
  repeat split; intros r Hr; apply first_match_body in Hr as [m Hm];
    revert Hm.
  - repeat match goal with
           | |- context [if ?c then _ else _] => destruct c
           end;
      destruct (parseNumber (group 1 m)); try done; simpl;
      try (destruct (parseNumber (group 2 m)); try done; simpl);
      intros [= <-]; simpl; eauto.
  - repeat match goal with
           | |- context [if ?c then _ else _] => destruct c
           end;
      intros [= <-]; simpl; eauto.
  - destruct (parseNumber (group 1 m)); try done; simpl.
    repeat match goal with
           | |- context [if ?c then _ else _] => destruct c
           end;
      intros [= <-]; simpl; eauto.
Qed.

(** X6. The direction of a bound is decided by the whole utterance, not by
    the words next to the number: when "under", "less than" or "below"
    occurs anywhere in the text, the price range and the mileage range, if
    any, are both upper bounds only. *)
Theorem upper_keyword_decides_price_and_mileage (text : string) :
  mentions text ["under"; "less than"; "below"] = true ->
  (forall r, extractPriceRange text = Ok (Some r) ->
             min r = None /\ is_Some (max r))
  /\ (forall r, extractMileage text = Ok (Some r) ->
                min r = None /\ is_Some (max r)).
Proof.
  unfold mentions. simpl. rewrite orb_false_r, orb_assoc. intros Hupper.
  split; intros r Hr; apply first_match_body in Hr as [m Hm]; revert Hm.
  - replace (includes text "under" || includes text "less than"
             || includes text "below" || includes text "max")
      with true by (by rewrite Hupper).
    destruct (parseNumber (group 1 m)); try done; simpl.
    intros [= <-]. simpl. eauto.
  - rewrite Hupper.
    destruct (parseNumber (group 1 m)); try done; simpl.
    intros [= <-]. simpl. eauto.
Qed.

(** An instance: "mileage under 50000 km, price 20000" has one "under"; the
    price is an upper bound as well. *)
Lemma upper_keyword_decides_price_and_mileage_witness :
  exists r, extractPriceRange "mileage under 50000 km, price 20000" = Ok (Some r)
            /\ min r = None /\ is_Some (max r).
Proof.
  eexists. split; [vm_compute; reflexivity|].
  apply (proj1 (upper_keyword_decides_price_and_mileage
                  "mileage under 50000 km, price 20000" eq_refl)).
  vm_compute. reflexivity.
Defined.

(* ================================================================== *)
(** ** The confidence score, continued                                 *)
(* ================================================================== *)

Lemma score_floor_and_ceiling n b :
  n <= 11 ->
  PrimFloat.leb 0.5 (score n b) = true
  /\ (5 <= n -> score n b = 1%float)
  /\ (3 <= n -> b = true -> score n b = 1%float).
Proof.
  intros Hn.
  do 12 (destruct n as [|n];
         [destruct b; (split; [by vm_compute|]);
          (split; intros; first [lia|discriminate|by vm_compute])|]).
  lia.
Qed.

Lemma score_monotone n1 n2 b :
  n1 <= n2 -> n2 <= 11 -> PrimFloat.leb (score n1 b) (score n2 b) = true.
Proof.
  intros H12 H2.
  do 12 (destruct n1 as [|n1];
         [do 12 (destruct n2 as [|n2];
                 [first [lia|by destruct b; vm_compute]|]); lia|]).
  lia.
Qed.

(** X7. The confidence is never below 0.5; it is exactly 1 as soon as five
    categories are recognized, or three together with a confidence keyword;
    and recognizing more categories in the same text never lowers it. *)
Theorem confidence_floor_ceiling_monotone (text : string) :
  (forall e, PrimFloat.leb 0.5 (calculateConfidence e text) = true)
  /\ (forall e, 5 <= keys_length e -> calculateConfidence e text = 1%float)
  /\ (forall e, 3 <= keys_length e -> boosted text = true ->
                calculateConfidence e text = 1%float)
  /\ (forall e1 e2, keys_length e1 <= keys_length e2 ->
                    PrimFloat.leb (calculateConfidence e1 text)
                                  (calculateConfidence e2 text) = true).
Proof.
  assert (H : forall e,
             PrimFloat.leb 0.5 (calculateConfidence e text) = true
             /\ (5 <= keys_length e -> calculateConfidence e text = 1%float)
             /\ (3 <= keys_length e -> boosted text = true ->
                 calculateConfidence e text = 1%float)).
  { intros e. rewrite calculateConfidence_score.
    apply score_floor_and_ceiling, keys_length_le. }
  repeat split; try (intros e; by apply H).
  intros e1 e2 Hle. rewrite !calculateConfidence_score.
  by apply score_monotone; [|apply keys_length_le].
Qed.

(* ================================================================== *)
(** ** The merge in closed form                                        *)
(* ================================================================== *)

Section ClosedForm.

Local Open Scope list_scope.

Implicit Types (ws : list (string * value (list string))) (f : CarFilters).

Lemma write_all_cons key v ws f :
  write_all ((key, v) :: ws) f = write_all ws (<[key := v]> f).
Proof. reflexivity. Qed.

Lemma write_all_lookup_notin key ws : forall f,
  key ∉ map fst ws -> write_all ws f !! key = f !! key.
Proof.
  induction ws as [|[key' v] ws IH]; intros f Hnotin; [done|].
  simpl in Hnotin. apply not_elem_of_cons in Hnotin as [Hne Hnotin].
  rewrite write_all_cons, IH by done. by rewrite lookup_insert_ne.
Qed.

Lemma write_all_is_Some key ws : forall f,
  is_Some (f !! key) -> is_Some (write_all ws f !! key).
Proof.
  induction ws as [|[key' v] ws IH]; intros f Hsome; [done|].
  rewrite write_all_cons. apply IH.
  destruct (decide (key' = key)) as [->|Hne].
  - rewrite lookup_insert_eq. by eexists.
  - by rewrite lookup_insert_ne.
Qed.

(** The last write to a field is what the field holds. *)
Lemma write_all_last key v ws ws' f :
  key ∉ map fst ws' ->
  write_all (ws ++ (key, v) :: ws') f !! key = Some v.
Proof.
  intros Hnotin. rewrite write_all_app, write_all_cons.
  rewrite write_all_lookup_notin by done. apply lookup_insert_eq.
Qed.

(** Every field is the old one or one of the values written. *)
Lemma write_all_elem key ws : forall f v,
  write_all ws f !! key = Some v -> f !! key = Some v \/ (key, v) ∈ ws.
Proof.
  induction ws as [|[key' v'] ws IH]; intros f v Hv; [by left|].
  rewrite write_all_cons in Hv. apply IH in Hv as [Hv|Hv]; [|right; by right].
  destruct (decide (key' = key)) as [->|Hne].
  - rewrite lookup_insert_eq in Hv. injection Hv as ->. right. left.
  - rewrite lookup_insert_ne in Hv by done. by left.
Qed.

Lemma append_list_closed field extracted f :
  append_list field extracted f =
  if blocked f (field, extracted) then Throw "TypeError"
  else Ok (write_all (list_writes_of f [(field, extracted)]) f).
Proof.
  unfold blocked, list_writes_of. simpl.
  destruct extracted as [xs|]; simpl; [|done].
  destruct (f !! field) as [[n|b|s|items]|]; simpl; try done.
  - by destruct (truthy_number n).
  - by destruct b.
Qed.

Lemma blocked_agree f f' category :
  f' !! fst category = f !! fst category ->
  blocked f' category = blocked f category.
Proof. unfold blocked. by intros ->. Qed.

Lemma list_writes_of_cons f field x categories :
  list_writes_of f ((field, x) :: categories) =
  match x with
  | Some xs => (field, VArr (spread_of (f !! field) ++ xs))
               :: list_writes_of f categories
  | None => list_writes_of f categories
  end.
Proof. unfold list_writes_of. simpl. by destruct x. Qed.

Lemma list_writes_of_agree f f' categories :
  (forall category, category ∈ categories ->
                    f' !! fst category = f !! fst category) ->
  list_writes_of f' categories = list_writes_of f categories.
Proof.
  induction categories as [|[field x] categories IH]; intros Hagree; [done|].
  rewrite !list_writes_of_cons.
  pose proof (Hagree (field, x) ltac:(left)) as Hfield. simpl in Hfield.
  rewrite Hfield, IH; [done|]. intros c Hc. apply Hagree. by right.
Qed.

Lemma existsb_agree {A} (p q : A -> bool) (l : list A) :
  (forall x, x ∈ l -> p x = q x) -> existsb p l = existsb q l.
Proof.
  induction l as [|x l IH]; intros H; simpl; [done|].
  rewrite (H x) by left. rewrite IH; [done|]. intros y Hy. apply H. by right.
Qed.

Lemma list_writes_of_keys f categories key :
  key ∈ map fst (list_writes_of f categories) -> key ∈ map fst categories.
Proof.
  induction categories as [|[field x] categories IH]; [done|].
  rewrite list_writes_of_cons. destruct x as [xs|]; simpl.
  - intros [->|H]%elem_of_cons; [left|]. right. by apply IH.
  - intros H. right. by apply IH.
Qed.

Lemma append_all_closed categories : forall f,
  NoDup (map fst categories) ->
  append_all categories f =
  if existsb (blocked f) categories then Throw "TypeError"
  else Ok (write_all (list_writes_of f categories) f).
Proof.
  induction categories as [|[field x] categories IH]; intros f Hnodup; [done|].
  simpl in Hnodup. apply NoDup_cons in Hnodup as [Hfield Hnodup].
  simpl append_all. rewrite append_list_closed. simpl existsb.
  destruct (blocked f (field, x)) eqn:Hblocked; [done|].
  simpl. rewrite IH by done.
  set (f1 := write_all (list_writes_of f [(field, x)]) f).
  assert (Hagree : forall category,
             category ∈ categories -> f1 !! fst category = f !! fst category).
  { intros category Hin. unfold f1. apply write_all_lookup_notin.
    intros Hk%list_writes_of_keys. simpl in Hk.
    apply list_elem_of_singleton in Hk. apply Hfield. rewrite <- Hk.
    by apply list_elem_of_fmap_2. }
  rewrite (existsb_agree (blocked f1) (blocked f)); [|
    intros c Hc; by apply blocked_agree, Hagree].
  destruct (existsb (blocked f) categories); [done|].
  rewrite (list_writes_of_agree f f1) by done.
  unfold f1. rewrite <- write_all_app. f_equal. f_equal.
  by destruct x.
Qed.

Lemma applyEntitiesToFilters_append_all e f :
  applyEntitiesToFilters e f =
  f' ← append_all (list_categories e) f;
  Ok (write_all (scalar_writes e) f').
Proof.
  unfold applyEntitiesToFilters, list_categories, scalar_writes. simpl.
  destruct (append_list "makes" _ _) as [f1|]; simpl; [|done].
  destruct (append_list "vehicleTypes" _ _) as [f2|]; simpl; [|done].
  destruct (append_list "conditions" _ _) as [f3|]; simpl; [|done].
  destruct (append_list "fuelTypes" _ _) as [f4|]; simpl; [|done].
  destruct (append_list "transmissions" _ _) as [f5|]; simpl; [|done].
  destruct (append_list "driveTypes" _ _) as [f6|]; simpl; [|done].
  destruct (append_list "exteriorColors" _ _) as [f7|]; simpl; [|done].
  by rewrite !write_all_app, !assign_range_writes, assign_features_writes.
Qed.

(** The merge: an exception when a spread is blocked, else the argument
    after the writes of the list fields and of the scalar fields. *)
Lemma applyEntitiesToFilters_closed e f :
  applyEntitiesToFilters e f =
  if throws e f then Throw "TypeError"
  else Ok (write_all (list_writes e f ++ scalar_writes e) f).
Proof.
  rewrite applyEntitiesToFilters_append_all, append_all_closed.
  - unfold throws. destruct (existsb _ _); [done|]. simpl.
    by rewrite write_all_app.
  - simpl. apply (bool_decide_unpack _). by vm_compute.
Qed.

End ClosedForm.

(** X8. The merge throws exactly when some list category of the entities
    is present and the field it is appended to holds [true] or a number
    other than [0] and [NaN]; the exception is then a TypeError.  In every
    other case it returns a filter state. *)
Theorem merge_throws_on_blocked_spread (e : Entities) (f : CarFilters) :
  (throws e f = true -> applyEntitiesToFilters e f = Throw "TypeError")
  /\ (throws e f = false -> exists f', applyEntitiesToFilters e f = Ok f').
Proof.
  rewrite applyEntitiesToFilters_closed.
  split; intros ->; [done|by eexists].
Qed.

(** An instance: a flag filed under "makes" blocks the next make. *)
Lemma merge_throws_on_blocked_spread_witness :
  applyEntitiesToFilters (only_makes ["BMW"]) {[ "makes" := VBool true ]}
  = Throw "TypeError".
Proof.
  apply (proj1 (merge_throws_on_blocked_spread
                  (only_makes ["BMW"]) {[ "makes" := VBool true ]})).
  reflexivity.
Defined.

(* ================================================================== *)
(** ** What a merge keeps and what it overwrites                       *)
(* ================================================================== *)

Section MergeFacts.

Local Open Scope list_scope.

Implicit Types (f : CarFilters).

Lemma list_writes_of_elem f categories key v :
  (key, v) ∈ list_writes_of f categories ->
  key ∈ map fst categories
  /\ exists xs, v = VArr (spread_of (f !! key) ++ xs).
Proof.
  induction categories as [|[field x] categories IH]; [by intros ?%elem_of_nil|].
  rewrite list_writes_of_cons. simpl. destruct x as [xs|].
  - intros [[= -> ->]|H]%elem_of_cons.
    + split; [left|by exists xs].
    + destruct (IH H) as [Hin Hv]. split; [by right|done].
  - intros H. destruct (IH H) as [Hin Hv]. split; [by right|done].
Qed.

Lemma bound_writes_elem field bound key v :
  (key, v) ∈ bound_writes field bound ->
  key = field /\ exists n, bound = Some n /\ v = VNum n.
Proof.
  destruct bound as [n|]; simpl; [|by intros ?%elem_of_nil].
  intros [= -> ->]%list_elem_of_singleton. split; [done|by exists n].
Qed.

Lemma range_writes_elem fieldMin fieldMax range key v :
  (key, v) ∈ range_writes fieldMin fieldMax range ->
  exists r n, range = Some r /\ v = VNum n
              /\ ((key = fieldMin /\ min r = Some n)
                  \/ (key = fieldMax /\ max r = Some n)).
Proof.
  destruct range as [r|]; simpl; [|by intros ?%elem_of_nil].
  intros [H|H]%elem_of_app; apply bound_writes_elem in H as (-> & n & Hn & ->);
    exists r, n; auto.
Qed.

Lemma range_writes_keys fieldMin fieldMax range key :
  key ∈ map fst (range_writes fieldMin fieldMax range) ->
  key = fieldMin \/ key = fieldMax.
Proof.
  intros ((k & v) & -> & H)%list_elem_of_fmap.
  apply range_writes_elem in H as (r & n & _ & _ & [[-> _]|[-> _]]); auto.
Qed.

(** A range is written after everything that could overwrite it but the
    ranges that follow, which write other fields. *)
Lemma write_all_range before fieldMin fieldMax range after_ f :
  fieldMin <> fieldMax ->
  fieldMin ∉ map fst after_ -> fieldMax ∉ map fst after_ ->
  holds_range fieldMin fieldMax range
    (write_all (before ++ range_writes fieldMin fieldMax range ++ after_) f).
Proof.
  intros Hne Hmin Hmax r ->. simpl. split; intros v Hv.
  - rewrite Hv. simpl.
    apply write_all_last. rewrite map_app. intros [H|H]%elem_of_app; [|done].
    destruct (max r); simpl in H; [|by apply elem_of_nil in H].
    by apply list_elem_of_singleton in H.
  - rewrite Hv. simpl. rewrite <- app_assoc, app_assoc. simpl.
    by apply write_all_last.
Qed.

End MergeFacts.

(** X9. A merge removes no field, and an array of the filter state that no
    flag or bound of the entities overwrites is kept as a prefix of the
    array in the result: collected values only accumulate. *)
Theorem merge_keeps_and_grows (e : Entities) (f f' : CarFilters) :
  applyEntitiesToFilters e f = Ok f' ->
  (forall field, is_Some (f !! field) -> is_Some (f' !! field))
  /\ (forall field old,
         f !! field = Some (VArr old) ->
         field ∉ map fst (scalar_writes e) ->
         exists new, f' !! field = Some (VArr (old ++ new)%list)).
Proof.
  rewrite applyEntitiesToFilters_closed.
  destruct (throws e f); [done|]. intros [= <-]. split.
  - intros field. apply write_all_is_Some.
  - intros field old Hold Hscalar.
    rewrite write_all_app, write_all_lookup_notin by done.
    destruct (write_all_is_Some field (list_writes e f) f) as [v Hv];
      [by eexists|].
    rewrite Hv. apply write_all_elem in Hv as [Hv|Hv].
    + exists []. rewrite app_nil_r. congruence.
    + apply list_writes_of_elem in Hv as (_ & xs & ->).
      rewrite Hold. simpl. by exists xs.
Qed.

(** An instance: "BMW" merged into the makes [["Audi"]]. *)
Lemma merge_keeps_and_grows_witness :
  exists f' new,
    applyEntitiesToFilters (only_makes ["BMW"]) {[ "makes" := VArr ["Audi"] ]}
    = Ok f'
    /\ f' !! "makes" = Some (VArr (["Audi"] ++ new)%list).
Proof.
  destruct (applyEntitiesToFilters (only_makes ["BMW"])
                                   {[ "makes" := VArr ["Audi"] ]})
    as [f'|err] eqn:Hf; [|vm_compute in Hf; discriminate].
  destruct (proj2 (merge_keeps_and_grows _ _ f' Hf) "makes" ["Audi"] eq_refl)
    as [new Hnew].
  - intros H%list_elem_of_In. exact H.
  - by exists f', new.
Defined.

(** X10. A bound that the entities give is the value of its field after the
    merge, whatever the field held and whatever the flags of the entities:
    the last write wins. *)
Theorem merge_bounds_overwrite (e : Entities) (f f' : CarFilters) :
  applyEntitiesToFilters e f = Ok f' ->
  holds_range "priceMin" "priceMax" (priceRange e) f'
  /\ holds_range "yearMin" "yearMax" (yearRange e) f'
  /\ holds_range "mileageMin" "mileageMax" (mileage e) f'.
Proof.
  rewrite applyEntitiesToFilters_closed.
  destruct (throws e f); [done|]. intros [= <-].
  unfold scalar_writes.
  set (lists := list_writes e f).
  set (flags := match features e with
                | Some entries =>
                    map (fun '(key, value) => (key, VBool value)) entries
                | None => []
                end).
  set (price := range_writes "priceMin" "priceMax" (priceRange e)).
  set (year := range_writes "yearMin" "yearMax" (yearRange e)).
  set (mile := range_writes "mileageMin" "mileageMax" (mileage e)).
  assert (Hkeys : forall key fieldMin fieldMax range,
             key <> fieldMin -> key <> fieldMax ->
             key ∉ map fst (range_writes fieldMin fieldMax range)).
  { intros key a b range Ha Hb [?|?]%range_writes_keys; done. }
  split; [|split].
  - replace (lists ++ flags ++ price ++ year ++ mile)%list
      with ((lists ++ flags) ++ price ++ (year ++ mile))%list
      by (by rewrite <- !app_assoc).
    apply write_all_range; [done| |]; rewrite map_app;
      intros [H|H]%elem_of_app; revert H; by apply Hkeys.
  - replace (lists ++ flags ++ price ++ year ++ mile)%list
      with ((lists ++ flags ++ price) ++ year ++ mile)%list
      by (by rewrite <- !app_assoc).
    apply write_all_range; [done| |]; by apply Hkeys.
  - replace (lists ++ flags ++ price ++ year ++ mile)%list
      with ((lists ++ flags ++ price ++ year) ++ mile ++ [])%list
      by (by rewrite app_nil_r, <- !app_assoc).
    apply write_all_range; [done| |]; by intros ?%elem_of_nil.
Qed.

(** An instance: a maximal price of 40000 over a stored one of 1. *)
Lemma merge_bounds_overwrite_witness :
  exists f',
    applyEntitiesToFilters scalar_example {[ "priceMax" := VNum (Num 1) ]}
    = Ok f'
    /\ f' !! "priceMax" = Some (VNum (Num 40000)).
Proof.
  destruct (applyEntitiesToFilters scalar_example
                                   {[ "priceMax" := VNum (Num 1) ]})
    as [f'|err] eqn:Hf; [|vm_compute in Hf; discriminate].
  exists f'. split; [reflexivity|].
  exact (proj2 (proj1 (merge_bounds_overwrite _ _ f' Hf) _ eq_refl)
               (Num 40000) eq_refl).
Defined.

(* ================================================================== *)
(** ** Filter states of a session                                      *)
(* ================================================================== *)

Section Session.

Local Open Scope list_scope.

Lemma four_digits_nonnegative v : four_digits v -> nonnegative v.
Proof. intros (n & -> & _). left. by exists n. Qed.

Lemma bounds_impl (P Q : number -> Prop) r :
  (forall v, P v -> Q v) -> bounds P r -> bounds Q r.
Proof. intros HPQ [Hmin Hmax]. split; intros v Hv; auto. Qed.

Lemma nonempty_Some {A} (xs ys : list A) : nonempty xs = Some ys -> ys = xs.
Proof. destruct xs; [done|]. by intros [= <-]. Qed.

(** What [parseVoiceCommand] returns is [parsed]. *)
Lemma parseVoiceCommand_parsed text command :
  parseVoiceCommand text = Ok command -> parsed (entities command).
Proof.
  unfold parseVoiceCommand. set (t := trim (toLowerCase text)).
  destruct (extractPriceRange t) as [price|] eqn:Hprice; [|done].
  destruct (extractYearRange t) as [year|] eqn:Hyear; [|done].
  destruct (extractMileage t) as [mile|] eqn:Hmile; [|done].
  simpl. intros [= <-]. simpl.
  pose proof (extractPriceRange_nonnegative t) as Hp.
  pose proof (extractMileage_nonnegative t) as Hm.
  pose proof (extractYearRange_four_digits t) as Hy.
  destruct (extractFeatures_entries t) as (_ & Htrue & Hkeys).
  split; [|split; [|split]].
  - intros fs feature flag Hfs Hin. simpl in Hfs.
    apply nonempty_Some in Hfs as ->. split; [|by eapply Htrue].
    assert (Hfeature : feature ∈ map fst (extractFeatures t)).
    { apply list_elem_of_fmap. by exists (feature, flag). }
    apply Hkeys in Hfeature as (keyword & Hfeature & _).
    unfold feature_names. apply list_elem_of_fmap. by exists (keyword, feature).
  - intros r Hr. simpl in Hr. subst. by apply Hp.
  - intros r Hr. simpl in Hr. subst.
    by apply (bounds_impl four_digits nonnegative r
                          four_digits_nonnegative), Hy.
  - intros r Hr. simpl in Hr. subst. by apply Hm.
Qed.

(** A list field of a well-typed filter state holds an array. *)
Lemma well_typed_list_field f field v :
  well_typed f -> field ∈ list_fields -> f !! field = Some v ->
  exists xs, v = VArr xs.
Proof.
  intros Htyped Hin Hv.
  destruct (Htyped field v Hv) as [[_ H]|[[Hb _]|[Hf _]]]; [done|exfalso..].
  - apply list_elem_of_In in Hin, Hb. simpl in Hin, Hb.
    repeat destruct Hin as [<-|Hin]; try done;
      repeat destruct Hb as [Hb|Hb]; done.
  - apply list_elem_of_In in Hin, Hf. simpl in Hin, Hf.
    repeat destruct Hin as [<-|Hin]; try done;
      repeat destruct Hf as [Hf|Hf]; done.
Qed.

Lemma well_typed_not_throws e f : well_typed f -> throws e f = false.
Proof.
  intros Htyped. unfold throws.
  apply not_true_iff_false. intros (category & Hin & Hblocked)%existsb_exists.
  unfold blocked in Hblocked.
  destruct (snd category) as [xs|]; [|done].
  destruct (f !! fst category) as [v|] eqn:Hv; [|done].
  destruct (well_typed_list_field f (fst category) v Htyped) as [items ->];
    [|done|done].
  apply list_elem_of_In. apply (in_map fst) in Hin. exact Hin.
Qed.

Lemma well_typed_merge e f f' :
  parsed e -> well_typed f -> applyEntitiesToFilters e f = Ok f' ->
  well_typed f'.
Proof.
  intros (Hflags & Hprice & Hyear & Hmile) Htyped.
  rewrite applyEntitiesToFilters_closed.
  destruct (throws e f); [done|]. intros [= <-] field v Hv.
  apply write_all_elem in Hv as [Hv|Hv]; [by apply Htyped|].
  apply elem_of_app in Hv as [Hv|Hv].
  - apply list_writes_of_elem in Hv as (Hin & xs & ->).
    left. split; [|by eexists].
    apply list_elem_of_In. apply list_elem_of_In in Hin. exact Hin.
  - unfold scalar_writes in Hv.
    assert (Hrange : forall fieldMin fieldMax range,
               (forall r, range = Some r -> bounds nonnegative r) ->
               fieldMin ∈ bound_fields -> fieldMax ∈ bound_fields ->
               (field, v) ∈ range_writes fieldMin fieldMax range ->
               typed_field field v).
    { intros a b range Hnat Ha Hb
             (r & n & -> & -> & [[-> Hn]|[-> Hn]])%range_writes_elem;
        right; left; (split; [done|]); exists n; (split; [done|]);
        destruct (Hnat r eq_refl) as [Hmin Hmax]; auto. }
    repeat apply elem_of_app in Hv as [Hv|Hv].
    + destruct (features e) as [entries|] eqn:Hfs; [|by apply elem_of_nil in Hv].
      apply list_elem_of_fmap in Hv as ([key flag] & [= -> ->] & Hin).
      destruct (Hflags entries key flag eq_refl Hin) as [Hkey ->].
      right. right. done.
    + revert Hv. apply Hrange; [done|apply list_elem_of_In; simpl; tauto..].
    + revert Hv. apply Hrange; [done|apply list_elem_of_In; simpl; tauto..].
    + revert Hv. apply Hrange; [done|apply list_elem_of_In; simpl; tauto..].
Qed.

Lemma well_typed_merges e f :
  parsed e -> well_typed f ->
  exists f', applyEntitiesToFilters e f = Ok f' /\ well_typed f'.
Proof.
  intros Hparsed Htyped.
  destruct (applyEntitiesToFilters e f) as [f'|err] eqn:Hf.
  - exists f'. split; [done|]. by eapply well_typed_merge.
  - rewrite applyEntitiesToFilters_closed in Hf.
    by rewrite well_typed_not_throws in Hf.
Qed.

Lemma well_typed_empty : well_typed ∅.
Proof. intros field v Hv. by rewrite lookup_empty in Hv. Qed.

End Session.

(** X11. Merging the entities of any utterance into a well-typed filter
    state (arrays in the list fields, numbers that are neither [NaN] nor
    negative in the bounds, [true] in the features of the table, no other
    field) never throws, and the result is well typed again. *)
Theorem merge_of_parsed_entities_is_well_typed
        (text : string) (command : VoiceCommand) (f : CarFilters) :
  parseVoiceCommand text = Ok command ->
  well_typed f ->
  exists f', applyEntitiesToFilters (entities command) f = Ok f'
             /\ well_typed f'.
Proof.
  intros Hparse Htyped.
  apply well_typed_merges; [|done]. by eapply parseVoiceCommand_parsed.
Qed.

(** An instance: a used BMW SUV merged into the empty state. *)
Lemma merge_of_parsed_entities_is_well_typed_witness :
  exists f', applyEntitiesToFilters three_categories ∅ = Ok f'
             /\ well_typed f'.
Proof.
  destruct (parseVoiceCommand "a used BMW SUV") as [command|] eqn:Hparse;
    [|vm_compute in Hparse; discriminate].
  destruct (merge_of_parsed_entities_is_well_typed
              "a used BMW SUV" command ∅ Hparse well_typed_empty)
    as (f' & Hf' & Htyped).
  exists f'. split; [|exact Htyped].
  vm_compute in Hparse. injection Hparse as <-. exact Hf'.
Defined.

(* ================================================================== *)
(** ** The dialogue handlers, continued                                *)
(* ================================================================== *)

Section DialogueFacts.

Local Open Scope list_scope.

Variable toLocaleString : number -> string.

Lemma keeps_typed_speak env text : Forall keeps_typed (speak env text).
Proof. unfold speak. destruct (_ && _); by repeat constructor. Qed.

(** A handler whose closure holds a well-typed filter state does not
    throw, and stores and publishes well-typed filter states only. *)
Lemma handlers_keep_typed env ev :
  well_typed (collectedFilters (conversationState env)) ->
  Forall keeps_typed (actions_of toLocaleString env ev)
  /\ forall text, snd (handleVoiceInput toLocaleString env text) = None.
Proof.
  intros Htyped.
  pose proof (keeps_typed_speak env) as Hspeak.
  pose proof well_typed_empty as Hempty.
  assert (Hvoice : forall text,
             Forall keeps_typed (fst (handleVoiceInput toLocaleString env text))
             /\ snd (handleVoiceInput toLocaleString env text) = None).
  { intros text. unfold handleVoiceInput.
    destruct (parseVoiceCommand_returns text) as [command Hparse].
    rewrite Hparse.
    destruct (well_typed_merges (entities command) _
                (parseVoiceCommand_parsed _ _ Hparse) Htyped)
      as (f' & Hf' & Htyped').
    unfold processVoiceCommand.
    repeat match goal with |- context [if ?c then _ else _] =>
                             destruct c end;
      unfold handleFilterSpecification, handleConfirmation, handleDenial,
        handleReset, handleUnknownCommand, addMessage;
      rewrite ?Hf'; simpl; (split; [|done]);
      repeat first [ apply Hspeak | apply Forall_nil_2
                   | apply Forall_cons_2 | apply Forall_app_2 | done ]. }
  split; [|intros text; apply Hvoice].
  destruct ev as [|text|[updatedFilters|]]; simpl.
  - unfold startConversation, addMessage. simpl.
    repeat first [ apply Hspeak | apply Forall_nil_2
                 | apply Forall_cons_2 | apply Forall_app_2 | done ].
  - apply Hvoice.
  - unfold addMessage. simpl. apply Forall_cons_2; [done|]. apply Hspeak.
  - by repeat constructor.
Qed.

Lemma after_keeps_typed actions : forall cs,
  Forall keeps_typed actions ->
  well_typed (collectedFilters cs) ->
  well_typed (collectedFilters (after actions cs)).
Proof.
  unfold after.
  induction actions as [|a actions IH]; intros cs Hall Hcs; simpl; [done|].
  inversion Hall as [|? ? Ha Hrest]; subst.
  apply IH; [done|]. destruct a; simpl in *; done.
Qed.

Lemma reachable_well_typed cs :
  reachable toLocaleString cs -> well_typed (collectedFilters cs).
Proof.
  induction 1 as [|seen cs env ev _ IHseen _ IHcs Henv].
  - apply well_typed_empty.
  - apply after_keeps_typed; [|done].
    apply handlers_keep_typed. by rewrite Henv.
Qed.

Lemma spoken_app l1 l2 : spoken (l1 ++ l2) = spoken l1 ++ spoken l2.
Proof. apply omap_app. Qed.

Lemma assistant_messages_app l1 l2 :
  assistant_messages (l1 ++ l2)
  = assistant_messages l1 ++ assistant_messages l2.
Proof. apply omap_app. Qed.

End DialogueFacts.

(** X12. In every conversation state that the component can reach from the
    initial one, the collected filter state is well typed, and a handler
    whose closure holds such a state handles every utterance without an
    exception; this also holds when closures are stale. *)
Theorem reachable_states_never_throw
        (toLocaleString : number -> string) (cs : ConversationState) :
  reachable toLocaleString cs ->
  well_typed (collectedFilters cs)
  /\ forall env text,
      conversationState env = cs ->
      snd (handleVoiceInput toLocaleString env text) = None.
Proof.
  intros Hreach.
  pose proof (reachable_well_typed toLocaleString cs Hreach) as Htyped.
  split; [done|]. intros env text Henv.
  apply (handlers_keep_typed toLocaleString env opened). by rewrite Henv.
Qed.

(** An instance: the state after the greeting and one utterance. *)
Lemma reachable_states_never_throw_witness :
  well_typed
    (collectedFilters
       (after (actions_of (fun _ => EmptyString)
                          (mkClosure true false collecting)
                          (heard "a used BMW"))
              (after (actions_of (fun _ => EmptyString)
                                 (mkClosure true false initialState) opened)
                     initialState))).
Proof.
  apply (reachable_states_never_throw (fun _ => EmptyString)).
  apply (reachable_event _ collecting _ (mkClosure true false collecting));
    [| |reflexivity].
  - apply (reachable_event _ initialState initialState
                           (mkClosure true false initialState) opened);
      [apply reachable_initial..|reflexivity].
  - apply (reachable_event _ initialState initialState
                           (mkClosure true false initialState) opened);
      [apply reachable_initial..|reflexivity].
Defined.

(** X13. Whatever the event, a handler speaks exactly the messages that it
    adds to the conversation as the assistant, in the same order, when a
    synthesis is present and [isSpeaking] is false in its closure;
    otherwise it speaks nothing, and the messages are only written. *)
Theorem handlers_speak_what_they_write
        (toLocaleString : number -> string) (env : Closure) (ev : event) :
  spoken (actions_of toLocaleString env ev) =
  if can_speak env
  then assistant_messages (actions_of toLocaleString env ev)
  else [].
Proof.
  unfold can_speak.
  destruct ev as [|text|[updatedFilters|]]; simpl;
    unfold startConversation, handleVoiceInput, addMessage, speak; simpl.
  - by destruct (synth env && negb (isSpeaking env)).
  - destruct (parseVoiceCommand text) as [command|err]; simpl;
      [|by destruct (synth env && negb (isSpeaking env))].
    unfold processVoiceCommand.
    destruct (_ || _);
      [|destruct (String.eqb _ "confirm");
        [|destruct (String.eqb _ "deny");
          [|destruct (String.eqb _ "reset_filters")]]];
      unfold handleFilterSpecification, handleConfirmation, handleDenial,
        handleReset, handleUnknownCommand, addMessage, speak;
      try destruct (applyEntitiesToFilters _ _);
      by destruct (synth env && negb (isSpeaking env)).
  - by destruct (synth env && negb (isSpeaking env)).
  - by destruct (synth env && negb (isSpeaking env)).
Qed.

(* ================================================================== *)
(** ** From the utterance to the reply                                 *)
(* ================================================================== *)

Section Replies.

Local Open Scope list_scope.

Implicit Types (f : CarFilters).

Lemma parseVoiceCommand_intent text command :
  parseVoiceCommand text = Ok command ->
  intent command = determineIntent (normalized text) (entities command).
Proof.
  unfold parseVoiceCommand, normalized. set (t := trim (toLowerCase text)).
  destruct (extractPriceRange t) as [price|]; [|done].
  destruct (extractYearRange t) as [year|]; [|done].
  destruct (extractMileage t) as [mile|]; [|done].
  simpl. by intros [= <-].
Qed.

Lemma parseVoiceCommand_makes text command xs :
  parseVoiceCommand text = Ok command ->
  makes (entities command) = Some xs -> xs <> [].
Proof.
  unfold parseVoiceCommand. set (t := trim (toLowerCase text)).
  destruct (extractPriceRange t) as [price|]; [|done].
  destruct (extractYearRange t) as [year|]; [|done].
  destruct (extractMileage t) as [mile|]; [|done].
  simpl. intros [= <-]. simpl.
  destruct (extractKeywords t KEYWORD_MAPPINGS.makes); simpl; [done|].
  by intros [= <-].
Qed.

Lemma scalar_writes_keys e key :
  parsed e -> key ∈ map fst (scalar_writes e) ->
  key ∈ feature_names \/ key ∈ bound_fields.
Proof.
  intros (Hflags & _). unfold scalar_writes.
  rewrite !map_app, !elem_of_app.
  intros [H|[H|[H|H]]].
  - left. destruct (features e) as [fs|]; [|by apply elem_of_nil in H].
    apply list_elem_of_fmap in H as ([k v] & -> & H).
    apply list_elem_of_fmap in H as ([k' v'] & [= -> ->] & H).
    by apply (Hflags fs k' v').
  - right. apply range_writes_keys in H as [-> | ->];
      apply list_elem_of_In; simpl; tauto.
  - right. apply range_writes_keys in H as [-> | ->];
      apply list_elem_of_In; simpl; tauto.
  - right. apply range_writes_keys in H as [-> | ->];
      apply list_elem_of_In; simpl; tauto.
Qed.

Lemma list_field_not_scalar e field :
  parsed e -> field ∈ list_fields -> field ∉ map fst (scalar_writes e).
Proof.
  intros Hparsed Hfield [H|H]%scalar_writes_keys; [| |done].
  - assert (Hall : Forall (fun x => x ∉ feature_names) list_fields)
      by (apply (bool_decide_unpack _); by vm_compute).
    by apply (proj1 (Forall_forall _ _) Hall field).
  - assert (Hall : Forall (fun x => x ∉ bound_fields) list_fields)
      by (apply (bool_decide_unpack _); by vm_compute).
    by apply (proj1 (Forall_forall _ _) Hall field).
Qed.

(** What the appends leave in the field of a category. *)
Lemma list_writes_lookup f categories : forall g field x,
  NoDup (map fst categories) ->
  (field, x) ∈ categories ->
  write_all (list_writes_of f categories) g !! field =
  match x with
  | Some xs => Some (VArr (spread_of (f !! field) ++ xs))
  | None => g !! field
  end.
Proof.
  induction categories as [|[k y] categories IH]; intros g field x Hnodup Hin;
    [by apply elem_of_nil in Hin|].
  simpl in Hnodup. apply NoDup_cons in Hnodup as [Hk Hnodup].
  assert (Hkeys : k ∉ map fst (list_writes_of f categories)).
  { intros H. by apply Hk, (list_writes_of_keys f). }
  rewrite list_writes_of_cons.
  apply elem_of_cons in Hin as [[= -> ->]|Hin].
  - destruct y as [xs|].
    + rewrite write_all_cons, write_all_lookup_notin by done.
      apply lookup_insert_eq.
    + by rewrite write_all_lookup_notin.
  - assert (Hne : k <> field).
    { intros ->. apply Hk. apply list_elem_of_fmap. by exists (field, x). }
    destruct y as [xs|].
    + rewrite write_all_cons, (IH _ field x) by done.
      destruct x; [done|]. by rewrite lookup_insert_ne.
    + by apply IH.
Qed.

(** The field of a list category after the merge of parsed entities. *)
Lemma merge_list_field e f f' field x :
  parsed e -> applyEntitiesToFilters e f = Ok f' ->
  (field, x) ∈ list_categories e ->
  f' !! field =
  match x with
  | Some xs => Some (VArr (spread_of (f !! field) ++ xs))
  | None => f !! field
  end.
Proof.
  intros Hparsed Hf Hin.
  rewrite applyEntitiesToFilters_closed in Hf.
  destruct (throws e f); [done|]. injection Hf as <-.
  rewrite write_all_app, write_all_lookup_notin.
  - apply list_writes_lookup; [|done].
    apply (bool_decide_unpack _). by vm_compute.
  - apply list_field_not_scalar; [done|].
    apply list_elem_of_fmap_2 with (f := fst) in Hin. exact Hin.
Qed.

(** A field that the merge does not write. *)
Lemma merge_other_field e f f' field :
  applyEntitiesToFilters e f = Ok f' ->
  field ∉ map fst (list_writes e f) ->
  field ∉ map fst (scalar_writes e) ->
  f' !! field = f !! field.
Proof.
  intros Hf Hlist Hscalar.
  rewrite applyEntitiesToFilters_closed in Hf.
  destruct (throws e f); [done|]. injection Hf as <-.
  by rewrite write_all_app, !write_all_lookup_notin.
Qed.

Lemma append_empty_r (s : string) : (s ++ EmptyString)%string = s.
Proof. induction s as [|c s IH]; [done|]. by rewrite append_cons, IH. Qed.

Lemma transcripts_joined results : forall finalTranscript interimTranscript,
  Recognition.transcripts results finalTranscript interimTranscript =
  (finalTranscript ++ joined (List.filter Recognition.isFinal results),
   interimTranscript
   ++ joined (List.filter (fun r => negb (Recognition.isFinal r)) results))%string.
Proof.
  unfold joined.
  induction results as [|r results IH]; intros a b; simpl.
  - by rewrite !append_empty_r.
  - destruct (Recognition.isFinal r); simpl; rewrite IH;
      by rewrite append_assoc.
Qed.

End Replies.

(** X14. An utterance with a keyword of compare_cars or car_details and
    none of search_cars gets the reply to an unknown command: the intents
    compare_cars and car_details have no handler.  What the utterance names
    is dropped: nothing is published and the conversation state stays. *)
Theorem compare_and_detail_are_not_handled
        (toLocaleString : number -> string) (env : Closure) (text : string) :
  mentions (normalized text) search_keywords = false ->
  mentions (normalized text) compare_and_detail_keywords = true ->
  handleVoiceInput toLocaleString env text
  = ((addMessage user text ++ fst (handleUnknownCommand env text)
      ++ [setTranscript EmptyString])%list, None)
  /\ published (fst (handleVoiceInput toLocaleString env text)) = []
  /\ forall cs, after (fst (handleVoiceInput toLocaleString env text)) cs = cs.
Proof.
  intros Hsearch Hother.
  destruct (parseVoiceCommand_returns text) as [command Hparse].
  pose proof (parseVoiceCommand_intent _ _ Hparse) as Hintent.
  assert (Hcases : intent command = "compare_cars"
                   \/ intent command = "car_details").
  { rewrite Hintent. unfold determineIntent.
    unfold mentions in Hsearch, Hother. simpl in Hsearch, Hother.
    absent_keywords.
    repeat match goal with
           | H : includes _ _ = false |- _ => rewrite H; clear H
           end.
    simpl. destruct (includes _ "compare"); [by left|].
    destruct (includes _ "comparison"); [by left|]. simpl.
    simpl in Hother. rewrite ?orb_false_r, ?orb_assoc in Hother.
    rewrite Hother. by right. }
  assert (Hhandle :
    handleVoiceInput toLocaleString env text
    = ((addMessage user text ++ fst (handleUnknownCommand env text)
        ++ [setTranscript EmptyString])%list, None)).
  { unfold handleVoiceInput. rewrite Hparse. unfold processVoiceCommand.
    by destruct Hcases as [-> | ->]. }
  split; [exact Hhandle|]. rewrite Hhandle.
  unfold handleUnknownCommand, addMessage, speak. simpl.
  by destruct (synth env && negb (isSpeaking env)).
Qed.

(** An instance: the makes of "compare the BMW with the Audi" are dropped. *)
Lemma compare_and_detail_are_not_handled_witness :
  published
    (fst (handleVoiceInput (fun _ => EmptyString)
                           (mkClosure true false initialState)
                           "compare the BMW with the Audi")) = [].
Proof.
  apply (compare_and_detail_are_not_handled
           (fun _ => EmptyString) (mkClosure true false initialState)
           "compare the BMW with the Audi");
    vm_compute; reflexivity.
Defined.

(** X15. After the entities of an utterance are merged, the next question
    asks for the brand exactly when the utterance names no make and the
    state held none before: a make just named is not asked for again,
    whatever else the state holds. *)
Theorem brand_question_iff_no_make
        (text : string) (command : VoiceCommand) (f f' : CarFilters) :
  parseVoiceCommand text = Ok command ->
  applyEntitiesToFilters (entities command) f = Ok f' ->
  generateNextQuestion f' = brand_question
  <-> makes (entities command) = None
      /\ none_collected (f !! "makes") = true.
Proof.
  intros Hparse Hf.
  pose proof (parseVoiceCommand_parsed _ _ Hparse) as Hparsed.
  pose proof (merge_list_field _ _ _ "makes" (makes (entities command))
                Hparsed Hf) as Hmakes.
  specialize (Hmakes ltac:(unfold list_categories; left)).
  assert (Hquestion : forall g,
             generateNextQuestion g = brand_question
             <-> none_collected (g !! "makes") = true).
  { intros g. unfold generateNextQuestion.
    destruct (none_collected (g !! "makes")); [done|].
    split; [|done].
    repeat match goal with |- context [if ?c then _ else _] =>
                             destruct c end; discriminate. }
  rewrite Hquestion, Hmakes. clear Hquestion.
  destruct (makes (entities command)) as [xs|] eqn:Hxs; [|tauto].
  pose proof (parseVoiceCommand_makes _ _ _ Hparse Hxs) as Hne.
  split; [|by intros [? _]].
  unfold none_collected. simpl.
  rewrite length_app. destruct xs as [|x xs]; [done|].
  simpl. rewrite Nat.add_succ_r. done.
Qed.

(** An instance: after "a BMW" the brand is not asked for. *)
Lemma brand_question_iff_no_make_witness :
  exists f',
    applyEntitiesToFilters (only_makes ["BMW"]) ∅ = Ok f'
    /\ generateNextQuestion f' <> brand_question.
Proof.
  destruct (parseVoiceCommand "a BMW") as [command|] eqn:Hparse;
    [|vm_compute in Hparse; discriminate].
  destruct (applyEntitiesToFilters (entities command) ∅) as [f'|] eqn:Hf;
    [|vm_compute in Hparse; injection Hparse as <-;
      vm_compute in Hf; discriminate].
  pose proof (brand_question_iff_no_make "a BMW" command ∅ f' Hparse Hf)
    as Hiff.
  vm_compute in Hparse. injection Hparse as <-.
  exists f'. split; [exact Hf|].
  intros Hq. apply Hiff in Hq as [Hmakes _]. discriminate Hmakes.
Defined.

(** X16. [onresult] joins the transcripts of the final results from
    [resultIndex] on and, apart from them, those of the interim results.
    Without a final text it only shows the interim one; otherwise it shows
    the final text and handles it as one utterance. *)
Theorem onresult_handles_the_final_text
        (toLocaleString : number -> string) (env : Closure)
        (resultIndex : nat)
        (results : list Recognition.SpeechRecognitionResult) :
  Recognition.onresult toLocaleString env resultIndex results =
  if String.eqb (final_transcript resultIndex results) EmptyString
  then ([setTranscript (interim_transcript resultIndex results)], None)
  else
    (setTranscript (final_transcript resultIndex results)
       :: fst (handleVoiceInput toLocaleString env
                                (final_transcript resultIndex results)),
     snd (handleVoiceInput toLocaleString env
                           (final_transcript resultIndex results))).
Proof.
  unfold Recognition.onresult, final_transcript, interim_transcript.
  rewrite transcripts_joined, !append_nil.
  unfold Recognition.truthy_string.
  destruct (String.eqb _ EmptyString); simpl; [done|].
  by destruct (handleVoiceInput _ _ _).
Qed.

(** X17. The handler of the recognition is the one of the first render,
    whose closure holds the empty filter state.  A recognized utterance
    that searches or specifies therefore stores and publishes its own
    entities merged into the empty state: what earlier utterances had
    collected is replaced, not extended. *)
Theorem recognized_utterance_replaces_collected
        (toLocaleString : number -> string) (synth : bool)
        (resultIndex : nat)
        (results : list Recognition.SpeechRecognitionResult)
        (command : VoiceCommand) (cs : ConversationState) :
  final_transcript resultIndex results <> EmptyString ->
  parseVoiceCommand (final_transcript resultIndex results) = Ok command ->
  intent command = "search_cars" \/ intent command = "specify_filters" ->
  exists f',
    applyEntitiesToFilters (entities command) ∅ = Ok f'
    /\ collectedFilters
         (after (fst (Recognition.onresult
                        toLocaleString (Recognition.first_render synth)
                        resultIndex results)) cs) = f'
    /\ published (fst (Recognition.onresult
                         toLocaleString (Recognition.first_render synth)
                         resultIndex results)) = [f'].
Proof.
  intros Hfinal Hparse Hintent.
  destruct (well_typed_merges (entities command) ∅
              (parseVoiceCommand_parsed _ _ Hparse) well_typed_empty)
    as (f' & Hf' & _).
  exists f'. split; [exact Hf'|].
  unfold Recognition.onresult.
  rewrite transcripts_joined, !append_nil.
  fold (final_transcript resultIndex results).
  unfold Recognition.truthy_string.
  destruct (String.eqb_spec (final_transcript resultIndex results)
                            EmptyString) as [Heq|_]; [done|].
  simpl. unfold handleVoiceInput. rewrite Hparse.
  unfold processVoiceCommand.
  replace (String.eqb (intent command) "search_cars"
           || String.eqb (intent command) "specify_filters") with true
    by (by destruct Hintent as [-> | ->]).
  unfold handleFilterSpecification. simpl. rewrite Hf'.
  unfold addMessage, speak. simpl.
  by destruct synth.
Qed.

(** An instance: "automatic" after "a BMW" leaves no make in the state. *)
Lemma recognized_utterance_replaces_collected_witness :
  collectedFilters
    (after (recognized "automatic") (after (recognized "a BMW") initialState))
  = {[ "transmissions" := VArr ["automatic"] ]}.
Proof.
  destruct (parseVoiceCommand "automatic") as [command|] eqn:Hparse;
    [|vm_compute in Hparse; discriminate].
  destruct (recognized_utterance_replaces_collected
              (fun _ => EmptyString) true 0
              [Recognition.mkResult "automatic" true] command
              (after (recognized "a BMW") initialState))
    as (f' & Hf' & Hstate & _).
  - vm_compute. discriminate.
  - exact Hparse.
  - vm_compute in Hparse. injection Hparse as <-. by right.
  - unfold recognized at 1. rewrite Hstate.
    vm_compute in Hparse. injection Hparse as <-.
    vm_compute in Hf'. injection Hf' as <-. reflexivity.
Defined.

(* ================================================================== *)
(** ** The inventory page                                              *)
(* ================================================================== *)

Section InventoryFacts.

Local Open Scope list_scope.

Implicit Types (f g : CarFilters).

Variable toString : number -> string.

Lemma keeps_agree searchTerm f g car :
  Inventory.bound (f !! "priceMin") = Inventory.bound (g !! "priceMin") ->
  Inventory.bound (f !! "priceMax") = Inventory.bound (g !! "priceMax") ->
  (forall field,
      field ∈ ["makes"; "vehicleTypes"; "fuelTypes"; "transmissions";
               "conditions"] ->
      f !! field = g !! field) ->
  Inventory.keeps toString searchTerm f car
  = Inventory.keeps toString searchTerm g car.
Proof.
  intros Hmin Hmax Hlists. unfold Inventory.keeps.
  rewrite Hmin, Hmax.
  by rewrite !Hlists by (apply list_elem_of_In; simpl; tauto).
Qed.

Lemma filteredCars_agree searchTerm f g cars :
  (forall car, Inventory.keeps toString searchTerm f car
               = Inventory.keeps toString searchTerm g car) ->
  Inventory.filteredCars toString cars searchTerm f
  = Inventory.filteredCars toString cars searchTerm g.
Proof.
  intros Hagree. induction cars as [|car cars IH]; simpl; [done|].
  by rewrite Hagree, IH.
Qed.

Lemma excludes_absent xs c :
  xs <> [] -> c ∉ xs -> Inventory.excludes (Some (VArr xs)) c = true.
Proof.
  intros Hne Hnotin. unfold Inventory.excludes.
  apply andb_true_iff. split.
  - destruct xs; [done|]. reflexivity.
  - apply negb_true_iff, not_true_iff_false.
    intros (x & Hx & ->%String.eqb_eq)%existsb_exists.
    by apply Hnotin, list_elem_of_In.
Qed.

Lemma keeps_hidden searchTerm f car :
  is_Some (Inventory.bound (f !! "priceMin")) ->
  is_Some (Inventory.bound (f !! "priceMax")) ->
  (forall c, c ∈ page_conditions ->
             Inventory.excludes (f !! "conditions") c = true) ->
  Inventory.keeps toString searchTerm f car = Some false.
Proof.
  intros [lo Hlo] [hi Hhi] Hconditions. unfold Inventory.keeps.
  rewrite Hlo, Hhi. simpl.
  rewrite (Hconditions (if String.eqb (Inventory.condition car) "new"
                        then "New" else "Used"))
    by (destruct (String.eqb _ _); apply list_elem_of_In; simpl; tauto).
  repeat match goal with |- context [if ?c then _ else _] =>
                           destruct c end; reflexivity.
Qed.

Lemma filteredCars_hidden searchTerm f cars :
  (forall car, Inventory.keeps toString searchTerm f car = Some false) ->
  Inventory.filteredCars toString cars searchTerm f = Some [].
Proof.
  intros Hhidden. induction cars as [|car cars IH]; simpl; [done|].
  by rewrite Hhidden, IH.
Qed.

Lemma well_typed_bound f field :
  well_typed f -> field ∈ bound_fields ->
  is_Some (Inventory.bound (f !! field)).
Proof.
  intros Htyped Hfield.
  destruct (f !! field) as [v|] eqn:Hv; [|by eexists].
  destruct (Htyped field v Hv) as [[Hin _]|[(_ & n & -> & _)|[Hin _]]].
  - exfalso. revert Hfield.
    assert (Hall : Forall (fun x => x ∉ bound_fields) list_fields)
      by (apply (bool_decide_unpack _); by vm_compute).
    by apply (proj1 (Forall_forall _ _) Hall field).
  - simpl. by eexists.
  - exfalso. revert Hfield.
    assert (Hall : Forall (fun x => x ∉ bound_fields) feature_names)
      by (apply (bool_decide_unpack _); by vm_compute).
    by apply (proj1 (Forall_forall _ _) Hall field).
Qed.

Lemma extractKeywords_values text table v :
  v ∈ extractKeywords text table -> v ∈ map snd table.
Proof.
  unfold extractKeywords, unique.
  match goal with
  | |- context [fold_left ?f table []] => set (found := fold_left f table [])
  end.
  destruct (unique_fold found [] NoDup_nil_2) as [_ Hiff].
  rewrite Hiff. unfold found. rewrite found_fold, !elem_of_nil.
  intros [[]|[[]|(keyword & Hin & _)]].
  apply list_elem_of_fmap. by exists (keyword, v).
Qed.

Lemma parseVoiceCommand_conditions text command xs :
  parseVoiceCommand text = Ok command ->
  conditions (entities command) = Some xs ->
  xs <> [] /\ forall v, v ∈ xs -> v ∈ map snd KEYWORD_MAPPINGS.conditions.
Proof.
  unfold parseVoiceCommand. set (t := trim (toLowerCase text)).
  destruct (extractPriceRange t) as [price|]; [|done].
  destruct (extractYearRange t) as [year|]; [|done].
  destruct (extractMileage t) as [mile|]; [|done].
  simpl. intros [= <-]. simpl.
  pose proof (extractKeywords_values t KEYWORD_MAPPINGS.conditions) as Hvalues.
  destruct (extractKeywords t KEYWORD_MAPPINGS.conditions); simpl; [done|].
  by intros [= <-].
Qed.

End InventoryFacts.

(** X18. The page looks conditions up as "New" and "Used", the parser names
    them "new", "used" and so on.  Once an utterance that names a condition
    is merged into a well-typed state without "New" and "Used", the page
    lists no car, whatever the cars and the search term. *)
Theorem voiced_condition_hides_every_car
        (toString : number -> string) (text : string)
        (command : VoiceCommand) (f f' : CarFilters)
        (cars : list Inventory.Car) (searchTerm : string) :
  parseVoiceCommand text = Ok command ->
  is_Some (conditions (entities command)) ->
  well_typed f -> no_page_condition f ->
  applyEntitiesToFilters (entities command) f = Ok f' ->
  Inventory.filteredCars toString cars searchTerm f' = Some [].
Proof.
  intros Hparse [xs Hxs] Htyped Hnone Hf.
  pose proof (parseVoiceCommand_parsed _ _ Hparse) as Hparsed.
  pose proof (well_typed_merge _ _ _ Hparsed Htyped Hf) as Htyped'.
  destruct (parseVoiceCommand_conditions _ _ _ Hparse Hxs) as [Hne Hvalues].
  pose proof (merge_list_field _ _ _ "conditions" (Some xs) Hparsed Hf) as Hc.
  rewrite <- Hxs in Hc at 1.
  specialize (Hc ltac:(unfold list_categories; apply list_elem_of_In;
                       simpl; tauto)).
  apply filteredCars_hidden. intros car. apply keeps_hidden.
  - apply well_typed_bound; [done|]. apply list_elem_of_In; simpl; tauto.
  - apply well_typed_bound; [done|]. apply list_elem_of_In; simpl; tauto.
  - intros c Hin. rewrite Hc. apply excludes_absent.
    + destruct xs; [done|]. by destruct (spread_of _).
    + intros [Hold|Hnew]%elem_of_app.
      * destruct (f !! "conditions") as [v|] eqn:Hv;
          [|by apply elem_of_nil in Hold].
        destruct (well_typed_list_field f "conditions" v Htyped) as [old ->];
          [apply list_elem_of_In; simpl; tauto|done|].
        by apply (Hnone old c).
      * apply Hvalues in Hnew.
        assert (Hall : Forall (fun c => c ∉ map snd KEYWORD_MAPPINGS.conditions)
                              page_conditions)
          by (apply (bool_decide_unpack _); by vm_compute).
        by apply (proj1 (Forall_forall _ _) Hall c).
Qed.

(** An instance: after "a used BMW" no car is listed. *)
Lemma voiced_condition_hides_every_car_witness :
  exists f',
    applyEntitiesToFilters three_categories ∅ = Ok f'
    /\ Inventory.filteredCars
         (fun _ => EmptyString)
         [Inventory.mkCar "BMW X5" "BMW" "suv" (Num 2020) (Num 45000)
                          "diesel" "automatic" "used"]
         EmptyString f' = Some [].
Proof.
  destruct (parseVoiceCommand "a used BMW SUV") as [command|] eqn:Hparse;
    [|vm_compute in Hparse; discriminate].
  destruct (applyEntitiesToFilters (entities command) ∅) as [f'|] eqn:Hf;
    [|vm_compute in Hparse; injection Hparse as <-;
      vm_compute in Hf; discriminate].
  exists f'. split.
  - vm_compute in Hparse. injection Hparse as <-. exact Hf.
  - apply (voiced_condition_hides_every_car
             _ "a used BMW SUV" command ∅ f'); [exact Hparse| | | |exact Hf].
    + vm_compute in Hparse. injection Hparse as <-. by eexists.
    + exact well_typed_empty.
    + intros xs c Hxs. by rewrite lookup_empty in Hxs.
Defined.

Section Unread.

Local Open Scope list_scope.

Implicit Types (f g : CarFilters).

Lemma price_untouched e f f' field :
  parsed e -> priceRange e = None ->
  field ∈ ["priceMin"; "priceMax"] ->
  applyEntitiesToFilters e f = Ok f' ->
  f' !! field = f !! field.
Proof.
  intros (Hflags & _) Hprice Hfield Hf.
  assert (Hbound : field ∈ bound_fields).
  { apply list_elem_of_In. apply list_elem_of_In in Hfield.
    simpl in *. tauto. }
  apply (merge_other_field e); [done| |].
  - intros Hin%list_writes_of_keys. revert Hin.
    assert (Hall : Forall (fun x => x ∉ list_fields) bound_fields)
      by (apply (bool_decide_unpack _); by vm_compute).
    by apply (proj1 (Forall_forall _ _) Hall field).
  - unfold scalar_writes. rewrite Hprice. simpl.
    rewrite !map_app, !elem_of_app. intros [H|[H|H]].
    + destruct (features e) as [fs|]; [|by apply elem_of_nil in H].
      apply list_elem_of_fmap in H as ([k v] & -> & H).
      apply list_elem_of_fmap in H as ([k' v'] & [= -> ->] & H).
      apply (Hflags fs k' v' eq_refl) in H as [H _]. revert H.
      assert (Hall : Forall (fun x => x ∉ feature_names) bound_fields)
        by (apply (bool_decide_unpack _); by vm_compute).
      by apply (proj1 (Forall_forall _ _) Hall k').
    + apply range_writes_keys in H as [-> | ->];
        apply list_elem_of_In in Hfield; simpl in Hfield;
        by destruct Hfield as [?|[?|[]]].
    + apply range_writes_keys in H as [-> | ->];
        apply list_elem_of_In in Hfield; simpl in Hfield;
        by destruct Hfield as [?|[?|[]]].
Qed.

End Unread.

(** X19. Years, mileages, features, drive types and colours are stored but
    not read by the page: merging entities that hold nothing else (features
    of the table, numbers as bounds) leaves the list of cars as it was. *)
Theorem unread_entities_do_not_filter
        (toString : number -> string) (e : Entities) (f f' : CarFilters)
        (cars : list Inventory.Car) (searchTerm : string) :
  parsed e ->
  names_nothing_filtered e ->
  applyEntitiesToFilters e f = Ok f' ->
  Inventory.filteredCars toString cars searchTerm f'
  = Inventory.filteredCars toString cars searchTerm f.
Proof.
  intros Hparsed (Hmakes & Htypes & Hconditions & Hfuels & Htrans & Hprice) Hf.
  apply filteredCars_agree. intros car. apply keeps_agree.
  - f_equal. apply (price_untouched e); try done.
    apply list_elem_of_In; simpl; tauto.
  - f_equal. apply (price_untouched e); try done.
    apply list_elem_of_In; simpl; tauto.
  - intros field Hfield.
    apply (merge_list_field _ _ _ field None Hparsed Hf).
    unfold list_categories.
    rewrite Hmakes, Htypes, Hconditions, Hfuels, Htrans.
    apply list_elem_of_In. apply list_elem_of_In in Hfield.
    simpl in *. intuition congruence.
Qed.

(** An instance: a first year of 2015 and heated seats, merged into a state
    that asks for an Audi, do not hide a BMW of 2010 without them any more
    than the state did, and do not show it either. *)
Lemma unread_entities_do_not_filter_witness :
  exists f',
    applyEntitiesToFilters year_and_seats {[ "makes" := VArr ["Audi"] ]}
    = Ok f'
    /\ Inventory.filteredCars
         (fun _ => EmptyString)
         [Inventory.mkCar "BMW X5" "BMW" "suv" (Num 2010) (Num 45000)
                          "diesel" "automatic" "used"]
         EmptyString f'
       = Some [].
Proof.
  destruct (applyEntitiesToFilters year_and_seats
                                   {[ "makes" := VArr ["Audi"] ]})
    as [f'|] eqn:Hf; [|vm_compute in Hf; discriminate].
  exists f'. split; [reflexivity|].
  rewrite (unread_entities_do_not_filter
             _ year_and_seats {[ "makes" := VArr ["Audi"] ]} f' _ _);
    [reflexivity| |by repeat split|exact Hf].
  split; [|split; [|split]].
  - intros fs feature flag [= <-] [= -> ->]%list_elem_of_singleton.
    split; [|done]. apply list_elem_of_In. vm_compute. tauto.
  - intros r [=].
  - intros r [= <-]. split; intros v [= <-]. left. by exists 2015%N.
  - intros r [=].
Defined.

(** X20. A price bound of [0] is no bound: with [priceMax] (or [priceMin])
    at [0] the page lists what it lists without the field, so that "under 0
    euros" hides no car. *)
Theorem zero_price_bound_filters_nothing
        (toString : number -> string) (f : CarFilters)
        (cars : list Inventory.Car) (searchTerm : string) :
  Inventory.filteredCars toString cars searchTerm
                         (<["priceMax" := VNum (Num 0)]> f)
  = Inventory.filteredCars toString cars searchTerm (delete "priceMax" f)
  /\ Inventory.filteredCars toString cars searchTerm
                            (<["priceMin" := VNum (Num 0)]> f)
     = Inventory.filteredCars toString cars searchTerm (delete "priceMin" f).
Proof.
  split; apply filteredCars_agree; intros car; apply keeps_agree;
    rewrite ?lookup_insert_eq, ?lookup_delete_eq; try reflexivity;
    try (rewrite lookup_insert_ne, lookup_delete_ne by done; reflexivity);
    intros field Hfield; apply list_elem_of_In in Hfield; simpl in Hfield;
    rewrite lookup_insert_ne, lookup_delete_ne; try reflexivity;
    intros <-; intuition discriminate.
Qed.

Section Pages.

Local Open Scope list_scope.

Context {A : Type}.

Implicit Types (cars : list A).

(** A page from the first one on is a chunk of nine cars. *)
Lemma currentCars_chunk cars (p : Z) :
  (1 <= p)%Z ->
  Inventory.currentCars cars p
  = firstn 9 (skipn (9 * Z.to_nat (p - 1)) cars).
Proof.
  intros Hp.
  unfold Inventory.currentCars, Inventory.slice, Inventory.relative,
    Inventory.carsPerPage.
  destruct (Z.ltb_spec ((p - 1) * 9) 0) as [?|_]; [lia|].
  destruct (Z.ltb_spec (p * 9) 0) as [?|_]; [lia|].
  destruct (Z_le_gt_dec (Z.of_nat (List.length cars)) ((p - 1) * 9))
    as [Hbeyond|Hwithin].
  - rewrite !Z.min_r by lia. rewrite Z.sub_diag.
    set (k := 9 * Z.to_nat (p - 1)).
    rewrite (drop_ge cars k) by (unfold k; lia).
    by rewrite firstn_nil.
  - rewrite (Z.min_l ((p - 1) * 9)) by lia.
    replace (Z.to_nat ((p - 1) * 9)) with (9 * Z.to_nat (p - 1)) by lia.
    set (k := 9 * Z.to_nat (p - 1)).
    assert (Hlen : List.length (skipn k cars) = List.length cars - k)
      by apply length_drop.
    replace (Z.to_nat (Z.min (p * 9) (Z.of_nat (List.length cars))
                       - (p - 1) * 9))
      with (Nat.min 9 (List.length (skipn k cars))) by (unfold k in *; lia).
    rewrite <- take_take. f_equal. by rewrite firstn_all.
Qed.

Lemma chunks_concat (n : nat) : forall cars,
  List.length cars <= 9 * n ->
  concat (map (fun i => firstn 9 (skipn (9 * i) cars)) (seq 0 n)) = cars.
Proof.
  induction n as [|n IH]; intros cars Hlen.
  - destruct cars; [done|]. simpl in Hlen. lia.
  - change (seq 0 (S n)) with (0 :: seq 1 n).
    rewrite map_cons, <- seq_shift, map_map, concat_cons.
    change (skipn (9 * 0) cars) with cars.
    rewrite <- (firstn_skipn 9 cars) at 2. f_equal.
    rewrite <- (IH (skipn 9 cars)) by (rewrite length_drop; lia).
    f_equal. apply map_ext. intros i.
    rewrite drop_drop. f_equal. f_equal. lia.
Qed.

Lemma totalPages_bounds cars :
  (0 <= Inventory.totalPages cars)%Z
  /\ (Z.of_nat (List.length cars) <= 9 * Inventory.totalPages cars)%Z
  /\ (9 * (Inventory.totalPages cars - 1) < Z.of_nat (List.length cars)
      \/ cars = [])%Z.
Proof.
  unfold Inventory.totalPages, Inventory.carsPerPage.
  set (len := Z.of_nat (List.length cars)).
  assert (Hlen : (0 <= len)%Z) by lia.
  pose proof (Z.div_mod len 9 ltac:(lia)) as Hdiv.
  pose proof (Z.mod_pos_bound len 9 ltac:(lia)) as Hmod.
  destruct (Z.eqb_spec (len mod 9) 0) as [Hzero|Hnonzero].
  - split; [lia|]. split; [lia|].
    destruct cars as [|car cars]; [by right|left].
    unfold len in *. simpl List.length in *. lia.
  - split; [lia|]. split; [lia|]. left. lia.
Qed.

Lemma click_in_range (total p : Z) (b : Inventory.button) :
  (1 <= p <= total)%Z -> (1 <= Inventory.click total p b <= total)%Z.
Proof.
  intros Hp. unfold Inventory.click.
  destruct (Z.ltb_spec 1 total); [|done].
  destruct b as [|i|].
  - destruct (Z.eqb_spec p 1); lia.
  - destruct (Z.ltb_spec (Z.of_nat i) total); lia.
  - destruct (Z.eqb_spec p total); lia.
Qed.

Lemma browse_in_range (total : Z) (clicks : list Inventory.button) :
  (1 <= total)%Z -> (1 <= browse total clicks <= total)%Z.
Proof.
  intros Htotal. unfold browse.
  assert (H : forall p, (1 <= p <= total)%Z ->
                        (1 <= fold_left (Inventory.click total) clicks p
                         <= total)%Z).
  { induction clicks as [|b clicks IH]; intros p Hp; simpl; [done|].
    by apply IH, click_in_range. }
  apply H. lia.
Qed.

Lemma currentCars_length cars (p : Z) :
  (1 <= p <= Inventory.totalPages cars)%Z ->
  1 <= List.length (Inventory.currentCars cars p) <= 9.
Proof.
  intros Hp. rewrite currentCars_chunk by lia.
  rewrite length_take, length_drop.
  destruct (totalPages_bounds cars) as (_ & _ & [Hlast| ->]).
  - lia.
  - change (Inventory.totalPages (@nil A)) with 0%Z in Hp. lia.
Qed.

End Pages.

(** X21. The pages 1 to [totalPages] partition the list: one after the
    other they give every car once and in order, each of them holds
    between one and nine cars, and a page after the last one is empty. *)
Theorem pages_partition_the_cars {A : Type} (cars : list A) :
  concat (map (Inventory.currentCars cars) (page_numbers cars)) = cars
  /\ (forall p, (1 <= p <= Inventory.totalPages cars)%Z ->
                1 <= List.length (Inventory.currentCars cars p) <= 9)
  /\ (forall p, (Inventory.totalPages cars < p)%Z ->
                Inventory.currentCars cars p = []).
Proof.
  destruct (totalPages_bounds cars) as (Hpos & Hupper & Hlast).
  split; [|split].
  - unfold page_numbers. rewrite map_map.
    rewrite <- (chunks_concat (Z.to_nat (Inventory.totalPages cars)) cars)
      at 2 by lia.
    f_equal. apply map_ext. intros i.
    rewrite currentCars_chunk by lia. do 3 f_equal. lia.
  - apply currentCars_length.
  - intros p Hp. rewrite currentCars_chunk by lia.
    rewrite (drop_ge cars) by lia. reflexivity.
Qed.

(** X22. Whatever buttons are clicked, starting from the first page of a
    list that is not empty, the page shown holds between one and nine
    cars: the buttons never lead to an empty page. *)
Theorem buttons_never_lead_to_an_empty_page
        {A : Type} (cars : list A) (clicks : list Inventory.button) :
  cars <> [] ->
  (1 <= List.length
          (Inventory.currentCars
             cars (browse (Inventory.totalPages cars) clicks)) <= 9)%nat.
Proof.
  intros Hcars. apply currentCars_length. apply browse_in_range.
  destruct (totalPages_bounds cars) as (_ & Hupper & _).
  destruct cars as [|car cars]; [done|]. simpl List.length in Hupper. lia.
Qed.

(** An instance: ten cars, the arrow to the next page clicked twice. *)
Lemma buttons_never_lead_to_an_empty_page_witness :
  (1 <= List.length
          (Inventory.currentCars
             (seq 0 10)
             (browse (Inventory.totalPages (seq 0 10))
                     [Inventory.next; Inventory.next])) <= 9)%nat.
Proof.
  apply (buttons_never_lead_to_an_empty_page (seq 0 10)). discriminate.
Defined.

(** The last step of the case analysis below: nothing was confirmed. *)
Ltac confirms_nothing :=
  split; [|done]; intros _; do 6 (split; [done|]);
  let r := fresh "r" in
  let n := fresh "n" in
  intros r [= <-]; simpl; split; intros n [= <-]; done.

(** X23. The confirmation asks to be more specific exactly when the
    entities hold no make, vehicle type, condition, fuel type, transmission
    or feature and no price bound other than [0]: years, mileages, drive
    types and colours are merged and published, but never confirmed. *)
Theorem confirmation_is_generic_iff
        (toLocaleString : number -> string) (e : Entities) (text : string) :
  generateConfirmationText toLocaleString e text = generic_reply
  <-> nothing_to_confirm e.
Proof.
  unfold generateConfirmationText, nothing_to_confirm, no_truthy_bound.
  assert (Hgot : forall s : string,
             ("Got it! Looking for " ++ s)%string <> generic_reply).
  { intros s. rewrite append_cons. discriminate. }
  destruct (makes e) as [xs|];
    [split; [by intros ?%Hgot|by intros [? _]]|].
  destruct (vehicleTypes e) as [xs|];
    [split; [by intros ?%Hgot|by intros (_ & ? & _)]|].
  destruct (conditions e) as [xs|];
    [split; [by intros ?%Hgot|by intros (_ & _ & ? & _)]|].
  destruct (fuelTypes e) as [xs|];
    [split; [by intros ?%Hgot|by intros (_ & _ & _ & ? & _)]|].
  destruct (transmissions e) as [xs|];
    [split; [by intros ?%Hgot|by intros (_ & _ & _ & _ & ? & _)]|].
  simpl.
  destruct (priceRange e) as [[lo hi]|]; simpl.
  - destruct hi as [hi|]; simpl; [destruct (truthy_number hi) eqn:Hhi|];
      simpl.
    + split; [by intros ?%Hgot|].
      intros (_ & _ & _ & _ & _ & _ & H).
      destruct (H _ eq_refl) as [Hmax _]. specialize (Hmax hi eq_refl).
      congruence.
    + destruct lo as [lo|]; simpl; [destruct (truthy_number lo) eqn:Hlo|];
        simpl.
      * split; [by intros ?%Hgot|].
        intros (_ & _ & _ & _ & _ & _ & H).
        destruct (H _ eq_refl) as [_ Hmin]. specialize (Hmin lo eq_refl).
        congruence.
      * destruct (features e) as [fs|];
          [split; [by intros ?%Hgot|by intros (_ & _ & _ & _ & _ & ? & _)]|].
        confirms_nothing.
      * destruct (features e) as [fs|];
          [split; [by intros ?%Hgot|by intros (_ & _ & _ & _ & _ & ? & _)]|].
        confirms_nothing.
    + destruct lo as [lo|]; simpl; [destruct (truthy_number lo) eqn:Hlo|];
        simpl.
      * split; [by intros ?%Hgot|].
        intros (_ & _ & _ & _ & _ & _ & H).
        destruct (H _ eq_refl) as [_ Hmin]. specialize (Hmin lo eq_refl).
        congruence.
      * destruct (features e) as [fs|];
          [split; [by intros ?%Hgot|by intros (_ & _ & _ & _ & _ & ? & _)]|].
        confirms_nothing.
      * destruct (features e) as [fs|];
          [split; [by intros ?%Hgot|by intros (_ & _ & _ & _ & _ & ? & _)]|].
        confirms_nothing.
  - destruct (features e) as [fs|];
      [split; [by intros ?%Hgot|by intros (_ & _ & _ & _ & _ & ? & _)]|].
    confirms_nothing.
Qed.
